(** * asyncmd.trajectory.propagate: conditional trajectory propagation

    A shallow embedding of [src/asyncmd/trajectory/propagate.py] and the
    properties of its frame locator, slice plans, condition evaluator and
    propagation loop.

    Conventions of the embedding:
    - a [Trajectory] is the list of its frames; [len(traj)] is [length];
    - a condition (state) function maps a trajectory to one boolean per
      frame; the values of all conditions on one trajectory form a list of
      rows (conditions x frames), as numpy sees them after [np.asarray];
    - Python exceptions are values of [PyExn], carried by the [Result]
      monad; numpy's [AxisError] is a [ValueError] (it subclasses it);
    - list positions are [nat]; the arithmetic the code does on frame
      numbers is done in [Z], so a negative difference would be visible;
    - the [while] loop of [propagate] may run forever (the engine decides),
      so it takes fuel and answers [None] when the fuel is used up. *)

From Stdlib Require Import ZArith Lia List Permutation.
From stdpp Require Import base list numbers option strings.

Open Scope Z_scope.
Open Scope nat_scope.

(** ** Exceptions and results *)

(** [self.max_steps]: an [int], or [np.inf] when neither bound is given. *)
Inductive Budget : Type :=
  | Steps (n : Z)
  | Infinity.

(** [step_counter <= self.max_steps]; every int is below [np.inf]. *)
Definition within_budget (step_counter : Z) (max_steps : Budget) : bool :=
  match max_steps with
  | Steps n => (step_counter <=? n)%Z
  | Infinity => true
  end.

(** The exceptions this module can raise. [MaxStepsReachedError] carries the
    two values its message interpolates: the steps produced and the
    configured maximum. *)
Inductive PyExn : Type :=
  | ValueError
  | IndexError
  | KeyError
  | MaxStepsReachedError (step_counter : Z) (max_steps : Budget).

Inductive Result (A : Type) : Type :=
  | Return (a : A)
  | Raise (e : PyExn).
Arguments Return {A} a.
Arguments Raise {A} e.

Module ResultMonad.
Definition bind {A B} (f : A → Result B) (m : Result A) : Result B :=
  match m with
  | Return a => f a
  | Raise e => Raise e
  end.

#[global] Instance result_ret : MRet Result := @Return.
#[global] Instance result_bind : MBind Result := @bind.
#[global] Instance result_fmap : FMap Result :=
  λ A B f m, match m with Return a => Return (f a) | Raise e => Raise e end.

End ResultMonad.
Import ResultMonad.

(** [l[i]] for a non-negative position: [IndexError] out of range. *)
Definition getitem {A} (l : list A) (i : nat) : Result A :=
  match l !! i with
  | Some x => Return x
  | None => Raise IndexError
  end.

(** ** The numpy primitives the module uses *)

Module Np.
(** A 2-d boolean array, as the list of its rows. *)
Abbreviation Matrix := (list (list bool)) (only parsing).

(** [np.asarray(c)] for a list [c] of 1-d arrays: the rows must agree in
    length (an inhomogeneous shape is rejected). *)
Definition rectangular (c : list (list bool)) : bool :=
  match c with
  | [] => true
  | r :: rest => forallb (λ r', length r' =? length r) rest
  end.

Definition asarray (c : list (list bool)) : Result Matrix :=
  if rectangular c then Return c else Raise ValueError.

(** [np.any]. *)
Definition any (m : Matrix) : bool := existsb (existsb id) m.

(** [np.where] of a 1-d array: the positions of its true entries,
    ascending; [j] is the position of the head of [row]. *)
Fixpoint where_from (j : nat) (row : list bool) : list nat :=
  match row with
  | [] => []
  | b :: row' => (if b then [j] else []) ++ where_from (S j) row'
  end.

Definition where1 (row : list bool) : list nat := where_from 0 row.

(** [np.where] of a 2-d array: the (row, column) positions of its true
    entries in row-major order, as two parallel index arrays. *)
Fixpoint nonzero_from (i : nat) (m : Matrix) : list (nat * nat) :=
  match m with
  | [] => []
  | row :: m' => map (pair i) (where1 row) ++ nonzero_from (S i) m'
  end.

Definition where2 (m : Matrix) : list nat * list nat :=
  let nz := nonzero_from 0 m in (map fst nz, map snd nz).

(** [np.argmin]: the position of the first occurrence of the minimum;
    [best_i] holds the best position so far, [best] its value, [i] the
    position of the head of the rest. *)
Fixpoint argmin_from (best_i best i : nat) (l : list nat) : nat :=
  match l with
  | [] => best_i
  | x :: l' =>
      if x <? best then argmin_from i x (S i) l'
      else argmin_from best_i best (S i) l'
  end.

Definition argmin (l : list nat) : Result nat :=
  match l with
  | [] => Raise ValueError
  | x :: l' => Return (argmin_from 0 x 1 l')
  end.

(** [np.min]. *)
Definition min (l : list nat) : Result nat :=
  match l with
  | [] => Raise ValueError
  | x :: l' => Return (foldl Nat.min x l')
  end.

(** [np.concatenate(arrays, axis=0)] of 1-d arrays. *)
Definition concatenate0 (arrays : list (list bool)) : Result (list bool) :=
  match arrays with
  | [] => Raise ValueError
  | _ => Return (concat arrays)
  end.

(** Row [i] of the concatenation along the frame axis. *)
Definition joined_row (arrays : list Matrix) (i : nat) : list bool :=
  concat (map (λ a, default [] (a !! i)) arrays).

(** [np.concatenate(arrays, axis=1)] of 2-d arrays: there must be an
    array, axis 1 must exist (an array made from no rows is 1-d) and the
    arrays must agree in their number of rows. *)
Definition concatenate1 (arrays : list Matrix) : Result Matrix :=
  match arrays with
  | [] => Raise ValueError
  | a :: rest =>
      if (0 <? length a) && forallb (λ a', length a' =? length a) rest
      then Return (map (joined_row arrays) (seq 0 (length a)))
      else Raise ValueError
  end.
End Np.

(** ** Slices and the stitcher *)

(** A read instruction [(start, stop, step)] as the module writes them:
    [start] and [step] are always ints, [stop] may be [None]. *)
Definition Slice : Type := Z * option Z * Z.

Module PySlice.
(** [slice(start, stop, step).indices(len)]. *)
Definition indices (sl : Slice) (len : Z) : Result (Z * Z * Z) :=
  let '(start, stop, step) := sl in
  if (step =? 0)%Z then Raise ValueError
  else
    let lower := if (step <? 0)%Z then (-1)%Z else 0%Z in
    let upper := if (step <? 0)%Z then (len - 1)%Z else len in
    let clip (i : Z) :=
      if (i <? 0)%Z then Z.max (i + len) lower else Z.min i upper in
    let stop' :=
      match stop with
      | None => if (step <? 0)%Z then lower else upper
      | Some s => clip s
      end in
    Return (clip start, stop', step).

(** [len(range(start, stop, step))]. *)
Definition range_len (start stop step : Z) : nat :=
  Z.to_nat (if (0 <? step)%Z then (stop - start + step - 1) / step
            else (start - stop - step - 1) / (- step))%Z.

(** [range(start, stop, step)]. *)
Definition range (start stop step : Z) : list Z :=
  map (λ k : nat, (start + Z.of_nat k * step)%Z) (seq 0 (range_len start stop step)).

(** [t[start:stop:step]]. *)
Definition getslice {A} (t : list A) (sl : Slice) : Result (list A) :=
  '(start, stop, step) ← indices sl (Z.of_nat (length t));
  mapM (λ i : Z, getitem t (Z.to_nat i)) (range start stop step).
End PySlice.

(** Modelled from the spec: [TrajectoryConcatenator.concatenate] lives in
    [convert.py], outside the sources at hand. The spec describes it as the
    collaborator that, given an ordered list of (segment, start, stop,
    stride) read instructions, reads the selected frames in order and
    writes them as one trajectory. Each instruction is read as a Python
    slice of the segment; files, structure output and the overwrite policy
    are left out. *)
Definition concatenate {Frame} (trajs : list (list Frame)) (slices : list Slice)
  : Result (list Frame) :=
  parts ← mapM (λ '(t, sl), PySlice.getslice t sl) (zip trajs slices);
  Return (concat parts).

(** ** [asyncio.gather] *)

Module Asyncio.
(** The order in which [n] gathered awaitables complete. Any list [hint]
    describes one: the positions it names complete first, in its order
    (of a position named twice the last mention counts, positions out of
    range are skipped), the remaining ones afterwards. Every completion order arises this way, from the
    hint that lists it. *)
Definition completion_order (n : nat) (hint : list nat) : list nat :=
  let early := remove_dups (filter (λ k, k < n) hint) in
  early ++ filter (λ k, k ∉ early) (seq 0 n).

(** The awaitable at position [k] completes: its value goes to the slot of
    its own position. *)
Definition store {A} (aws : list A) (res : list (option A)) (k : nat)
  : list (option A) :=
  match aws !! k with
  | Some a => <[k := Some a]> res
  | None => res
  end.

(** [await asyncio.gather] of the awaitables [aws]: every awaitable stores
    its value when it completes, and the aggregate list is returned once
    all have. The second component is the order of completion. *)
Definition gather {A} (hint : list nat) (aws : list A) : list A * list nat :=
  let order := completion_order (length aws) hint in
  let slots := foldl (store aws) (replicate (length aws) None) order in
  (omap id slots, order).
End Asyncio.

(** ** The frame locator shared by the module's functions *)

(** The four places that read
    [conds_fullfilled, frame_nums = np.where(cond_vals)],
    [min_idx = np.argmin(frame_nums)] and then index both arrays at
    [min_idx]: the result is (condition index, frame number). *)
Definition first_fullfilled (cond_vals : Np.Matrix) : Result (nat * nat) :=
  let '(conds_fullfilled, frame_nums) := Np.where2 cond_vals in
  min_idx ← Np.argmin frame_nums;
  first_condition_fullfilled ← getitem conds_fullfilled min_idx;
  first_frame_in_cond ← getitem frame_nums min_idx;
  Return (first_condition_fullfilled, first_frame_in_cond).

(** The loop
    [while first_frame >= frame_sum: last_part_idx += 1; frame_sum += part_lens[last_part_idx]];
    [rest] is [part_lens[last_part_idx + 1:]], so that reading past the end
    of [part_lens] is the [IndexError] of Python. *)
Fixpoint walk_parts (first_frame last_part_idx frame_sum : nat) (rest : list nat)
  : Result nat :=
  if frame_sum <=? first_frame then
    match rest with
    | [] => Raise IndexError
    | len :: rest' => walk_parts first_frame (S last_part_idx) (frame_sum + len) rest'
    end
  else Return last_part_idx.

(** [last_part_idx = 0; frame_sum = part_lens[last_part_idx]] and the loop. *)
Definition find_last_part (part_lens : list nat) (first_frame : nat) : Result nat :=
  match part_lens with
  | [] => Raise IndexError
  | len0 :: rest => walk_parts first_frame 0 len0 rest
  end.

(** [first_frame - sum(part_lens[:last_part_idx])]. *)
Definition frame_in_part (part_lens : list nat) (first_frame last_part_idx : nat) : Z :=
  (Z.of_nat first_frame - Z.of_nat (sum_list (take last_part_idx part_lens)))%Z.

(** ** Conditions and their evaluation *)

(** What the evaluator does, in order: a blocking call of the synchronous
    condition at index [i], or the completion of the coroutine of the
    condition at index [i]. *)
Inductive EvalEvent : Type :=
  | SyncCall (i : nat)
  | CoroDone (i : nat).

Abbreviation Trajectory Frame := (list Frame) (only parsing).

Section Conditions.
Context {Frame : Type}.
#[local] Abbreviation Trajectory := (Trajectory Frame).

(** A condition function: [inspect.iscoroutinefunction(c.__call__)] and the
    per-frame values it gives on a trajectory. *)
Record Condition : Type := {
  is_coroutine : bool;
  call : Trajectory → list bool;
}.

(** The [for] loop that pieces the results together: [zipped] enumerates
    [zip(conditions, flags)], [coro_res.pop(0)] takes the head. *)
Fixpoint piece_together (traj : Trajectory)
    (zipped : list (nat * (Condition * bool))) (coro_res : list (list bool))
  : Result (list (list bool) * list EvalEvent) :=
  match zipped with
  | [] => Return ([], [])
  | (i, (c, c_is_coro)) :: zipped' =>
      if c_is_coro then
        match coro_res with
        | [] => Raise IndexError
        | r :: coro_res' =>
            '(all_results, evs) ← piece_together traj zipped' coro_res';
            Return (r :: all_results, evs)
        end
      else
        let r := call c traj in
        '(all_results, evs) ← piece_together traj zipped' coro_res;
        Return (r :: all_results, SyncCall i :: evs)
  end.

(** [_condition_vals_for_traj], with the events in the order they happen.
    [flags] is [self._condition_func_is_coroutine]; [hint] fixes the
    completion order of the gathered coroutines. *)
Definition condition_vals_with_events (conditions : list Condition)
    (flags : list bool) (hint : list nat) (traj : Trajectory)
  : Result (list (list bool) * list EvalEvent) :=
  if forallb id flags then
    let '(res, order) := Asyncio.gather hint (map (λ c, call c traj) conditions) in
    Return (res, map CoroDone order)
  else if negb (existsb id flags) then
    Return (map (λ c, call c traj) conditions,
            map SyncCall (seq 0 (length conditions)))
  else
    let zipped := zip (seq 0 (length conditions)) (zip conditions flags) in
    let coros := filter (λ icf, icf.2.2 = true) zipped in
    let '(coro_res, order) :=
      Asyncio.gather hint (map (λ icf, call icf.2.1 traj) coros) in
    let done := omap (λ k, (λ icf, CoroDone icf.1) <$> coros !! k) order in
    '(all_results, evs) ← piece_together traj zipped coro_res;
    Return (all_results, done ++ evs).

(** The indices of the synchronous conditions called, in the order of the
    calls, and of the coroutines completed, in the order of completion. *)
Definition sync_calls (evs : list EvalEvent) : list nat :=
  omap (λ e, match e with SyncCall i => Some i | CoroDone _ => None end) evs.

Definition coro_completions (evs : list EvalEvent) : list nat :=
  omap (λ e, match e with CoroDone i => Some i | SyncCall _ => None end) evs.

(** The positions of the synchronous, respectively asynchronous,
    conditions of a list, ascending. *)
Definition sync_positions (conditions : list Condition) : list nat :=
  Np.where1 (map (λ c, negb (is_coroutine c)) conditions).

Definition coro_positions (conditions : list Condition) : list nat :=
  Np.where1 (map is_coroutine conditions).

(** The values of all conditions on a trajectory, in the order of the
    conditions: row [i] is produced by condition [i]. *)
Definition values_on (conditions : list Condition) (traj : Trajectory)
  : list (list bool) :=
  map (λ c, call c traj) conditions.

(** The values of all conditions along the concatenated frame axis of a
    list of segments: row [i] joins what condition [i] gives on each
    segment, in the order of the segments. *)
Definition values_along (conditions : list Condition) (trajs : list Trajectory)
  : Np.Matrix :=
  map (λ c, concat (map (call c) trajs)) conditions.

(** Every condition gives one value per frame of every segment. *)
Definition consistent (conditions : list Condition) (trajs : list Trajectory)
  : Prop :=
  ∀ c t, c ∈ conditions → t ∈ trajs → length (call c t) = length t.

(** Every condition gives one value per frame, on every trajectory. *)
Definition well_behaved (conditions : list Condition) : Prop :=
  ∀ c t, c ∈ conditions → length (call c t) = length t.

(** No condition is true on any frame of a segment, respectively some
    condition is true on some frame of it. *)
Definition quiet (conditions : list Condition) (traj : Trajectory) : Prop :=
  consistent conditions [traj] ∧ Np.any (values_on conditions traj) = false.

Definition fulfilling (conditions : list Condition) (traj : Trajectory) : Prop :=
  consistent conditions [traj] ∧ Np.any (values_on conditions traj) = true.
End Conditions.
Arguments Condition Frame : clear implicits.

(** ** The engine interface *)

(** [engine_kwargs], of which this module reads two keys. *)
Record EngineKwargs (MDConfig : Type) : Type := {
  kw_output_traj_type : option string;
  kw_mdconfig : option MDConfig;
}.
Arguments kw_output_traj_type {MDConfig} _.
Arguments kw_mdconfig {MDConfig} _.

(** What the module asks of [engine_cls]: its class attribute
    [output_traj_type], its constructor, and the methods [prepare],
    [prepare_from_files], [run_walltime] and the property [steps_done] of
    an instance, whose state is a value of [E]. *)
Class MDEngine (Frame MDConfig Hours E : Type) : Type := {
  default_output_traj_type : string;
  engine_cls : EngineKwargs MDConfig → E;
  prepare : Trajectory Frame → string → string → E → E;
  prepare_from_files : string → string → E → E;
  run_walltime : Hours → E → Trajectory Frame * E;
  steps_done : E → Z;
}.

(** The calls [propagate] makes on the engine side, in order. *)
Inductive EngineCall : Type :=
  | CallEngineCls
  | CallPrepare
  | CallGetAllTrajParts
  | CallPrepareFromFiles
  | CallRunWalltime.

(** ** ConditionalTrajectoryPropagator *)

Section Propagator.
Context {Frame MDConfig Hours E : Type} `{!MDEngine Frame MDConfig Hours E}.

(** [utils.nstout_from_mdconfig] and [utils.get_all_traj_parts] are
    imported from outside the sources at hand. *)
Variable nstout_from_mdconfig : MDConfig → string → Z.
Variable get_all_traj_parts : string → string → E → list (Trajectory Frame).

(** The completion order of the coroutine conditions gathered on a
    trajectory (see [Asyncio.completion_order]). *)
Variable completion : Trajectory Frame → list nat.

Record ConditionalTrajectoryPropagator : Type := {
  conditions : list (Condition Frame);
  engine_kwargs : EngineKwargs MDConfig;
  walltime_per_part : Hours;
  max_steps : Budget;
}.

(** The [conditions] setter fills [_condition_func_is_coroutine] from the
    conditions whenever it stores them. *)
Definition _condition_func_is_coroutine (self : ConditionalTrajectoryPropagator)
  : list bool :=
  map is_coroutine (conditions self).

(** [__init__]. *)
Definition init (conditions : list (Condition Frame))
    (engine_kwargs : EngineKwargs MDConfig) (walltime_per_part : Hours)
    (max_steps max_frames : option Z) : Result ConditionalTrajectoryPropagator :=
  let traj_type :=
    match kw_output_traj_type engine_kwargs with
    | Some t => t
    | None => default_output_traj_type
    end in
  mdconfig ← match kw_mdconfig engine_kwargs with
             | Some c => Return c
             | None => Raise KeyError
             end;
  let nstout := nstout_from_mdconfig mdconfig traj_type in
  let budget :=
    match max_steps with
    | Some s => Steps s
    | None =>
        match max_frames with
        | Some f => Steps (f * nstout)
        | None => Infinity
        end
    end in
  Return {| conditions := conditions;
            engine_kwargs := engine_kwargs;
            walltime_per_part := walltime_per_part;
            max_steps := budget |}.

(** [_condition_vals_for_traj]. *)
Definition _condition_vals_for_traj (self : ConditionalTrajectoryPropagator)
    (traj : Trajectory Frame) : Result (list (list bool)) :=
  fst <$> condition_vals_with_events (conditions self)
            (_condition_func_is_coroutine self) (completion traj) traj.

(** The state of [propagate] around its [while] loop. *)
Record LoopState : Type := {
  ls_engine : E;
  ls_any_cond_fullfilled : bool;
  ls_cond_vals : Np.Matrix;
  ls_trajs : list (Trajectory Frame);
  ls_step_counter : Z;
  ls_calls : list EngineCall;
}.

(** The [while] loop of [propagate]: [None] when the fuel runs out, else
    the state at the exit of the loop, or the exception that ended it and
    the calls made until then. *)
Fixpoint stepping (fuel : nat) (self : ConditionalTrajectoryPropagator)
    (s : LoopState) : option (LoopState + PyExn * list EngineCall) :=
  if negb (ls_any_cond_fullfilled s)
     && within_budget (ls_step_counter s) (max_steps self)
  then
    match fuel with
    | O => None
    | S fuel' =>
        let '(traj, engine) := run_walltime (walltime_per_part self) (ls_engine s) in
        let calls := ls_calls s ++ [CallRunWalltime] in
        match _condition_vals_for_traj self traj ≫= Np.asarray with
        | Raise e => Some (inr (e, calls))
        | Return cond_vals =>
            stepping fuel' self
              {| ls_engine := engine;
                 ls_any_cond_fullfilled := Np.any cond_vals;
                 ls_cond_vals := cond_vals;
                 ls_trajs := ls_trajs s ++ [traj];
                 ls_step_counter := steps_done engine;
                 ls_calls := calls |}
        end
    end
  else Some (inl s).

(** What follows the loop. *)
Definition after_loop (self : ConditionalTrajectoryPropagator) (s : LoopState)
  : Result (list (Trajectory Frame) * nat) :=
  if negb (ls_any_cond_fullfilled s) then
    Raise (MaxStepsReachedError (ls_step_counter s) (max_steps self))
  else
    '(first_condition_fullfilled, _) ← first_fullfilled (ls_cond_vals s);
    Return (ls_trajs s, first_condition_fullfilled).

(** The engine after [n] more segments, and the segment its next call of
    [run_walltime] returns. *)
Fixpoint engine_after (self : ConditionalTrajectoryPropagator) (n : nat)
    (engine : E) : E :=
  match n with
  | O => engine
  | S n' => (run_walltime (walltime_per_part self) (engine_after self n' engine)).2
  end.

Definition segment (self : ConditionalTrajectoryPropagator) (n : nat)
    (engine : E) : Trajectory Frame :=
  (run_walltime (walltime_per_part self) (engine_after self n engine)).1.

(** [step_counter] after [n] turns of the loop entered in state [s]. *)
Definition counter_after (self : ConditionalTrajectoryPropagator)
    (s : LoopState) (n : nat) : Z :=
  match n with
  | O => ls_step_counter s
  | S _ => steps_done (engine_after self n (ls_engine s))
  end.

(** The state after [n] turns of the loop entered in state [s], when no
    condition was true on the segments of these turns. *)
Definition advance (self : ConditionalTrajectoryPropagator) (s : LoopState)
    (n : nat) : LoopState :=
  {| ls_engine := engine_after self n (ls_engine s);
     ls_any_cond_fullfilled := ls_any_cond_fullfilled s;
     ls_cond_vals :=
       match n with
       | O => ls_cond_vals s
       | S n' => values_on (conditions self) (segment self n' (ls_engine s))
       end;
     ls_trajs := ls_trajs s ++ map (λ i, segment self i (ls_engine s)) (seq 0 n);
     ls_step_counter := counter_after self s n;
     ls_calls := ls_calls s ++ replicate n CallRunWalltime |}.

(** The branch without [continuation] up to the loop. *)
Definition fresh_start (starting_configuration : Trajectory Frame)
    (workdir deffnm : string) (engine : E) (cond_vals : Np.Matrix) : LoopState :=
  let engine := prepare starting_configuration workdir deffnm engine in
  {| ls_engine := engine;
     ls_any_cond_fullfilled := false;
     ls_cond_vals := cond_vals;
     ls_trajs := [];
     ls_step_counter := 0;
     ls_calls := [CallEngineCls; CallPrepare] |}.

(** The [continuation] branch up to the loop: either the early return, or
    the state in which the loop is entered. *)
Definition continue_from_files (self : ConditionalTrajectoryPropagator)
    (workdir deffnm : string) (engine : E)
  : Result (list (Trajectory Frame) * nat + LoopState) :=
  let trajs := get_all_traj_parts workdir deffnm engine in
  cond_vals ← mapM (_condition_vals_for_traj self) trajs;
  arrays ← mapM Np.asarray cond_vals;
  cond_vals ← Np.concatenate1 arrays;
  let any_cond_fullfilled := Np.any cond_vals in
  if any_cond_fullfilled then
    '(first_condition_fullfilled, _) ← first_fullfilled cond_vals;
    Return (inl (trajs, first_condition_fullfilled))
  else
    let engine := prepare_from_files workdir deffnm engine in
    Return (inr {| ls_engine := engine;
                   ls_any_cond_fullfilled := any_cond_fullfilled;
                   ls_cond_vals := cond_vals;
                   ls_trajs := trajs;
                   ls_step_counter := steps_done engine;
                   ls_calls := [CallEngineCls; CallGetAllTrajParts;
                                CallPrepareFromFiles] |}).

(** From the creation of the engine to the loop, in either branch. *)
Definition loop_entry (self : ConditionalTrajectoryPropagator)
    (starting_configuration : Trajectory Frame) (workdir deffnm : string)
    (continuation : bool) (cond_vals : Np.Matrix)
  : Result (list (Trajectory Frame) * nat + LoopState) :=
  let engine := engine_cls (engine_kwargs self) in
  if negb continuation then
    Return (inr (fresh_start starting_configuration workdir deffnm engine cond_vals))
  else continue_from_files self workdir deffnm engine.

(** The loop and what follows it. *)
Definition run_loop (fuel : nat) (self : ConditionalTrajectoryPropagator)
    (s : LoopState)
  : option (Result (list (Trajectory Frame) * nat) * list EngineCall) :=
  match stepping fuel self s with
  | None => None
  | Some (inr (e, calls)) => Some (Raise e, calls)
  | Some (inl s') => Some (after_loop self s', ls_calls s')
  end.

(** [propagate]: [None] when the fuel runs out, else what it returns or
    raises, and the calls it made on the engine side. *)
Definition propagate (fuel : nat) (self : ConditionalTrajectoryPropagator)
    (starting_configuration : Trajectory Frame) (workdir deffnm : string)
    (continuation : bool)
  : option (Result (list (Trajectory Frame) * nat) * list EngineCall) :=
  match _condition_vals_for_traj self starting_configuration ≫= Np.asarray with
  | Raise e => Some (Raise e, [])
  | Return cond_vals =>
      if Np.any cond_vals then
        Some ('(first_condition_fullfilled, _) ← first_fullfilled cond_vals;
              let trajs := [starting_configuration] in
              Return (trajs, first_condition_fullfilled),
              [])
      else
        match loop_entry self starting_configuration workdir deffnm
                continuation cond_vals with
        | Raise e => Some (Raise e, [CallEngineCls; CallGetAllTrajParts])
        | Return (inl early) =>
            Some (Return early, [CallEngineCls; CallGetAllTrajParts])
        | Return (inr s) => run_loop fuel self s
        end
  end.

(** The first half of [cut_and_concatenate]: the condition first
    fulfilled, the first frame in a condition along all segments, the
    part that holds it and the frame counted from the start of that
    part. *)
Definition cut_locate (self : ConditionalTrajectoryPropagator)
    (trajs : list (Trajectory Frame)) : Result (nat * nat * nat * Z) :=
  cond_vals ← mapM (_condition_vals_for_traj self) trajs;
  part_lens ← mapM (λ c : list (list bool), length <$> getitem c 0) cond_vals;
  arrays ← mapM Np.asarray cond_vals;
  cond_vals ← Np.concatenate1 arrays;
  '(first_condition_fullfilled, first_frame_in_cond) ← first_fullfilled cond_vals;
  last_part_idx ← find_last_part part_lens first_frame_in_cond;
  let _first_frame_in_cond :=
    frame_in_part part_lens first_frame_in_cond last_part_idx in
  Return (first_condition_fullfilled, first_frame_in_cond, last_part_idx,
          _first_frame_in_cond).

(** [cut_and_concatenate] up to the call of the concatenator: the
    segments and the slices handed to it, and the condition index. *)
Definition cut_and_concatenate_plan (self : ConditionalTrajectoryPropagator)
    (trajs : list (Trajectory Frame))
  : Result (list (Trajectory Frame) * list Slice * nat) :=
  '(first_condition_fullfilled, _, last_part_idx, _first_frame_in_cond) ←
    cut_locate self trajs;
  let slices : list Slice :=
    if 0 <? last_part_idx then replicate last_part_idx (0%Z, None, 1%Z)
    else [] in
  let slices := slices ++ [(0%Z, Some (_first_frame_in_cond + 1)%Z, 1%Z)] in
  Return (take (last_part_idx + 1) trajs, slices, first_condition_fullfilled).

(** [cut_and_concatenate]. *)
Definition cut_and_concatenate (self : ConditionalTrajectoryPropagator)
    (trajs : list (Trajectory Frame)) : Result (Trajectory Frame * nat) :=
  '(trajs', slices, first_condition_fullfilled) ← cut_and_concatenate_plan self trajs;
  full_traj ← concatenate trajs' slices;
  Return (full_traj, first_condition_fullfilled).

(** [propagate_and_concatenate]: [propagate], then [cut_and_concatenate] on
    the segments it returns; the condition index of [propagate] is
    overwritten by the one [cut_and_concatenate] computes. An exception of
    [propagate] is passed on. *)
Definition propagate_and_concatenate (fuel : nat)
    (self : ConditionalTrajectoryPropagator)
    (starting_configuration : Trajectory Frame) (workdir deffnm : string)
    (continuation : bool)
  : option (Result (Trajectory Frame * nat) * list EngineCall) :=
  match propagate fuel self starting_configuration workdir deffnm continuation with
  | None => None
  | Some (Raise e, calls) => Some (Raise e, calls)
  | Some (Return (trajs, first_condition_fullfilled), calls) =>
      Some ('(full_traj, first_condition_fullfilled) ← cut_and_concatenate self trajs;
            Return (full_traj, first_condition_fullfilled),
            calls)
  end.
End Propagator.

(** ** construct_TP_from_plus_and_minus_traj_segments *)

Section ConstructTP.
Context {Frame : Type}.

(** One direction of the construction up to the slices: the values of the
    state function on the segments, the first frame in the state, the
    part holding it and the frame counted from the start of that part. *)
Definition locate_state (trajs : list (Trajectory Frame)) (state : nat)
    (state_funcs : list (Condition Frame)) : Result (nat * Z) :=
  state_vals ← mapM (λ t, f ← getitem state_funcs state; Return (call f t)) trajs;
  let part_lens := map length state_vals in
  state_vals ← Np.concatenate0 state_vals;
  let frames_in_state := Np.where1 state_vals in
  first_frame_in_state ← Np.min frames_in_state;
  last_part_idx ← find_last_part part_lens first_frame_in_state;
  Return (last_part_idx, frame_in_part part_lens first_frame_in_state last_part_idx).

(** [construct_TP_from_plus_and_minus_traj_segments] up to the call of
    the concatenator: the segments and the slices handed to it. *)
Definition construct_TP_plan
    (minus_trajs : list (Trajectory Frame)) (minus_state : nat)
    (plus_trajs : list (Trajectory Frame)) (plus_state : nat)
    (state_funcs : list (Condition Frame))
  : Result (list (Trajectory Frame) * list Slice) :=
  '(last_part_idx, _first_frame_in_minus) ← locate_state minus_trajs minus_state state_funcs;
  let slices : list Slice := [(_first_frame_in_minus, None, (-1)%Z)] in
  last ← getitem minus_trajs last_part_idx;
  let trajs := [last] in
  let slices := slices ++ replicate last_part_idx ((-1)%Z, None, (-1)%Z) in
  full ← mapM (getitem minus_trajs) (reverse (seq 0 last_part_idx));
  let trajs := trajs ++ full in
  '(last_part_idx, _first_frame_in_plus) ← locate_state plus_trajs plus_state state_funcs;
  if 0 <? last_part_idx then
    let slices := slices ++ [(1%Z, None, 1%Z)] in
    first ← getitem plus_trajs 0;
    let trajs := trajs ++ [first] in
    let slices := slices ++ replicate (last_part_idx - 1) (0%Z, None, 1%Z) in
    full ← mapM (getitem plus_trajs) (seq 1 (last_part_idx - 1));
    let trajs := trajs ++ full in
    let slices := slices ++ [(0%Z, Some (_first_frame_in_plus + 1)%Z, 1%Z)] in
    last ← getitem plus_trajs last_part_idx;
    let trajs := trajs ++ [last] in
    Return (trajs, slices)
  else
    let slices := slices ++ [(1%Z, Some (_first_frame_in_plus + 1)%Z, 1%Z)] in
    last ← getitem plus_trajs last_part_idx;
    let trajs := trajs ++ [last] in
    Return (trajs, slices).

(** [construct_TP_from_plus_and_minus_traj_segments]. *)
Definition construct_TP_from_plus_and_minus_traj_segments
    (minus_trajs : list (Trajectory Frame)) (minus_state : nat)
    (plus_trajs : list (Trajectory Frame)) (plus_state : nat)
    (state_funcs : list (Condition Frame)) : Result (Trajectory Frame) :=
  '(trajs, slices) ← construct_TP_plan minus_trajs minus_state plus_trajs plus_state state_funcs;
  concatenate trajs slices.
End ConstructTP.

(** ** The transition of the spec's two-direction example *)

Module TwoWayExample.
(** Frames are numbered; the minus chain has parts of 5 and 3 frames and
    is in its state from frame 2 on, the plus chain has one part of 4
    frames and is in its state from frame 1 on. *)
Definition minus_trajs : list (Trajectory nat) := [[0; 1; 2; 3; 4]; [5; 6; 7]].
Definition plus_trajs : list (Trajectory nat) := [[0; 101; 102; 103]].
Definition state_A : Condition nat :=
  {| is_coroutine := true; call := map (λ f, (2 <=? f) && (f <? 100)) |}.
Definition state_B : Condition nat :=
  {| is_coroutine := true; call := map (λ f, 101 <=? f) |}.

End TwoWayExample.

(** ** Vocabulary of the statements *)

(** Entry (condition [c], frame [g]) of a matrix of condition values is
    true. *)
Definition true_at (m : Np.Matrix) (c g : nat) : Prop :=
  ∃ row, m !! c = Some row ∧ row !! g = Some true.

(** [(c, g)] is the first fulfilment in [m]: [g] is the smallest frame at
    which any condition is true, [c] the lowest condition true at [g]. *)
Definition first_true_at (m : Np.Matrix) (c g : nat) : Prop :=
  true_at m c g
  ∧ (∀ c' g', true_at m c' g' → g ≤ g')
  ∧ (∀ c', true_at m c' g → c ≤ c').

(** Frame [g] is the first frame of a row of state values that is in the
    state. *)
Definition first_in_state (row : list bool) (g : nat) : Prop :=
  row !! g = Some true ∧ ∀ g', row !! g' = Some true → g ≤ g'.

(** The reads of the two-way construction, as the rule table of the spec
    gives them: the minus segment holding the first frame in state from that
    frame back to frame 0, then the [j] earlier minus segments fully
    reversed; the plus chain from frame 1 of its segment 0 through frame
    [p] of its segment [k]. *)
Definition minus_slices (j : nat) (m : Z) : list Slice :=
  (m, None, (-1)%Z) :: replicate j ((-1)%Z, None, (-1)%Z).

Definition plus_slices (k : nat) (p : Z) : list Slice :=
  match k with
  | O => [(1%Z, Some (p + 1)%Z, 1%Z)]
  | S k' =>
      (1%Z, None, 1%Z) :: replicate k' (0%Z, None, 1%Z)
      ++ [(0%Z, Some (p + 1)%Z, 1%Z)]
  end.

(** The number of calls of [run_walltime] in an account of calls. *)
Fixpoint segments_requested (calls : list EngineCall) : nat :=
  match calls with
  | [] => 0
  | CallRunWalltime :: calls' => S (segments_requested calls')
  | _ :: calls' => segments_requested calls'
  end.

(** ** A small engine and propagators on which the statements are run *)

Module Demo.
(** Frames are numbers. The engine state counts the segments produced; the
    segment after [e] holds the frames [3 e + 1 .. 3 e + 3] and every
    segment costs 100 steps. Two segments of the run are already on disk,
    so re-attaching resumes after them. *)
#[global] Instance engine : MDEngine nat unit unit nat := {|
  default_output_traj_type := "xtc";
  engine_cls := λ _, 0;
  prepare := λ _ _ _ e, e;
  prepare_from_files := λ _ _ _, 2;
  run_walltime := λ _ e, ([3 * e + 1; 3 * e + 2; 3 * e + 3], S e);
  steps_done := λ e, (100 * Z.of_nat e)%Z;
|}.

Definition get_all_traj_parts (workdir deffnm : string) (e : nat)
  : list (Trajectory nat) :=
  [[1; 2; 3]; [4; 5; 6]].

Definition nstout_from_mdconfig (mdconfig : unit) (traj_type : string) : Z := 10%Z.

(** Coroutines complete in reverse order. *)
Definition completion (traj : Trajectory nat) : list nat := [2; 1; 0].

Definition kwargs : EngineKwargs unit :=
  {| kw_output_traj_type := None; kw_mdconfig := Some tt |}.

(** An asynchronous condition true from frame [n] on, and a synchronous
    one true at frame [n] only. *)
Definition reached (n : nat) : Condition nat :=
  {| is_coroutine := true; call := map (λ f, n <=? f) |}.

Definition exactly (n : nat) : Condition nat :=
  {| is_coroutine := false; call := map (λ f, f =? n) |}.

Definition propagator (conditions : list (Condition nat)) (max_steps : Budget)
  : @ConditionalTrajectoryPropagator nat unit unit :=
  {| conditions := conditions;
     engine_kwargs := kwargs;
     walltime_per_part := tt;
     max_steps := max_steps |}.

Definition starting_configuration : Trajectory nat := [0].

(** The segments on disk. *)
Definition parts : list (Trajectory nat) := [[1; 2; 3]; [4; 5; 6]].

(** Condition 1 is reached on the second segment; no condition is reached
    within the budget; condition 1 holds on the starting configuration;
    condition 1 is reached on the third segment. *)
Definition committing := propagator [exactly 20; reached 5] (Steps 150).
Definition wandering := propagator [exactly 20; reached 50] (Steps 150).
Definition committed := propagator [exactly 20; reached 0] (Steps 150).
Definition resuming := propagator [exactly 8; reached 7] (Steps 350).
End Demo.

(** Membership in a list given by its elements, for the hypotheses of the
    instances below. *)
Ltac list_cases H :=
  repeat (apply elem_of_cons in H as [->|H]); [..|by apply elem_of_nil in H].

Ltac demo_consistent :=
  let c := fresh "c" in let t := fresh "t" in
  let Hc := fresh "Hc" in let Ht := fresh "Ht" in
  intros c t Hc Ht; list_cases Hc; list_cases Ht; reflexivity.

Ltac demo_quiet := split; [demo_consistent | reflexivity].

(** * Properties *)

(** ** The [Result] monad *)

Lemma bind_Return {A B} (f : A → Result B) a : (Return a ≫= f) = f a.
Proof. reflexivity. Qed.

Lemma bind_Raise {A B} (f : A → Result B) e : (Raise e ≫= f) = Raise e.
Proof. reflexivity. Qed.

Lemma bind_inv {A B} (f : A → Result B) m b :
  m ≫= f = Return b → ∃ a, m = Return a ∧ f a = Return b.
Proof. destruct m as [a|e]; [eauto | discriminate]. Qed.

(** ** The primitives on small inputs *)

Example where2_row_major :
  Np.where2 [[false; true; true]; [true; false; true]] = ([0; 0; 1; 1], [1; 2; 0; 2]).
Proof. reflexivity. Qed.

Example argmin_first_occurrence : Np.argmin [3; 1; 2; 1] = Return 1.
Proof. reflexivity. Qed.

Example getslice_reversed_from : PySlice.getslice [10; 11; 12; 13] (2%Z, None, (-1)%Z) = Return [12; 11; 10].
Proof. reflexivity. Qed.

Example getslice_reversed_full : PySlice.getslice [10; 11; 12; 13] ((-1)%Z, None, (-1)%Z) = Return [13; 12; 11; 10].
Proof. reflexivity. Qed.

Example getslice_skip_first : PySlice.getslice [10; 11; 12; 13] (1%Z, Some 3%Z, 1%Z) = Return [11; 12].
Proof. reflexivity. Qed.

Example getslice_empty : PySlice.getslice (@nil nat) ((-1)%Z, None, (-1)%Z) = Return [].
Proof. reflexivity. Qed.

Example gather_keeps_input_order :
  Asyncio.gather [2; 0; 7; 2] [10; 11; 12; 13] = ([10; 11; 12; 13], [0; 2; 1; 3]).
Proof. vm_compute. reflexivity. Qed.

Example find_last_part_second : find_last_part [5; 3; 4] 6 = Return 1.
Proof. reflexivity. Qed.

Example find_last_part_skips_empty : find_last_part [2; 0; 0; 3] 2 = Return 3.
Proof. reflexivity. Qed.

Example find_last_part_past_end : find_last_part [2; 3] 5 = Raise IndexError.
Proof. reflexivity. Qed.

Example two_way_plan :
  construct_TP_plan TwoWayExample.minus_trajs 0 TwoWayExample.plus_trajs 1 [TwoWayExample.state_A; TwoWayExample.state_B]
  = Return ([[0; 1; 2; 3; 4]; [0; 101; 102; 103]],
            [(2%Z, None, (-1)%Z); (1%Z, Some 2%Z, 1%Z)]).
Proof. reflexivity. Qed.

Example two_way_transition :
  construct_TP_from_plus_and_minus_traj_segments TwoWayExample.minus_trajs 0 TwoWayExample.plus_trajs 1
    [TwoWayExample.state_A; TwoWayExample.state_B]
  = Return [2; 1; 0; 101].
Proof. reflexivity. Qed.


(** ** [asyncio.gather] returns the values in the order of the awaitables *)

Section GatherFacts.
Context {A : Type}.
Implicit Types (aws : list A) (order hint : list nat).

Lemma store_length aws order res :
  length (foldl (Asyncio.store aws) res order) = length res.
Proof.
  revert res. induction order as [|k order IH]; intros res; simpl; [done|].
  rewrite IH. unfold Asyncio.store. destruct (aws !! k); [apply length_insert | done].
Qed.

Lemma store_lookup aws order res k :
  length res = length aws →
  foldl (Asyncio.store aws) res order !! k
  = if decide (k ∈ order ∧ k < length aws) then Some (aws !! k) else res !! k.
Proof.
  revert res. induction order as [|j order IH]; intros res Hlen; simpl.
  - done.
  - rewrite IH.
    2:{ unfold Asyncio.store. destruct (aws !! j); [by rewrite length_insert | done]. }
    case_decide as H1; case_decide as H2; try done.
    + exfalso. apply H2. destruct H1 as [H1 ?]. split; [by apply elem_of_cons; right | done].
    + destruct H2 as [H2 Hk]. apply elem_of_cons in H2 as [->|H2]; [|tauto].
      unfold Asyncio.store. destruct (aws !! j) as [a|] eqn:Ha.
      * rewrite list_lookup_insert_eq; [done | lia].
      * apply lookup_ge_None in Ha. lia.
    + unfold Asyncio.store. destruct (aws !! j) as [a|] eqn:Ha; [|done].
      destruct (decide (j = k)) as [->|Hne].
      * exfalso. apply H2. split; [by apply elem_of_cons; left|].
        by eapply lookup_lt_Some.
      * by rewrite list_lookup_insert_ne.
Qed.

Lemma completion_order_covers n hint k :
  k < n → k ∈ Asyncio.completion_order n hint.
Proof.
  intros Hk. unfold Asyncio.completion_order.
  set (early := remove_dups _). apply elem_of_app.
  destruct (decide (k ∈ early)); [by left | right].
  apply list_elem_of_filter. split; [done|]. apply elem_of_seq. lia.
Qed.

Lemma completion_order_bound n hint k :
  k ∈ Asyncio.completion_order n hint → k < n.
Proof.
  unfold Asyncio.completion_order. intros [H|H]%elem_of_app.
  - apply elem_of_remove_dups, list_elem_of_filter in H. tauto.
  - apply list_elem_of_filter in H as [_ H]. apply elem_of_seq in H. lia.
Qed.

Lemma completion_order_NoDup n hint : NoDup (Asyncio.completion_order n hint).
Proof.
  unfold Asyncio.completion_order. apply NoDup_app. split_and!.
  - apply NoDup_remove_dups.
  - intros k Hk [Hk' _]%list_elem_of_filter. done.
  - apply NoDup_filter, NoDup_seq.
Qed.

Lemma completion_order_perm n hint : Asyncio.completion_order n hint ≡ₚ seq 0 n.
Proof.
  apply NoDup_Permutation; [apply completion_order_NoDup | apply NoDup_seq |].
  intros k. rewrite elem_of_seq. split.
  - intros ?%completion_order_bound. lia.
  - intros [_ ?]. by apply completion_order_covers.
Qed.

Lemma omap_id_Some (l : list A) : omap id (Some <$> l) = l.
Proof. induction l as [|x l IH]; csimpl; [done | by rewrite IH]. Qed.

Lemma gather_results hint aws : (Asyncio.gather hint aws).1 = aws.
Proof.
  unfold Asyncio.gather. cbn [fst].
  transitivity (omap id (Some <$> aws)); [|apply omap_id_Some]. f_equal.
  apply list_eq. intros k.
  rewrite store_lookup by apply length_replicate.
  rewrite list_lookup_fmap. case_decide as H.
  - destruct H as [_ H]. apply lookup_lt_is_Some in H as [a ->]. done.
  - assert (length aws ≤ k) as Hk.
    { destruct (decide (k < length aws)) as [Hlt|]; [|lia].
      exfalso. apply H. split; [by apply completion_order_covers | done]. }
    rewrite (proj2 (lookup_ge_None _ _) Hk).
    by apply lookup_replicate_None.
Qed.

Lemma gather_order hint aws :
  (Asyncio.gather hint aws).2 ≡ₚ seq 0 (length aws).
Proof. apply completion_order_perm. Qed.
End GatherFacts.

(** ** The condition evaluator *)

Section EvaluatorFacts.
Context {Frame : Type}.
Implicit Types (conds : list (Condition Frame)) (traj : Trajectory Frame).

Lemma piece_together_spec traj (zipped : list (nat * (Condition Frame * bool))) :
  piece_together traj zipped
    (map (λ icf, call icf.2.1 traj) (filter (λ icf, icf.2.2 = true) zipped))
  = Return (map (λ icf, call icf.2.1 traj) zipped,
            map (λ icf, SyncCall icf.1) (filter (λ icf, icf.2.2 = false) zipped)).
Proof.
  induction zipped as [|[i [c [|]]] zipped IH]; [done| |].
  - rewrite filter_cons_True by done. rewrite filter_cons_False by done.
    cbn [piece_together map]. by rewrite IH.
  - rewrite filter_cons_False by done. rewrite filter_cons_True by done.
    cbn [piece_together map]. by rewrite IH.
Qed.

Lemma zipped_values traj conds j :
  map (λ icf : nat * (Condition Frame * bool), call icf.2.1 traj)
    (zip (seq j (length conds)) (zip conds (map is_coroutine conds)))
  = values_on conds traj.
Proof.
  revert j. induction conds as [|c conds IH]; intros j; [done|].
  cbn. f_equal. apply IH.
Qed.

Lemma zipped_sync conds j :
  map fst (filter (λ icf : nat * (Condition Frame * bool), icf.2.2 = false)
             (zip (seq j (length conds)) (zip conds (map is_coroutine conds))))
  = Np.where_from j (map (λ c, negb (is_coroutine c)) conds).
Proof.
  revert j. induction conds as [|c conds IH]; intros j; [done|].
  cbn [length seq map zip zip_with Np.where_from].
  destruct (is_coroutine c) eqn:Hc.
  - rewrite filter_cons_False by (simpl; congruence). apply IH.
  - rewrite filter_cons_True by done. cbn. f_equal. apply IH.
Qed.

Lemma zipped_coro conds j :
  map fst (filter (λ icf : nat * (Condition Frame * bool), icf.2.2 = true)
             (zip (seq j (length conds)) (zip conds (map is_coroutine conds))))
  = Np.where_from j (map is_coroutine conds).
Proof.
  revert j. induction conds as [|c conds IH]; intros j; [done|].
  cbn [length seq map zip zip_with Np.where_from].
  destruct (is_coroutine c) eqn:Hc.
  - rewrite filter_cons_True by done. cbn. f_equal. apply IH.
  - rewrite filter_cons_False by (simpl; congruence). apply IH.
Qed.

Lemma where_from_all j (row : list bool) :
  forallb id row = true → Np.where_from j row = seq j (length row).
Proof.
  revert j. induction row as [|[|] row IH]; intros j H; [done| |done].
  cbn. f_equal. by apply IH.
Qed.

Lemma where_from_none j (row : list bool) :
  existsb id row = false → Np.where_from j row = [].
Proof.
  revert j. induction row as [|[|] row IH]; intros j H; [done|done|].
  cbn. by apply IH.
Qed.

Lemma sync_calls_app (evs1 evs2 : list EvalEvent) :
  sync_calls (evs1 ++ evs2) = sync_calls evs1 ++ sync_calls evs2.
Proof. apply omap_app. Qed.

Lemma coro_completions_app (evs1 evs2 : list EvalEvent) :
  coro_completions (evs1 ++ evs2) = coro_completions evs1 ++ coro_completions evs2.
Proof. apply omap_app. Qed.

Lemma sync_calls_SyncCall (l : list nat) : sync_calls (map SyncCall l) = l.
Proof. induction l as [|x l IH]; csimpl; [done | by rewrite IH]. Qed.

Lemma sync_calls_CoroDone (l : list nat) : sync_calls (map CoroDone l) = [].
Proof. induction l as [|x l IH]; csimpl; [done | by rewrite IH]. Qed.

Lemma coro_completions_SyncCall (l : list nat) : coro_completions (map SyncCall l) = [].
Proof. induction l as [|x l IH]; csimpl; [done | by rewrite IH]. Qed.

Lemma coro_completions_CoroDone (l : list nat) : coro_completions (map CoroDone l) = l.
Proof. induction l as [|x l IH]; csimpl; [done | by rewrite IH]. Qed.

Lemma forallb_existsb_negb (row : list bool) :
  forallb id row = true → existsb id (map negb row) = false.
Proof. induction row as [|[|] row IH]; simpl; auto; discriminate. Qed.

Lemma existsb_forallb_negb (row : list bool) :
  existsb id row = false → forallb id (map negb row) = true.
Proof. induction row as [|[|] row IH]; simpl; auto; discriminate. Qed.

Lemma omap_lookup_seq {A B} (f : A → B) (l : list A) :
  omap (λ k, f <$> l !! k) (seq 0 (length l)) = map f l.
Proof.
  induction l as [|x l IH] using rev_ind; [done|].
  rewrite length_app, Nat.add_1_r, seq_S, omap_app, map_app. cbn [Nat.add].
  f_equal.
  - rewrite <- IH. apply list_omap_ext. apply Forall_Forall2_diag, Forall_forall.
    intros k Hk%elem_of_seq. rewrite lookup_app_l by lia. done.
  - csimpl. rewrite list_lookup_middle by done. done.
Qed.

Lemma evaluator_spec conds hint traj :
  ∃ evs,
    condition_vals_with_events conds (map is_coroutine conds) hint traj
    = Return (values_on conds traj, evs)
    ∧ sync_calls evs = sync_positions conds
    ∧ coro_completions evs ≡ₚ coro_positions conds.
Proof.
  unfold condition_vals_with_events, sync_positions, coro_positions, Np.where1.
  destruct (forallb id (map is_coroutine conds)) eqn:Hall.
  { destruct (Asyncio.gather hint _) as [res order] eqn:Hg.
    pose proof (gather_results hint (map (λ c, call c traj) conds)) as Hres.
    pose proof (gather_order hint (map (λ c, call c traj) conds)) as Hord.
    rewrite Hg in Hres, Hord. simpl in Hres, Hord. subst res.
    eexists. split_and!; [done | |].
    - rewrite sync_calls_CoroDone. symmetry. apply where_from_none.
      rewrite <- (forallb_existsb_negb _ Hall), map_map. done.
    - rewrite coro_completions_CoroDone, where_from_all by done.
      by rewrite !length_map in *. }
  destruct (existsb id (map is_coroutine conds)) eqn:Hany; cbn [negb].
  2:{ eexists. split_and!; [done | |].
      - rewrite sync_calls_SyncCall. symmetry.
        rewrite where_from_all.
        + by rewrite length_map.
        + rewrite <- (existsb_forallb_negb _ Hany), map_map. done.
      - rewrite coro_completions_SyncCall. by rewrite where_from_none. }
  set (zipped := zip (seq 0 (length conds)) (zip conds (map is_coroutine conds))).
  set (coros := filter _ zipped).
  destruct (Asyncio.gather hint _) as [res order] eqn:Hg.
  pose proof (gather_results hint (map (λ icf, call icf.2.1 traj) coros)) as Hres.
  pose proof (gather_order hint (map (λ icf, call icf.2.1 traj) coros)) as Hord.
  rewrite Hg in Hres, Hord. simpl in Hres, Hord. subst res.
  subst coros. rewrite piece_together_spec. cbn.
  eexists. split_and!.
  - f_equal. f_equal. apply zipped_values.
  - rewrite sync_calls_app.
    replace (sync_calls (omap _ order)) with (@nil nat).
    + rewrite <- map_map, sync_calls_SyncCall. apply zipped_sync.
    + clear. induction order as [|k order IH]; [done|]. csimpl.
      destruct (_ !! k); csimpl; done.
  - rewrite coro_completions_app.
    rewrite <- map_map, coro_completions_SyncCall, app_nil_r.
    rewrite <- zipped_coro. fold zipped.
    rewrite <- (omap_lookup_seq fst (filter _ zipped)).
    rewrite length_map in Hord. rewrite <- Hord.
    clear. induction order as [|k order IH]; [done|]. csimpl.
    destruct (_ !! k); csimpl; [|done]. by f_equiv.
Qed.
End EvaluatorFacts.

(** ** numpy: [where], [argmin], [any] *)

Section NpFacts.
Implicit Types (row : list bool) (m : Np.Matrix).

Lemma elem_of_where_from j row k :
  k ∈ Np.where_from j row ↔ ∃ i, k = j + i ∧ row !! i = Some true.
Proof.
  revert j. induction row as [|b row IH]; intros j; cbn [Np.where_from].
  - split; [by intros ?%elem_of_nil | by intros (i & _ & ?)].
  - rewrite elem_of_app, IH. split.
    + intros [H|(i & -> & Hi)].
      * destruct b; [|by apply elem_of_nil in H].
        apply list_elem_of_singleton in H as ->. exists 0. split; [lia | done].
      * exists (S i). split; [lia | done].
    + intros ([|i] & -> & Hi).
      * left. injection Hi as ->. rewrite Nat.add_0_r. apply list_elem_of_singleton. done.
      * right. exists i. split; [lia | done].
Qed.

Lemma where_from_lower j row k : k ∈ Np.where_from j row → j ≤ k.
Proof. intros (i & -> & _)%elem_of_where_from. lia. Qed.

Lemma elem_of_nonzero_from i m c g :
  (c, g) ∈ Np.nonzero_from i m ↔ ∃ r, c = i + r ∧ true_at m r g.
Proof.
  revert i. induction m as [|row m IH]; intros i; cbn [Np.nonzero_from].
  - split; [by intros ?%elem_of_nil | by intros (r & _ & row & ? & _)].
  - rewrite elem_of_app, IH. split.
    + intros [H|(r & -> & Hr)].
      * apply list_elem_of_fmap in H as (k & [= -> ->] & Hk).
        apply elem_of_where_from in Hk as (g & -> & Hg).
        exists 0. split; [lia|]. exists row. done.
      * exists (S r). split; [lia | done].
    + intros ([|r] & -> & row' & Hrow & Hg).
      * left. injection Hrow as ->. rewrite Nat.add_0_r.
        apply list_elem_of_fmap. exists g. split; [done|].
        apply elem_of_where_from. exists g. done.
      * right. exists r. split; [lia|]. exists row'. done.
Qed.

Lemma elem_of_nonzero m c g : (c, g) ∈ Np.nonzero_from 0 m ↔ true_at m c g.
Proof.
  rewrite elem_of_nonzero_from. split; [by intros (r & -> & ?) | eauto].
Qed.

(** Row-major order: the row indices never decrease along the list. *)
Lemma nonzero_from_rows_sorted i m a b ca ga cb gb :
  a ≤ b →
  Np.nonzero_from i m !! a = Some (ca, ga) →
  Np.nonzero_from i m !! b = Some (cb, gb) →
  ca ≤ cb.
Proof.
  revert i a b. induction m as [|row m IH]; intros i a b Hab Ha Hb;
    cbn [Np.nonzero_from] in *; [done|].
  apply lookup_app_Some in Ha as [Ha|[Hla Ha]];
    apply lookup_app_Some in Hb as [Hb|[Hlb Hb]].
  - apply list_lookup_fmap_Some in Ha as (? & [= -> ->] & _).
    apply list_lookup_fmap_Some in Hb as (? & [= -> ->] & _). done.
  - apply list_lookup_fmap_Some in Ha as (? & [= -> ->] & _).
    apply list_elem_of_lookup_2, elem_of_nonzero_from in Hb as (r & -> & _). lia.
  - apply lookup_lt_Some in Hb. lia.
  - eapply (IH (S i)); [|done..]. lia.
Qed.

Lemma argmin_from_spec best_i best i l :
  (Np.argmin_from best_i best i l = best_i ∧ Forall (λ x, best ≤ x) l)
  ∨ (∃ k v, Np.argmin_from best_i best i l = i + k ∧ l !! k = Some v ∧ v < best
      ∧ Forall (λ x, v ≤ x) l
      ∧ ∀ k' x, k' < k → l !! k' = Some x → v < x).
Proof.
  revert best_i best i. induction l as [|x l IH]; intros best_i best i;
    cbn [Np.argmin_from].
  - left. done.
  - destruct (Nat.ltb_spec x best) as [Hlt|Hge].
    + right. destruct (IH i x (S i)) as [[-> Hall]|(k & v & -> & Hk & Hv & Hall & Hfirst)].
      all: cbn [lookup list_lookup].
      * exists 0, x. split_and!; [lia | done | done | by constructor |].
        intros; lia.
      * exists (S k), v. split_and!; [lia | done | lia | |].
        -- constructor; [lia | done].
        -- intros [|k'] y Hk' Hy; [injection Hy as <-; lia|].
           apply (Hfirst k'); [lia | done].
    + destruct (IH best_i best (S i)) as [[-> Hall]|(k & v & -> & Hk & Hv & Hall & Hfirst)].
      * left. split; [done|]. by constructor.
      * right. exists (S k), v. split_and!; [lia | done | done | |].
        -- constructor; [lia | done].
        -- intros [|k'] y Hk' Hy; [injection Hy as <-; lia|].
           apply (Hfirst k'); [lia | done].
Qed.

(** [np.argmin] gives the first position of the least element. *)
Lemma argmin_Return l :
  l ≠ [] →
  ∃ i v, Np.argmin l = Return i ∧ l !! i = Some v
         ∧ (∀ x, x ∈ l → v ≤ x)
         ∧ (∀ k x, k < i → l !! k = Some x → v < x).
Proof.
  destruct l as [|x l]; [done|]. intros _. cbn [Np.argmin].
  destruct (argmin_from_spec 0 x 1 l) as [[-> Hall]|(k & v & -> & Hk & Hv & Hall & Hfirst)].
  - exists 0, x. split_and!; [done..| |intros; lia].
    intros y [->|Hy]%elem_of_cons; [done|].
    by apply (proj1 (Forall_forall _ _) Hall).
  - exists (S k), v. split_and!; [done | done | |].
    + intros y [->|Hy]%elem_of_cons; [lia|].
      by apply (proj1 (Forall_forall _ _) Hall).
    + intros [|k'] y Hk' Hy; [injection Hy as <-; lia|].
      apply (Hfirst k'); [lia | done].
Qed.

Lemma any_true_at m : Np.any m = true ↔ ∃ c g, true_at m c g.
Proof.
  unfold Np.any. rewrite existsb_exists. split.
  - intros (row & Hrow & Hex). apply existsb_exists in Hex as ([|] & Hb & Hid); [|done].
    apply list_elem_of_In, list_elem_of_lookup in Hrow as [c Hc].
    apply list_elem_of_In, list_elem_of_lookup in Hb as [g Hg].
    exists c, g, row. done.
  - intros (c & g & row & Hc & Hg). exists row. split.
    + apply list_elem_of_In. by eapply list_elem_of_lookup_2.
    + apply existsb_exists. exists true. split; [|done].
      apply list_elem_of_In. by eapply list_elem_of_lookup_2.
Qed.

Lemma any_false m c g : Np.any m = false → ¬ true_at m c g.
Proof.
  intros Hany Ht. assert (Np.any m = true) by (apply any_true_at; eauto).
  congruence.
Qed.
End NpFacts.

(** ** The locator: first fulfilment and the walk over the part lengths *)

Section LocatorFacts.
Implicit Types (m : Np.Matrix) (part_lens : list nat).

Lemma first_fullfilled_Return m :
  (∃ c g, true_at m c g) →
  ∃ c g, first_fullfilled m = Return (c, g) ∧ first_true_at m c g.
Proof.
  intros (c0 & g0 & H0). unfold first_fullfilled, Np.where2.
  set (nz := Np.nonzero_from 0 m).
  assert ((c0, g0) ∈ nz) as Hin by by apply elem_of_nonzero.
  destruct (argmin_Return (map snd nz)) as (i & g & -> & Hi & Hmin & Hfirst).
  { intros Hnil. apply fmap_nil_inv in Hnil. rewrite Hnil in Hin.
    by apply elem_of_nil in Hin. }
  apply list_lookup_fmap_Some in Hi as ([c g'] & Hg & Hi). simpl in Hg. subst g'.
  exists c, g. cbn. unfold getitem. rewrite !list_lookup_fmap, Hi. cbn.
  split; [done|]. split_and!.
  - apply elem_of_nonzero. by eapply list_elem_of_lookup_2.
  - intros c' g' Ht. apply Hmin.
    apply elem_of_nonzero in Ht. apply list_elem_of_fmap. by exists (c', g').
  - intros c' Ht. apply elem_of_nonzero, list_elem_of_lookup in Ht as [k Hk].
    destruct (decide (k < i)) as [Hlt|Hge].
    + specialize (Hfirst k g Hlt). unfold nz in Hfirst.
      rewrite list_lookup_fmap, Hk in Hfirst.
      specialize (Hfirst eq_refl). lia.
    + eapply (nonzero_from_rows_sorted 0 m i k); [lia | done..].
Qed.

Lemma first_fullfilled_Raise m :
  (∀ c g, ¬ true_at m c g) → first_fullfilled m = Raise ValueError.
Proof.
  intros Hnone. unfold first_fullfilled, Np.where2.
  destruct (Np.nonzero_from 0 m) as [|[c g] nz] eqn:Hnz; [done|].
  exfalso. apply (Hnone c g), elem_of_nonzero. rewrite Hnz. by left.
Qed.

Lemma first_true_at_unique m c g c' g' :
  first_true_at m c g → first_true_at m c' g' → c = c' ∧ g = g'.
Proof.
  intros (Ht & Hg & Hc) (Ht' & Hg' & Hc').
  assert (g = g') as <- by (apply Nat.le_antisymm; eauto).
  split; [|done]. apply Nat.le_antisymm; eauto.
Qed.

Lemma walk_parts_Return first_frame idx frame_sum rest :
  first_frame < frame_sum + sum_list rest →
  ∃ k, walk_parts first_frame idx frame_sum rest = Return (idx + k)
       ∧ k ≤ length rest
       ∧ first_frame < frame_sum + sum_list (take k rest)
       ∧ (∀ k', k' < k → frame_sum + sum_list (take k' rest) ≤ first_frame).
Proof.
  revert idx frame_sum. induction rest as [|len rest IH]; intros idx frame_sum Hlt;
    cbn [walk_parts].
  - cbn in Hlt. destruct (Nat.leb_spec frame_sum first_frame); [lia|].
    exists 0. rewrite Nat.add_0_r. split_and!; [done | done | cbn; lia | intros; lia].
  - destruct (Nat.leb_spec frame_sum first_frame) as [Hle|Hgt].
    + destruct (IH (S idx) (frame_sum + len)) as (k & -> & Hk & Hup & Hlow).
      { cbn in Hlt. lia. }
      exists (S k). split_and!; [f_equal; lia | cbn; lia | cbn; lia |].
      intros [|k'] Hk'; cbn; [lia|]. specialize (Hlow k'). lia.
    + exists 0. rewrite Nat.add_0_r. split_and!; [done | lia | cbn; lia | intros; lia].
Qed.

Lemma walk_parts_Raise first_frame idx frame_sum rest :
  frame_sum + sum_list rest ≤ first_frame →
  walk_parts first_frame idx frame_sum rest = Raise IndexError.
Proof.
  revert idx frame_sum. induction rest as [|len rest IH]; intros idx frame_sum Hle;
    cbn [walk_parts]; cbn in Hle.
  - destruct (Nat.leb_spec frame_sum first_frame); [done | lia].
  - destruct (Nat.leb_spec frame_sum first_frame); [|lia].
    apply IH. lia.
Qed.

(** The walk finds the part that holds the frame: the lengths before it
    sum to at most the frame, and with its own length to more. *)
Lemma find_last_part_Return part_lens first_frame :
  first_frame < sum_list part_lens →
  ∃ i, find_last_part part_lens first_frame = Return i
       ∧ i < length part_lens
       ∧ sum_list (take i part_lens) ≤ first_frame
       ∧ first_frame < sum_list (take (S i) part_lens).
Proof.
  destruct part_lens as [|len0 rest]; cbn [find_last_part sum_list sum_list_with].
  - intros. lia.
  - intros Hlt. destruct (walk_parts_Return first_frame 0 len0 rest Hlt)
      as (k & -> & Hk & Hup & Hlow).
    exists k. split_and!; [done | cbn; lia | | cbn; lia].
    destruct k as [|k]; cbn; [lia|]. specialize (Hlow k). lia.
Qed.

Lemma find_last_part_Raise part_lens first_frame :
  sum_list part_lens ≤ first_frame →
  find_last_part part_lens first_frame = Raise IndexError.
Proof.
  destruct part_lens as [|len0 rest]; [done|]. cbn. apply walk_parts_Raise.
Qed.
End LocatorFacts.

(** ** Running a list of computations in the [Result] monad *)

Lemma lookup_map {A B} (f : A → B) (l : list A) i : map f l !! i = f <$> l !! i.
Proof. exact (list_lookup_fmap f l i). Qed.

Lemma getitem_Some {A} (l : list A) i x : l !! i = Some x → getitem l i = Return x.
Proof. unfold getitem. by intros ->. Qed.

Lemma getitem_None {A} (l : list A) i : length l ≤ i → getitem l i = Raise IndexError.
Proof. intros H%lookup_ge_None. unfold getitem. by rewrite H. Qed.

Section MapMFacts.
Context {A B : Type}.

Lemma mapM_Return (f : A → Result B) (g : A → B) (l : list A) :
  (∀ x, x ∈ l → f x = Return (g x)) → mapM f l = Return (map g l).
Proof.
  induction l as [|x l IH]; intros Hf; [done|].
  cbn. rewrite (Hf x) by (by left). cbn.
  rewrite IH; [done|]. intros y Hy. apply Hf. by right.
Qed.

Lemma mapM_getitem (l : list B) (idxs : list nat) :
  (∀ i, i ∈ idxs → i < length l) →
  ∃ xs, mapM (getitem l) idxs = Return xs
        ∧ Forall2 (λ i x, l !! i = Some x) idxs xs.
Proof.
  induction idxs as [|i idxs IH]; intros Hin.
  - exists []. split; [done | constructor].
  - destruct IH as (xs & Hxs & Hall); [intros; apply Hin; by right|].
    destruct (lookup_lt_is_Some_2 l i) as [x Hx]; [apply Hin; by left|].
    exists (x :: xs). split; [|by constructor].
    change (mapM (getitem l) (i :: idxs))
      with (y ← getitem l i; k ← mapM (getitem l) idxs; mret (y :: k)).
    rewrite (getitem_Some _ _ _ Hx), Hxs. done.
Qed.
End MapMFacts.

(** ** The matrix over the concatenated frame axis *)

Section AxisFacts.
Context {Frame : Type}.
Implicit Types (conds : list (Condition Frame)) (trajs : list (Trajectory Frame)).

Lemma length_values_on conds (t : Trajectory Frame) :
  length (values_on conds t) = length conds.
Proof. apply length_map. Qed.

Lemma joined_row_values conds trajs i c :
  conds !! i = Some c →
  Np.joined_row (map (values_on conds) trajs) i = concat (map (call c) trajs).
Proof.
  intros Hc. unfold Np.joined_row. rewrite map_map. f_equal.
  apply map_ext. intros t. unfold values_on.
  rewrite lookup_map, Hc. done.
Qed.

Lemma concatenate1_values conds trajs :
  conds ≠ [] → trajs ≠ [] →
  Np.concatenate1 (map (values_on conds) trajs) = Return (values_along conds trajs).
Proof.
  intros Hconds Htrajs. destruct trajs as [|t trajs]; [done|].
  unfold Np.concatenate1. cbn [map].
  rewrite length_values_on.
  assert ((0 <? length conds) = true) as ->.
  { apply Nat.ltb_lt. destruct conds; [done | cbn; lia]. }
  assert (forallb (λ a' : Np.Matrix, length a' =? length conds)
            (map (values_on conds) trajs) = true) as ->.
  { apply forallb_forall. intros a (t' & <- & _)%in_map_iff.
    rewrite length_values_on. apply Nat.eqb_refl. }
  cbn [andb]. f_equal. unfold values_along.
  apply list_eq. intros i.
  rewrite !lookup_map.
  destruct (conds !! i) as [c|] eqn:Hc.
  - rewrite lookup_seq_lt by (by eapply lookup_lt_Some). cbn.
    f_equal. apply (joined_row_values conds (t :: trajs)). done.
  - rewrite lookup_seq_ge by (by apply lookup_ge_None). done.
Qed.

Lemma rectangular_values conds (t : Trajectory Frame) :
  (∀ c, c ∈ conds → length (call c t) = length t) →
  Np.asarray (values_on conds t) = Return (values_on conds t).
Proof.
  intros Hlen. unfold Np.asarray.
  assert (Np.rectangular (values_on conds t) = true) as ->; [|done].
  destruct conds as [|c conds]; [done|]. cbn.
  apply forallb_forall. intros r (c' & <- & Hc')%in_map_iff.
  apply Nat.eqb_eq. rewrite !Hlen; [done | by left | right].
  by apply list_elem_of_In.
Qed.

Lemma length_concat_calls (c : Condition Frame) trajs :
  (∀ t, t ∈ trajs → length (call c t) = length t) →
  length (concat (map (call c) trajs)) = sum_list (map length trajs).
Proof.
  induction trajs as [|t trajs IH]; intros Hlen; [done|].
  cbn. rewrite length_app, Hlen by (by left). f_equal.
  apply IH. intros; apply Hlen. by right.
Qed.

Lemma true_at_along_bound conds trajs c g :
  consistent conds trajs →
  true_at (values_along conds trajs) c g → g < sum_list (map length trajs).
Proof.
  intros Hcons (row & Hrow & Hg). unfold values_along in Hrow.
  apply list_lookup_fmap_Some in Hrow as (cond & -> & Hcond).
  apply lookup_lt_Some in Hg. rewrite length_concat_calls in Hg; [done|].
  intros t Ht. apply Hcons; [|done]. by eapply list_elem_of_lookup_2.
Qed.

Lemma sum_list_take_lookup (l : list nat) i x :
  l !! i = Some x → sum_list (take (S i) l) = sum_list (take i l) + x.
Proof.
  intros Hx. rewrite (take_S_r _ _ _ Hx), sum_list_with_app. cbn. lia.
Qed.
End AxisFacts.

(** ** The locator as run by [cut_and_concatenate] *)

Section CutFacts.
Context {Frame MDConfig Hours : Type}.
Variable completion : Trajectory Frame → list nat.
Implicit Types (self : @ConditionalTrajectoryPropagator Frame MDConfig Hours).
Implicit Types (trajs : list (Trajectory Frame)).

Lemma condition_vals_for_traj_values self (traj : Trajectory Frame) :
  _condition_vals_for_traj completion self traj
  = Return (values_on (conditions self) traj).
Proof.
  unfold _condition_vals_for_traj, _condition_func_is_coroutine.
  destruct (evaluator_spec (conditions self) (completion traj) traj)
    as (evs & -> & _). done.
Qed.

Lemma part_lens_values (conds : list (Condition Frame)) trajs :
  conds ≠ [] → consistent conds trajs →
  mapM (λ c : list (list bool), length <$> getitem c 0) (map (values_on conds) trajs)
  = Return (map length trajs).
Proof.
  intros Hconds Hcons. destruct conds as [|c0 conds]; [done|].
  rewrite (mapM_Return _ (λ c : list (list bool), length (default [] (c !! 0)))).
  - f_equal. rewrite map_map. apply map_ext_in. intros t Ht.
    cbn. apply Hcons; [by left | by apply list_elem_of_In].
  - intros c (t & -> & _)%list_elem_of_fmap. done.
Qed.

Lemma asarray_values (conds : list (Condition Frame)) trajs :
  consistent conds trajs →
  mapM Np.asarray (map (values_on conds) trajs) = Return (map (values_on conds) trajs).
Proof.
  intros Hcons. rewrite (mapM_Return _ id).
  - by rewrite map_id.
  - intros c (t & -> & Ht)%list_elem_of_fmap. apply rectangular_values.
    intros c' Hc'. by apply Hcons.
Qed.

(** What [cut_locate] computes when some condition is true somewhere. *)
Lemma cut_locate_Return self trajs :
  consistent (conditions self) trajs →
  (∃ c g, true_at (values_along (conditions self) trajs) c g) →
  ∃ c g seg,
    cut_locate completion self trajs
    = Return (c, g, seg, frame_in_part (map length trajs) g seg)
    ∧ first_true_at (values_along (conditions self) trajs) c g
    ∧ seg < length trajs
    ∧ sum_list (take seg (map length trajs)) ≤ g
    ∧ g < sum_list (take (S seg) (map length trajs)).
Proof.
  intros Hcons Hex.
  assert (conditions self ≠ []) as Hconds.
  { destruct Hex as (c & g & row & Hrow & _). intros Hnil.
    unfold values_along in Hrow. rewrite Hnil in Hrow. done. }
  assert (trajs ≠ []) as Htrajs.
  { destruct Hex as (c & g & Ht). intros ->.
    apply (true_at_along_bound _ _ _ _ Hcons) in Ht. cbn in Ht. lia. }
  destruct (first_fullfilled_Return _ Hex) as (c & g & Hfirst & Hspec).
  destruct (find_last_part_Return (map length trajs) g) as (seg & Hseg & Hlt & Hlow & Hup).
  { eapply true_at_along_bound; [done | apply Hspec]. }
  exists c, g, seg. split_and!; [|done| |done|done].
  - unfold cut_locate.
    rewrite (mapM_Return _ (values_on (conditions self)))
      by (intros; apply condition_vals_for_traj_values).
    cbn [mbind result_bind bind].
    rewrite part_lens_values by done. cbn [mbind result_bind bind].
    rewrite asarray_values by done. cbn [mbind result_bind bind].
    rewrite concatenate1_values by done. cbn [mbind result_bind bind].
    rewrite Hfirst. cbn [mbind result_bind bind].
    rewrite Hseg. done.
  - by rewrite length_map in Hlt.
Qed.

(** Without a true entry the minimum is taken over nothing. *)
Lemma cut_locate_Raise self trajs :
  conditions self ≠ [] →
  consistent (conditions self) trajs →
  (∀ c g, ¬ true_at (values_along (conditions self) trajs) c g) →
  cut_locate completion self trajs = Raise ValueError.
Proof.
  intros Hconds Hcons Hnone. unfold cut_locate.
  rewrite (mapM_Return _ (values_on (conditions self)))
    by (intros; apply condition_vals_for_traj_values).
  cbn [mbind result_bind bind].
  rewrite part_lens_values by done. cbn [mbind result_bind bind].
  rewrite asarray_values by done. cbn [mbind result_bind bind].
  destruct trajs as [|t trajs]; [done|].
  rewrite concatenate1_values by done. cbn [mbind result_bind bind].
  by rewrite first_fullfilled_Raise.
Qed.
End CutFacts.

(** ** Reading a Python slice *)

Section SliceFacts.
Context {A : Type}.
Implicit Types (t : list A).

Lemma reads_spec t (idxs : list Z) :
  (∀ i, i ∈ idxs → (0 ≤ i < Z.of_nat (length t))%Z) →
  ∃ xs, mapM (λ i : Z, getitem t (Z.to_nat i)) idxs = Return xs
        ∧ length xs = length idxs
        ∧ ∀ k i, idxs !! k = Some i → xs !! k = t !! Z.to_nat i.
Proof.
  induction idxs as [|i idxs IH]; intros Hin.
  - exists []. done.
  - destruct IH as (xs & Hxs & Hlen & Hlook); [intros; apply Hin; by right|].
    destruct (lookup_lt_is_Some_2 t (Z.to_nat i)) as [x Hx].
    { assert (i ∈ i :: idxs) as Hi by (by left). apply Hin in Hi. lia. }
    exists (x :: xs). split_and!.
    + change (mapM ?f (i :: idxs)) with (y ← f i; k ← mapM f idxs; mret (y :: k)).
      cbn beta. rewrite (getitem_Some _ _ _ Hx), Hxs. done.
    + cbn. by rewrite Hlen.
    + intros [|k] j Hj; [by injection Hj as <-|]. cbn. by apply Hlook.
Qed.

Lemma length_range start stop step :
  length (PySlice.range start stop step) = PySlice.range_len start stop step.
Proof. unfold PySlice.range. by rewrite length_map, length_seq. Qed.

Lemma lookup_range start stop step k :
  k < PySlice.range_len start stop step →
  PySlice.range start stop step !! k = Some (start + Z.of_nat k * step)%Z.
Proof.
  intros Hk. unfold PySlice.range. rewrite lookup_map, lookup_seq_lt by done. done.
Qed.

Lemma elem_of_range start stop step i :
  i ∈ PySlice.range start stop step →
  ∃ k, k < PySlice.range_len start stop step ∧ i = (start + Z.of_nat k * step)%Z.
Proof.
  unfold PySlice.range. intros (k & -> & Hk)%list_elem_of_fmap.
  apply elem_of_seq in Hk. exists k. split; [lia | done].
Qed.

(** A slice is settled by its bounds: when [indices] gives [(s, e, step)]
    and the [n] positions of the range lie in the sequence, the frames read
    are those at the positions [s + k * step]. *)
Lemma getslice_reads t (sl : Slice) s e step (ys : list A) :
  PySlice.indices sl (Z.of_nat (length t)) = Return (s, e, step) →
  length ys = PySlice.range_len s e step →
  (∀ k, k < PySlice.range_len s e step →
        (0 ≤ s + Z.of_nat k * step)%Z
        ∧ is_Some (t !! Z.to_nat (s + Z.of_nat k * step))
        ∧ ys !! k = t !! Z.to_nat (s + Z.of_nat k * step)) →
  PySlice.getslice t sl = Return ys.
Proof.
  intros Hind Hlen Hk. unfold PySlice.getslice. rewrite Hind. cbn [mbind result_bind bind].
  destruct (reads_spec t (PySlice.range s e step)) as (xs & -> & Hxlen & Hx).
  { intros i (k & Hlt & ->)%elem_of_range. destruct (Hk k Hlt) as (? & Hsome & _).
    apply lookup_lt_is_Some in Hsome. lia. }
  f_equal. apply list_eq. intros k.
  rewrite length_range in Hxlen.
  destruct (decide (k < PySlice.range_len s e step)) as [Hlt|Hge].
  - rewrite (Hx k _ (lookup_range _ _ _ _ Hlt)). symmetry. by apply Hk.
  - rewrite !(proj2 (lookup_ge_None _ _)) by lia. done.
Qed.

Lemma getslice_forward_to t (a b : Z) :
  (0 ≤ a)%Z → (0 ≤ b)%Z →
  PySlice.getslice t (a, Some b, 1%Z) = Return (drop (Z.to_nat a) (take (Z.to_nat b) t)).
Proof.
  intros Ha Hb.
  eapply (getslice_reads t _ (Z.min a (Z.of_nat (length t)))
            (Z.min b (Z.of_nat (length t))) 1%Z).
  - unfold PySlice.indices. cbn.
    destruct (Z.ltb_spec a 0), (Z.ltb_spec b 0); try lia. done.
  - unfold PySlice.range_len. cbn [Z.ltb Z.compare]. rewrite Z.div_1_r.
    rewrite length_drop, length_take. lia.
  - unfold PySlice.range_len. cbn [Z.ltb Z.compare]. rewrite Z.div_1_r.
    intros k Hk. split_and!; [lia | apply lookup_lt_is_Some; lia |].
    rewrite lookup_drop, lookup_take_lt by lia. f_equal. lia.
Qed.

Lemma getslice_forward_all t (a : Z) :
  (0 ≤ a)%Z →
  PySlice.getslice t (a, None, 1%Z) = Return (drop (Z.to_nat a) t).
Proof.
  intros Ha.
  eapply (getslice_reads t _ (Z.min a (Z.of_nat (length t))) (Z.of_nat (length t)) 1%Z).
  - unfold PySlice.indices. cbn. destruct (Z.ltb_spec a 0); [lia | done].
  - unfold PySlice.range_len. cbn [Z.ltb Z.compare]. rewrite Z.div_1_r.
    rewrite length_drop. lia.
  - unfold PySlice.range_len. cbn [Z.ltb Z.compare]. rewrite Z.div_1_r.
    intros k Hk. split_and!; [lia | apply lookup_lt_is_Some; lia |].
    rewrite lookup_drop. f_equal. lia.
Qed.

Lemma getslice_backward_from t (m : Z) :
  (0 ≤ m)%Z →
  PySlice.getslice t (m, None, (-1)%Z) = Return (reverse (take (S (Z.to_nat m)) t)).
Proof.
  intros Hm.
  eapply (getslice_reads t _ (Z.min m (Z.of_nat (length t) - 1)) (-1)%Z (-1)%Z).
  - unfold PySlice.indices. cbn. destruct (Z.ltb_spec m 0); [lia | done].
  - unfold PySlice.range_len. cbn [Z.ltb Z.compare Z.opp]. rewrite Z.div_1_r.
    rewrite length_reverse, length_take. lia.
  - unfold PySlice.range_len. cbn [Z.ltb Z.compare Z.opp]. rewrite Z.div_1_r.
    intros k Hk. split_and!; [lia | apply lookup_lt_is_Some; lia |].
    rewrite reverse_lookup by (rewrite length_take; lia).
    rewrite length_take, lookup_take_lt by lia. f_equal. lia.
Qed.

Lemma getslice_backward_all t :
  PySlice.getslice t ((-1)%Z, None, (-1)%Z) = Return (reverse t).
Proof.
  eapply (getslice_reads t _ (Z.of_nat (length t) - 1) (-1)%Z (-1)%Z).
  - unfold PySlice.indices. cbn. f_equal. f_equal. f_equal. lia.
  - unfold PySlice.range_len. cbn [Z.ltb Z.compare Z.opp]. rewrite Z.div_1_r.
    rewrite length_reverse. lia.
  - unfold PySlice.range_len. cbn [Z.ltb Z.compare Z.opp]. rewrite Z.div_1_r.
    intros k Hk. split_and!; [lia | apply lookup_lt_is_Some; lia |].
    rewrite reverse_lookup by lia. f_equal. lia.
Qed.
End SliceFacts.

(** ** The propagation loop *)

Section LoopFacts.
Context {Frame MDConfig Hours E : Type} `{!MDEngine Frame MDConfig Hours E}.
Variable get_all_traj_parts : string → string → E → list (Trajectory Frame).
Variable completion : Trajectory Frame → list nat.
Implicit Types (self : @ConditionalTrajectoryPropagator Frame MDConfig Hours).
Implicit Types (s : @LoopState Frame E) (t : Trajectory Frame).

Lemma condition_vals_asarray self t :
  consistent (conditions self) [t] →
  _condition_vals_for_traj completion self t ≫= Np.asarray
  = Return (values_on (conditions self) t).
Proof.
  intros Hcons. rewrite condition_vals_for_traj_values. cbn [mbind result_bind bind].
  apply rectangular_values. intros c Hc. apply Hcons; [done | by left].
Qed.

Lemma stepping_unfold fuel self s :
  stepping completion fuel self s
  = if negb (ls_any_cond_fullfilled s)
       && within_budget (ls_step_counter s) (max_steps self)
    then
      match fuel with
      | O => None
      | S fuel' =>
          let '(traj, engine) := run_walltime (walltime_per_part self) (ls_engine s) in
          let calls := ls_calls s ++ [CallRunWalltime] in
          match _condition_vals_for_traj completion self traj ≫= Np.asarray with
          | Raise e => Some (inr (e, calls))
          | Return cond_vals =>
              stepping completion fuel' self
                {| ls_engine := engine;
                   ls_any_cond_fullfilled := Np.any cond_vals;
                   ls_cond_vals := cond_vals;
                   ls_trajs := ls_trajs s ++ [traj];
                   ls_step_counter := steps_done engine;
                   ls_calls := calls |}
          end
      end
    else Some (inl s).
Proof. destruct fuel; reflexivity. Qed.

Lemma engine_after_shift self n (e : E) :
  engine_after self n (engine_after self 1 e) = engine_after self (S n) e.
Proof. induction n as [|n IH]; [done|]. cbn [engine_after] in *. by rewrite IH. Qed.

Lemma segment_shift self n (e : E) :
  segment self n (engine_after self 1 e) = segment self (S n) e.
Proof. unfold segment. by rewrite engine_after_shift. Qed.

Lemma advance_0 self s : advance self s 0 = s.
Proof.
  destruct s. unfold advance. cbn. by rewrite !app_nil_r.
Qed.

(** One turn of the loop on a segment: the state it leads to. *)
Lemma stepping_turn fuel self s :
  ls_any_cond_fullfilled s = false →
  within_budget (ls_step_counter s) (max_steps self) = true →
  consistent (conditions self) [segment self 0 (ls_engine s)] →
  stepping completion (S fuel) self s
  = stepping completion fuel self
      {| ls_engine := engine_after self 1 (ls_engine s);
         ls_any_cond_fullfilled :=
           Np.any (values_on (conditions self) (segment self 0 (ls_engine s)));
         ls_cond_vals := values_on (conditions self) (segment self 0 (ls_engine s));
         ls_trajs := ls_trajs s ++ [segment self 0 (ls_engine s)];
         ls_step_counter := steps_done (engine_after self 1 (ls_engine s));
         ls_calls := ls_calls s ++ [CallRunWalltime] |}.
Proof.
  intros Hany Hwithin Hcons. rewrite stepping_unfold, Hany, Hwithin. cbn [negb andb].
  unfold segment, engine_after in *.
  destruct (run_walltime (walltime_per_part self) (ls_engine s)) as [traj engine].
  cbn [fst snd] in *. rewrite condition_vals_asarray by done. done.
Qed.

(** [n] turns on segments without a true condition. *)
Lemma stepping_quiet self n : ∀ s fuel,
  ls_any_cond_fullfilled s = false →
  (∀ i, i < n → within_budget (counter_after self s i) (max_steps self) = true) →
  (∀ i, i < n → quiet (conditions self) (segment self i (ls_engine s))) →
  stepping completion (n + fuel) self s
  = stepping completion fuel self (advance self s n).
Proof.
  induction n as [|n IH]; intros s fuel Hany Hwithin Hquiet.
  - by rewrite advance_0.
  - cbn [Nat.add]. rewrite stepping_turn; [|done|apply (Hwithin 0); lia|apply (Hquiet 0); lia].
    rewrite IH.
    + f_equal. unfold advance. cbn [ls_engine ls_any_cond_fullfilled ls_cond_vals
        ls_trajs ls_step_counter ls_calls].
      rewrite engine_after_shift. f_equal.
      * rewrite Hany. apply (Hquiet 0). lia.
      * destruct n as [|n]; [done|]. by rewrite segment_shift.
      * rewrite <- app_assoc. f_equal. cbn [seq map]. f_equal.
        rewrite <- seq_shift, map_map. apply map_ext. intros i. apply segment_shift.
      * destruct n as [|n]; cbn [counter_after ls_step_counter ls_engine]; [done|].
        by rewrite engine_after_shift.
      * rewrite <- app_assoc. done.
    + cbn [ls_any_cond_fullfilled]. apply (Hquiet 0). lia.
    + intros i Hi. specialize (Hwithin (S i)). cbn [counter_after] in Hwithin.
      destruct i as [|i]; cbn [counter_after ls_step_counter ls_engine].
      * apply Hwithin. lia.
      * rewrite engine_after_shift. apply Hwithin. lia.
    + intros i Hi. cbn [ls_engine]. rewrite segment_shift. apply Hquiet. lia.
Qed.

Lemma run_loop_exceeds self s n fuel :
  ls_any_cond_fullfilled s = false →
  (∀ i, i < n → within_budget (counter_after self s i) (max_steps self) = true) →
  within_budget (counter_after self s n) (max_steps self) = false →
  (∀ i, i < n → quiet (conditions self) (segment self i (ls_engine s))) →
  run_loop completion (n + fuel) self s
  = Some (Raise (MaxStepsReachedError (counter_after self s n) (max_steps self)),
          ls_calls s ++ replicate n CallRunWalltime).
Proof.
  intros Hany Hwithin Hexceeds Hquiet. unfold run_loop.
  rewrite stepping_quiet by done. rewrite stepping_unfold.
  cbn [advance ls_any_cond_fullfilled ls_step_counter]. rewrite Hany, Hexceeds.
  cbn [negb andb]. unfold after_loop.
  cbn [advance ls_any_cond_fullfilled ls_step_counter ls_calls]. rewrite Hany. done.
Qed.

Lemma run_loop_fulfils self s n fuel :
  ls_any_cond_fullfilled s = false →
  (∀ i, i ≤ n → within_budget (counter_after self s i) (max_steps self) = true) →
  (∀ i, i < n → quiet (conditions self) (segment self i (ls_engine s))) →
  fulfilling (conditions self) (segment self n (ls_engine s)) →
  ∃ c g,
    run_loop completion (S n + fuel) self s
    = Some (Return (ls_trajs s ++ map (λ i, segment self i (ls_engine s)) (seq 0 (S n)), c),
            ls_calls s ++ replicate (S n) CallRunWalltime)
    ∧ first_true_at (values_on (conditions self) (segment self n (ls_engine s))) c g.
Proof.
  intros Hany Hwithin Hquiet [Hcons Htrue].
  destruct (first_fullfilled_Return
              (values_on (conditions self) (segment self n (ls_engine s))))
    as (c & g & Hfirst & Hspec); [by apply any_true_at|].
  exists c, g. split; [|done]. unfold run_loop.
  replace (S n + fuel) with (n + S fuel) by lia.
  rewrite stepping_quiet; [|done|intros; apply Hwithin; lia|done].
  rewrite stepping_turn; [| |apply Hwithin; lia|done].
  2:{ cbn [advance ls_any_cond_fullfilled]. done. }
  change (segment self 0 (ls_engine (advance self s n)))
    with (segment self n (ls_engine s)).
  rewrite stepping_unfold. cbn [ls_any_cond_fullfilled]. rewrite Htrue. cbn [negb andb].
  unfold after_loop. cbn [ls_any_cond_fullfilled ls_cond_vals ls_trajs ls_calls advance].
  cbn [negb]. rewrite Hfirst. cbn [mbind result_bind bind].
  rewrite seq_S, map_app, replicate_S_end, !app_assoc. done.
Qed.

Lemma continue_from_files_quiet self workdir deffnm (engine : E) :
  let trajs := get_all_traj_parts workdir deffnm engine in
  conditions self ≠ [] → trajs ≠ [] → consistent (conditions self) trajs →
  (∀ c g, ¬ true_at (values_along (conditions self) trajs) c g) →
  continue_from_files get_all_traj_parts completion self workdir deffnm engine
  = Return (inr {| ls_engine := prepare_from_files workdir deffnm engine;
                   ls_any_cond_fullfilled := false;
                   ls_cond_vals := values_along (conditions self) trajs;
                   ls_trajs := trajs;
                   ls_step_counter := steps_done (prepare_from_files workdir deffnm engine);
                   ls_calls := [CallEngineCls; CallGetAllTrajParts;
                                CallPrepareFromFiles] |}).
Proof.
  intros trajs Hconds Htrajs Hcons Hnone. unfold continue_from_files. fold trajs.
  rewrite (mapM_Return _ (values_on (conditions self)))
    by (intros; apply condition_vals_for_traj_values).
  cbn [mbind result_bind bind].
  rewrite asarray_values by done. cbn [mbind result_bind bind].
  rewrite concatenate1_values by done. cbn [mbind result_bind bind].
  destruct (Np.any (values_along (conditions self) trajs)) eqn:Hany; [|done].
  apply any_true_at in Hany as (c & g & Ht). by destruct (Hnone c g).
Qed.

Lemma continue_from_files_fulfilled self workdir deffnm (engine : E) :
  let trajs := get_all_traj_parts workdir deffnm engine in
  consistent (conditions self) trajs →
  (∃ c g, true_at (values_along (conditions self) trajs) c g) →
  ∃ c g,
    continue_from_files get_all_traj_parts completion self workdir deffnm engine
    = Return (inl (trajs, c))
    ∧ first_true_at (values_along (conditions self) trajs) c g.
Proof.
  intros trajs Hcons Hex.
  assert (conditions self ≠ []) as Hconds.
  { destruct Hex as (c & g & row & Hrow & _). intros Hnil.
    unfold values_along in Hrow. rewrite Hnil in Hrow. done. }
  assert (trajs ≠ []) as Htrajs.
  { destruct Hex as (c & g & Ht). intros Hnil. rewrite Hnil in Hcons, Ht.
    apply (true_at_along_bound _ _ _ _ Hcons) in Ht. cbn in Ht. lia. }
  destruct (first_fullfilled_Return _ Hex) as (c & g & Hfirst & Hspec).
  exists c, g. split; [|done].
  unfold continue_from_files. fold trajs.
  rewrite (mapM_Return _ (values_on (conditions self)))
    by (intros; apply condition_vals_for_traj_values).
  cbn [mbind result_bind bind].
  rewrite asarray_values by done. cbn [mbind result_bind bind].
  rewrite concatenate1_values by done. cbn [mbind result_bind bind].
  rewrite (proj2 (any_true_at _) Hex), Hfirst. done.
Qed.

Lemma loop_entry_any self t workdir deffnm continuation cond_vals s :
  loop_entry get_all_traj_parts completion self t workdir deffnm continuation cond_vals
  = Return (inr s) →
  ls_any_cond_fullfilled s = false.
Proof.
  unfold loop_entry. destruct continuation; cbn [negb].
  - unfold continue_from_files.
    intros (cv & _ & H)%bind_inv. apply bind_inv in H as (arrays & _ & H).
    apply bind_inv in H as (m & _ & H).
    destruct (Np.any m) eqn:Hany.
    + apply bind_inv in H as ([c g] & _ & H). done.
    + injection H as <-. done.
  - intros [= <-]. done.
Qed.

(** [propagate] past its first test, on a starting configuration that
    fulfils no condition. *)
Lemma propagate_quiet_start fuel self t workdir deffnm continuation :
  quiet (conditions self) t →
  propagate get_all_traj_parts completion fuel self t workdir deffnm continuation
  = match loop_entry get_all_traj_parts completion self t workdir deffnm
            continuation (values_on (conditions self) t) with
    | Raise e => Some (Raise e, [CallEngineCls; CallGetAllTrajParts])
    | Return (inl early) => Some (Return early, [CallEngineCls; CallGetAllTrajParts])
    | Return (inr s) => run_loop completion fuel self s
    end.
Proof.
  intros [Hcons Hquiet]. unfold propagate.
  rewrite condition_vals_asarray by done. by rewrite Hquiet.
Qed.

Lemma propagate_fulfilling_start fuel self t workdir deffnm continuation :
  fulfilling (conditions self) t →
  ∃ c g,
    propagate get_all_traj_parts completion fuel self t workdir deffnm continuation
    = Some (Return ([t], c), [])
    ∧ first_true_at (values_on (conditions self) t) c g.
Proof.
  intros [Hcons Htrue].
  destruct (first_fullfilled_Return (values_on (conditions self) t))
    as (c & g & Hfirst & Hspec); [by apply any_true_at|].
  exists c, g. split; [|done]. unfold propagate.
  rewrite condition_vals_asarray by done. rewrite Htrue, Hfirst. done.
Qed.

Lemma asarray_inv (c m : Np.Matrix) : Np.asarray c = Return m → m = c.
Proof. unfold Np.asarray. destruct (Np.rectangular c); [by intros [= <-] | done]. Qed.

(** When the loop ends in a state other than the one it was entered in,
    the condition values it leaves are those of the last segment. *)
Lemma stepping_inv fuel self : ∀ s s',
  stepping completion fuel self s = Some (inl s') →
  s' = s
  ∨ ∃ front last,
      ls_trajs s' = front ++ [last]
      ∧ ls_cond_vals s' = values_on (conditions self) last
      ∧ ls_any_cond_fullfilled s' = Np.any (values_on (conditions self) last).
Proof.
  induction fuel as [|fuel IH]; intros s s'; rewrite stepping_unfold;
    destruct (negb _ && _) eqn:Hgo; try done; try (intros [= <-]; by left).
  destruct (run_walltime _ _) as [traj engine].
  rewrite condition_vals_for_traj_values. cbn [mbind result_bind bind].
  destruct (Np.asarray _) as [cv|e] eqn:Hcv; [|done].
  apply asarray_inv in Hcv as ->.
  intros [->|Hrest]%IH; right.
  - exists (ls_trajs s), traj. done.
  - done.
Qed.

Lemma run_loop_Return_inv fuel self s trajs c calls :
  ls_any_cond_fullfilled s = false →
  run_loop completion fuel self s = Some (Return (trajs, c), calls) →
  ∃ front last g,
    trajs = front ++ [last]
    ∧ first_true_at (values_on (conditions self) last) c g.
Proof.
  intros Hany. unfold run_loop.
  destruct (stepping completion fuel self s) as [[s'|[e calls']]|] eqn:Hstep; [|done..].
  intros [= Hafter _]. unfold after_loop in Hafter.
  destruct (ls_any_cond_fullfilled s') eqn:Hany'; [|done]. cbn [negb] in Hafter.
  apply bind_inv in Hafter as ([c' g] & Hfirst & [= <- <-]).
  apply stepping_inv in Hstep as [->|(front & last & Htrajs & Hvals & Hany'')];
    [congruence|].
  exists front, last, g. split; [done|].
  rewrite Hvals in Hfirst. rewrite Hany' in Hany''.
  destruct (first_fullfilled_Return (values_on (conditions self) last))
    as (c2 & g2 & Hfirst2 & Hspec); [by apply any_true_at|].
  rewrite Hfirst in Hfirst2. by injection Hfirst2 as <- <-.
Qed.

(** The condition index [propagate] returns after stepping is the first
    fulfilment on the last segment. *)
Lemma propagate_Return_inv fuel self t workdir deffnm continuation trajs c calls :
  propagate get_all_traj_parts completion fuel self t workdir deffnm continuation
  = Some (Return (trajs, c), calls) →
  CallRunWalltime ∈ calls →
  ∃ front last g,
    trajs = front ++ [last]
    ∧ first_true_at (values_on (conditions self) last) c g.
Proof.
  unfold propagate.
  destruct (_ ≫= Np.asarray) as [cv|e]; [|done].
  destruct (Np.any cv).
  { intros [= _ <-] Hin. by apply elem_of_nil in Hin. }
  destruct (loop_entry _ _ _ _ _ _ _ _) as [[early|s]|e] eqn:Hentry; [| |done].
  - intros [= _ <-] Hin.
    repeat (apply elem_of_cons in Hin as [Hin|Hin]; [done|]).
    by apply elem_of_nil in Hin.
  - intros Hrun _. eapply run_loop_Return_inv; [|done].
    by eapply loop_entry_any.
Qed.
End LoopFacts.

(** ** The stitcher on the plans the module builds *)

Section ConcatenateFacts.
Context {Frame : Type}.
Implicit Types (t : Trajectory Frame) (trajs : list (Trajectory Frame)).
Implicit Types (sl : Slice) (slices : list Slice).

Lemma concatenate_nil : concatenate (@nil (Trajectory Frame)) [] = Return [].
Proof. reflexivity. Qed.

Lemma concatenate_cons t sl trajs slices xs ys :
  PySlice.getslice t sl = Return xs →
  concatenate trajs slices = Return ys →
  concatenate (t :: trajs) (sl :: slices) = Return (xs ++ ys).
Proof.
  unfold concatenate. intros Hxs Hys.
  apply bind_inv in Hys as (parts & Hparts & [= <-]).
  change (zip (t :: trajs) (sl :: slices)) with ((t, sl) :: zip trajs slices).
  change (mapM ?f ((t, sl) :: ?l)) with (y ← f (t, sl); k ← mapM f l; mret (y :: k)).
  cbn beta iota. rewrite Hxs, Hparts. done.
Qed.

Lemma concatenate_app trajs1 slices1 trajs2 slices2 xs ys :
  length trajs1 = length slices1 →
  concatenate trajs1 slices1 = Return xs →
  concatenate trajs2 slices2 = Return ys →
  concatenate (trajs1 ++ trajs2) (slices1 ++ slices2) = Return (xs ++ ys).
Proof.
  revert slices1 xs. induction trajs1 as [|t trajs1 IH]; intros [|sl slices1] xs Hlen H1 H2;
    try done.
  - injection H1 as <-. done.
  - pose proof H1 as H1'. unfold concatenate in H1'.
    apply bind_inv in H1' as (parts & Hparts & [= <-]).
    change (zip (t :: trajs1) (sl :: slices1)) with ((t, sl) :: zip trajs1 slices1) in Hparts.
    change (mapM ?f ((t, sl) :: ?l)) with (y ← f (t, sl); k ← mapM f l; mret (y :: k)) in Hparts.
    cbn beta iota in Hparts.
    apply bind_inv in Hparts as (x & Hx & Hparts).
    apply bind_inv in Hparts as (rest & Hrest & [= <-]).
    cbn [app concat]. rewrite <- app_assoc.
    apply concatenate_cons; [done|].
    apply IH; [by injection Hlen | | done].
    unfold concatenate. by rewrite Hrest.
Qed.

Lemma concatenate_full trajs :
  concatenate trajs (replicate (length trajs) (0%Z, None, 1%Z)) = Return (concat trajs).
Proof.
  induction trajs as [|t trajs IH]; [done|].
  cbn [length replicate concat]. apply concatenate_cons; [|done].
  by rewrite getslice_forward_all.
Qed.

Lemma concatenate_full_reversed trajs :
  concatenate trajs (replicate (length trajs) ((-1)%Z, None, (-1)%Z))
  = Return (concat (map reverse trajs)).
Proof.
  induction trajs as [|t trajs IH]; [done|].
  cbn [length replicate concat map]. apply concatenate_cons; [|done].
  apply getslice_backward_all.
Qed.

Lemma concat_reverse trajs :
  concat (map reverse (reverse trajs)) = reverse (concat trajs).
Proof.
  induction trajs as [|t trajs IH]; [done|].
  rewrite reverse_cons, map_app, concat_app, IH. cbn [map concat].
  rewrite app_nil_r, reverse_app. done.
Qed.

Lemma length_concat trajs : length (concat trajs) = sum_list (map length trajs).
Proof.
  induction trajs as [|t trajs IH]; [done|]. cbn. rewrite length_app, IH. done.
Qed.

(** The frames up to frame [local] of segment [seg], along the
    concatenated frame axis. *)
Lemma take_concat_at trajs seg last local :
  trajs !! seg = Some last → local < length last →
  take (sum_list (map length (take seg trajs)) + S local) (concat trajs)
  = concat (take seg trajs) ++ take (S local) last.
Proof.
  intros Hseg Hlocal.
  rewrite <- (take_drop_middle trajs seg last Hseg) at 2.
  rewrite concat_app. cbn [concat].
  rewrite <- length_concat, take_app_add. f_equal.
  rewrite take_app_le by lia. done.
Qed.

Lemma mapM_getitem_seq {B} (l : list B) a n :
  a + n ≤ length l →
  mapM (getitem l) (seq a n) = Return (take n (drop a l)).
Proof.
  intros Hle. destruct (mapM_getitem l (seq a n)) as (xs & -> & Hall).
  { intros i Hi%elem_of_seq. lia. }
  f_equal. apply list_eq. intros k.
  pose proof (Forall2_length _ _ _ Hall) as Hlen. rewrite length_seq in Hlen.
  destruct (decide (k < n)) as [Hk|Hk].
  - destruct (Forall2_lookup_l _ _ _ k (a + k) Hall) as (x & -> & Hx);
      [by apply lookup_seq_lt|].
    rewrite lookup_take_lt, lookup_drop by done. done.
  - rewrite (proj2 (lookup_ge_None xs k)) by lia.
    symmetry. apply lookup_ge_None. rewrite length_take, length_drop. lia.
Qed.

Lemma mapM_getitem_reverse_seq {B} (l : list B) n :
  n ≤ length l →
  mapM (getitem l) (reverse (seq 0 n)) = Return (reverse (take n l)).
Proof.
  intros Hle. destruct (mapM_getitem l (reverse (seq 0 n))) as (xs & -> & Hall).
  { intros i Hi%elem_of_reverse%elem_of_seq. lia. }
  f_equal. apply list_eq. intros k.
  pose proof (Forall2_length _ _ _ Hall) as Hlen.
  rewrite length_reverse, length_seq in Hlen.
  destruct (decide (k < n)) as [Hk|Hk].
  - destruct (Forall2_lookup_l _ _ _ k (n - S k) Hall) as (x & -> & Hx).
    { rewrite reverse_lookup by (rewrite length_seq; lia).
      rewrite length_seq. apply lookup_seq_lt. lia. }
    rewrite reverse_lookup by (rewrite length_take; lia).
    rewrite length_take, Nat.min_l, lookup_take_lt by lia. done.
  - rewrite (proj2 (lookup_ge_None xs k)) by lia.
    symmetry. apply lookup_ge_None. rewrite length_reverse, length_take. lia.
Qed.
End ConcatenateFacts.

(** ** The plan of [cut_and_concatenate] *)

Section CutPlanFacts.
Context {Frame MDConfig Hours : Type}.
Variable completion : Trajectory Frame → list nat.
Implicit Types (self : @ConditionalTrajectoryPropagator Frame MDConfig Hours).
Implicit Types (trajs : list (Trajectory Frame)).

Lemma mapM_Result_length {A B} (f : A → Result B) (l : list A) (k : list B) :
  mapM f l = Return k → length k = length l.
Proof.
  revert k. induction l as [|x l IH]; intros k; [by intros [= <-]|].
  change (mapM f (x :: l)) with (y ← f x; k ← mapM f l; mret (y :: k)).
  intros (y & _ & H)%bind_inv. apply bind_inv in H as (k' & Hk' & [= <-]).
  cbn. f_equal. by apply IH.
Qed.

Lemma find_last_part_inv (part_lens : list nat) g i :
  find_last_part part_lens g = Return i →
  i < length part_lens
  ∧ sum_list (take i part_lens) ≤ g
  ∧ g < sum_list (take (S i) part_lens).
Proof.
  intros Hi. destruct (decide (g < sum_list part_lens)) as [Hlt|Hge].
  - destruct (find_last_part_Return part_lens g Hlt) as (i' & Hi' & ?).
    rewrite Hi in Hi'. by injection Hi' as <-.
  - rewrite find_last_part_Raise in Hi by lia. done.
Qed.

Lemma cut_locate_inv self trajs c g seg local :
  cut_locate completion self trajs = Return (c, g, seg, local) →
  seg < length trajs ∧ (0 ≤ local)%Z.
Proof.
  unfold cut_locate.
  intros (cv & Hcv & H)%bind_inv. apply bind_inv in H as (part_lens & Hpl & H).
  apply bind_inv in H as (arrays & _ & H). apply bind_inv in H as (m & _ & H).
  apply bind_inv in H as ([c' g'] & _ & H). apply bind_inv in H as (i & Hi & H).
  injection H as -> -> -> <-.
  apply find_last_part_inv in Hi as (Hlt & Hlow & _).
  apply mapM_Result_length in Hcv, Hpl. split; [lia|].
  unfold frame_in_part. lia.
Qed.

Lemma cut_plan_of_locate self trajs c g seg local :
  cut_locate completion self trajs = Return (c, g, seg, local) →
  cut_and_concatenate_plan completion self trajs
  = Return (take (seg + 1) trajs,
            replicate seg (0%Z, None, 1%Z) ++ [(0%Z, Some (local + 1)%Z, 1%Z)],
            c).
Proof.
  intros Hloc. unfold cut_and_concatenate_plan. rewrite Hloc.
  cbn [mbind result_bind bind]. by destruct seg.
Qed.

Lemma concatenate_cut_plan trajs seg last (local : Z) :
  trajs !! seg = Some last → (0 ≤ local)%Z →
  concatenate (take (seg + 1) trajs)
    (replicate seg (0%Z, None, 1%Z) ++ [(0%Z, Some (local + 1)%Z, 1%Z)])
  = Return (concat (take seg trajs) ++ take (S (Z.to_nat local)) last).
Proof.
  intros Hseg Hlocal. rewrite Nat.add_1_r, (take_S_r _ _ _ Hseg).
  assert (length (take seg trajs) = seg) as Hlen.
  { apply length_take_le. apply lookup_lt_Some in Hseg. lia. }
  apply concatenate_app.
  - by rewrite length_replicate.
  - rewrite <- Hlen at 2. apply concatenate_full.
  - rewrite <- (app_nil_r (take _ last)).
    apply concatenate_cons; [|done].
    rewrite getslice_forward_to by lia. change (Z.to_nat 0) with 0. cbn [drop].
    replace (Z.to_nat (local + 1)) with (S (Z.to_nat local)) by lia. done.
Qed.
End CutPlanFacts.

(** * The locator and the plan of [cut_and_concatenate] *)

Lemma take_map_length {A} (l : list (list A)) n :
  take n (map length l) = map length (take n l).
Proof. revert n. induction l as [|x l IH]; intros [|n]; cbn; [done..|]. by rewrite IH. Qed.

Section LocatorClaims.
Context {Frame MDConfig Hours E : Type} `{!MDEngine Frame MDConfig Hours E}.
Variable get_all_traj_parts : string → string → E → list (Trajectory Frame).
Variable completion : Trajectory Frame → list nat.
Implicit Types (self : @ConditionalTrajectoryPropagator Frame MDConfig Hours).
Implicit Types (trajs : list (Trajectory Frame)).

Lemma cut_locate_address self trajs :
  consistent (conditions self) trajs →
  (∃ c g, true_at (values_along (conditions self) trajs) c g) →
  ∃ c g seg local last,
    cut_locate completion self trajs = Return (c, g, seg, local)
    ∧ first_true_at (values_along (conditions self) trajs) c g
    ∧ trajs !! seg = Some last
    ∧ (0 ≤ local < Z.of_nat (length last))%Z
    ∧ (Z.of_nat (sum_list (map length (take seg trajs))) + local = Z.of_nat g)%Z.
Proof.
  intros Hcons Hex.
  destruct (cut_locate_Return completion self trajs Hcons Hex)
    as (c & g & seg & Hloc & Hfirst & Hseg & Hlow & Hup).
  destruct (lookup_lt_is_Some_2 trajs seg Hseg) as [last Hlast].
  exists c, g, seg, (frame_in_part (map length trajs) g seg), last.
  rewrite (sum_list_take_lookup (map length trajs) seg (length last)) in Hup
    by (by rewrite lookup_map, Hlast).
  rewrite take_map_length in Hlow, Hup.
  unfold frame_in_part. rewrite take_map_length.
  split_and!; [|done|done|lia..].
  rewrite Hloc. unfold frame_in_part. by rewrite take_map_length.
Qed.

(** C1. For every ordered list of segments with consistent condition values
    of which at least one is true, the locator run by [cut_and_concatenate]
    selects the smallest frame along the concatenated frame axis at which
    any condition is true and the lowest condition true at that frame, and
    splits the frame into a segment index and a frame of that segment such
    that the lengths of the earlier segments plus the local frame give the
    global frame. [propagate] runs the same selection on its last segment:
    a run that enters the loop, stays within the step budget and meets a
    first segment on which a condition is true returns, with the segments
    up to that one, the lowest condition true at the smallest true frame
    of that segment; and every index [propagate] returns after it
    requested a segment is selected in this way. *)
Theorem locator_selects_first_fulfilment :
  (∀ self trajs,
     consistent (conditions self) trajs →
     (∃ c g, true_at (values_along (conditions self) trajs) c g) →
     ∃ c g seg local last,
       cut_locate completion self trajs = Return (c, g, seg, local)
       ∧ first_true_at (values_along (conditions self) trajs) c g
       ∧ trajs !! seg = Some last
       ∧ (0 ≤ local < Z.of_nat (length last))%Z
       ∧ (Z.of_nat (sum_list (map length (take seg trajs))) + local = Z.of_nat g)%Z)
  ∧ (∀ self starting_configuration workdir deffnm continuation s0 n fuel,
       quiet (conditions self) starting_configuration →
       loop_entry get_all_traj_parts completion self starting_configuration
         workdir deffnm continuation
         (values_on (conditions self) starting_configuration)
       = Return (inr s0) →
       (∀ i, i ≤ n →
          within_budget (counter_after self s0 i) (max_steps self) = true) →
       (∀ i, i < n → quiet (conditions self) (segment self i (ls_engine s0))) →
       fulfilling (conditions self) (segment self n (ls_engine s0)) →
       ∃ c g,
         propagate get_all_traj_parts completion (S n + fuel) self
           starting_configuration workdir deffnm continuation
         = Some (Return (ls_trajs s0
                         ++ map (λ i, segment self i (ls_engine s0)) (seq 0 n)
                         ++ [segment self n (ls_engine s0)], c),
                 ls_calls s0 ++ replicate (S n) CallRunWalltime)
         ∧ first_true_at
             (values_on (conditions self) (segment self n (ls_engine s0))) c g)
  ∧ (∀ fuel self starting_configuration workdir deffnm continuation trajs c calls,
       propagate get_all_traj_parts completion fuel self starting_configuration
         workdir deffnm continuation
       = Some (Return (trajs, c), calls) →
       CallRunWalltime ∈ calls →
       ∃ front last g,
         trajs = front ++ [last]
         ∧ first_true_at (values_on (conditions self) last) c g).
Proof.
  split_and!.
  - apply cut_locate_address.
  - intros self t workdir deffnm continuation s0 n fuel Hstart Hentry Hwithin
      Hquiet Hfulfil.
    pose proof (loop_entry_any _ _ _ _ _ _ _ _ _ Hentry) as Hany.
    rewrite propagate_quiet_start, Hentry by done.
    destruct (run_loop_fulfils completion self s0 n fuel Hany Hwithin Hquiet Hfulfil)
      as (c & g & Hrun & Hfirst).
    exists c, g. split; [|done].
    rewrite Hrun, seq_S, map_app. done.
  - intros. by eapply propagate_Return_inv.
Qed.

(** C3. For every segment list and located address (last_part_idx,
    first_frame_in_part), [cut_and_concatenate] hands the concatenator the
    segments up to and including last_part_idx and no others, with a plan
    that takes every segment before last_part_idx fully with stride +1, in
    order, and then the segment at last_part_idx from its first frame
    through first_frame_in_part inclusive with stride +1. *)
Theorem cut_plan_takes_parts_up_to_address self trajs c g seg local :
  cut_locate completion self trajs = Return (c, g, seg, local) →
  ∃ last,
    trajs !! seg = Some last
    ∧ take (seg + 1) trajs = take seg trajs ++ [last]
    ∧ cut_and_concatenate_plan completion self trajs
      = Return (take (seg + 1) trajs,
                replicate seg (0%Z, None, 1%Z) ++ [(0%Z, Some (local + 1)%Z, 1%Z)],
                c)
    ∧ concatenate (take (seg + 1) trajs)
        (replicate seg (0%Z, None, 1%Z) ++ [(0%Z, Some (local + 1)%Z, 1%Z)])
      = Return (concat (take seg trajs) ++ take (S (Z.to_nat local)) last).
Proof.
  intros Hloc. destruct (cut_locate_inv _ _ _ _ _ _ _ Hloc) as [Hseg Hlocal].
  destruct (lookup_lt_is_Some_2 trajs seg Hseg) as [last Hlast].
  exists last. split_and!.
  - done.
  - by rewrite Nat.add_1_r, (take_S_r _ _ _ Hlast).
  - by eapply cut_plan_of_locate.
  - by apply concatenate_cut_plan.
Qed.

Lemma values_along_single (conds : list (Condition Frame)) (t : Trajectory Frame) :
  values_along conds [t] = values_on conds t.
Proof.
  unfold values_along, values_on. apply map_ext. intros c. cbn. apply app_nil_r.
Qed.

(** C5. For every single-segment propagation whose first frame in a
    condition is frame k of that segment, the plan of [cut_and_concatenate]
    selects the frames 0 through k of the segment, so that the stitched
    trajectory has exactly k + 1 frames. *)
Theorem single_segment_cut_has_k_plus_1_frames self (t : Trajectory Frame) c k :
  consistent (conditions self) [t] →
  first_true_at (values_on (conditions self) t) c k →
  cut_and_concatenate_plan completion self [t]
  = Return ([t], [(0%Z, Some (Z.of_nat k + 1)%Z, 1%Z)], c)
  ∧ cut_and_concatenate completion self [t] = Return (take (S k) t, c)
  ∧ length (take (S k) t) = k + 1.
Proof.
  intros Hcons Hfirst.
  destruct (cut_locate_address self [t] Hcons)
    as (c' & g & seg & local & last & Hloc & Hfirst' & Hlast & Hlocal & Hsum).
  { rewrite values_along_single. exists c, k. apply Hfirst. }
  rewrite values_along_single in Hfirst'.
  destruct (first_true_at_unique _ _ _ _ _ Hfirst Hfirst') as [<- <-].
  destruct seg as [|seg]; [|by destruct seg].
  injection Hlast as <-. cbn in Hsum.
  assert (local = Z.of_nat k) as -> by lia.
  pose proof (cut_plan_of_locate _ _ _ _ _ _ _ Hloc) as Hplan.
  split_and!.
  - done.
  - unfold cut_and_concatenate. rewrite Hplan. cbn [mbind result_bind bind].
    rewrite (concatenate_cut_plan [t] 0 t) by (done || lia).
    rewrite Nat2Z.id. done.
  - rewrite length_take. lia.
Qed.

(** C10. [cut_and_concatenate] is defined only when some condition is true
    on some frame of the given segments: then the minimum is taken over a
    set that is not empty, the walk over the part lengths ends at a segment
    index below the number of segments with a local frame inside that
    segment, and a trajectory is returned; when no entry is true, the
    minimum is taken over nothing and the operation raises instead of
    returning a trajectory. *)
Theorem cut_defined_iff_some_condition_true self trajs :
  consistent (conditions self) trajs →
  ((∃ c g, true_at (values_along (conditions self) trajs) c g) →
   ∃ c g seg local last,
     cut_locate completion self trajs = Return (c, g, seg, local)
     ∧ true_at (values_along (conditions self) trajs) c g
     ∧ seg < length trajs
     ∧ trajs !! seg = Some last
     ∧ (0 ≤ local < Z.of_nat (length last))%Z
     ∧ cut_and_concatenate completion self trajs
       = Return (concat (take seg trajs) ++ take (S (Z.to_nat local)) last, c))
  ∧ ((∀ c g, ¬ true_at (values_along (conditions self) trajs) c g) →
     first_fullfilled (values_along (conditions self) trajs) = Raise ValueError
     ∧ ∃ e, cut_and_concatenate completion self trajs = Raise e
            ∧ (conditions self ≠ [] → e = ValueError)).
Proof.
  intros Hcons. split.
  - intros Hex.
    destruct (cut_locate_address self trajs Hcons Hex)
      as (c & g & seg & local & last & Hloc & Hfirst & Hlast & Hlocal & Hsum).
    exists c, g, seg, local, last. split_and!; [done|apply Hfirst| |done|lia|lia|].
    + by eapply lookup_lt_Some.
    + unfold cut_and_concatenate.
      rewrite (cut_plan_of_locate _ _ _ _ _ _ _ Hloc). cbn [mbind result_bind bind].
      rewrite (concatenate_cut_plan trajs seg last) by (done || lia). done.
  - intros Hnone. split; [by apply first_fullfilled_Raise|].
    destruct (decide (conditions self = [])) as [Hnil|Hconds].
    + unfold cut_and_concatenate, cut_and_concatenate_plan, cut_locate.
      rewrite (mapM_Return _ (values_on (conditions self)))
        by (intros; apply condition_vals_for_traj_values).
      cbn [mbind result_bind bind]. rewrite Hnil.
      destruct trajs as [|t trajs]; [by exists ValueError|].
      by exists IndexError.
    + exists ValueError. split; [|done].
      unfold cut_and_concatenate, cut_and_concatenate_plan.
      by rewrite cut_locate_Raise.
Qed.
End LocatorClaims.

(** * The propagation loop *)

Section PropagateClaims.
Context {Frame MDConfig Hours E : Type} `{!MDEngine Frame MDConfig Hours E}.
Variable nstout_from_mdconfig : MDConfig → string → Z.
Variable get_all_traj_parts : string → string → E → list (Trajectory Frame).
Variable completion : Trajectory Frame → list nat.
Implicit Types (self : @ConditionalTrajectoryPropagator Frame MDConfig Hours).
Implicit Types (trajs : list (Trajectory Frame)).

(** C4. For every propagation run in which the step counter taken from the
    engine exceeds the configured maximum before any condition is true on
    a produced segment, [propagate] raises MaxStepsReachedError, with the
    steps produced and the configured maximum, and returns no segment
    list; when a condition becomes true on a segment requested while the
    counter is within the maximum, [propagate] returns and does not
    raise. The run starts in the state [s0] in which the loop is entered,
    fresh or continued, and [n] counts the segments produced before. *)
Theorem propagate_raises_iff_budget_exceeded_first
    self starting_configuration workdir deffnm continuation s0 n fuel :
  quiet (conditions self) starting_configuration →
  loop_entry get_all_traj_parts completion self starting_configuration workdir
    deffnm continuation (values_on (conditions self) starting_configuration)
  = Return (inr s0) →
  (∀ i, i < n → within_budget (counter_after self s0 i) (max_steps self) = true) →
  (∀ i, i < n → quiet (conditions self) (segment self i (ls_engine s0))) →
  (∀ N, max_steps self = Steps N → (N < counter_after self s0 n)%Z →
     propagate get_all_traj_parts completion (n + fuel) self starting_configuration
       workdir deffnm continuation
     = Some (Raise (MaxStepsReachedError (counter_after self s0 n) (Steps N)),
             ls_calls s0 ++ replicate n CallRunWalltime))
  ∧ (within_budget (counter_after self s0 n) (max_steps self) = true →
     fulfilling (conditions self) (segment self n (ls_engine s0)) →
     ∃ c g,
       propagate get_all_traj_parts completion (S n + fuel) self
         starting_configuration workdir deffnm continuation
       = Some (Return (ls_trajs s0 ++ map (λ i, segment self i (ls_engine s0)) (seq 0 (S n)), c),
               ls_calls s0 ++ replicate (S n) CallRunWalltime)
       ∧ first_true_at (values_on (conditions self) (segment self n (ls_engine s0))) c g).
Proof.
  intros Hstart Hentry Hwithin Hquiet.
  pose proof (loop_entry_any _ _ _ _ _ _ _ _ _ Hentry) as Hany.
  split.
  - intros N HN Hexceeds. rewrite propagate_quiet_start, Hentry by done.
    rewrite <- HN. apply run_loop_exceeds; [done..| |done].
    rewrite HN. cbn. by apply Z.leb_gt.
  - intros Hlast Hfulfil. rewrite propagate_quiet_start, Hentry by done.
    apply run_loop_fulfils; [done| |done|done].
    intros i Hi. destruct (decide (i = n)) as [->|]; [done|]. apply Hwithin. lia.
Qed.

(** C6. For every starting configuration on which some condition is already
    true, [propagate] does not propagate: it makes no call on the engine
    side (no engine is created, no segment requested) and returns the list
    holding the starting configuration alone, with the index of the
    condition first fulfilled on it (the lowest condition at the smallest
    true frame). *)
Theorem propagate_returns_fulfilling_start
    fuel self starting_configuration workdir deffnm continuation :
  fulfilling (conditions self) starting_configuration →
  ∃ c g,
    propagate get_all_traj_parts completion fuel self starting_configuration
      workdir deffnm continuation
    = Some (Return ([starting_configuration], c), [])
    ∧ first_true_at (values_on (conditions self) starting_configuration) c g.
Proof. apply propagate_fulfilling_start. Qed.

(** C7, as amended. For every continuation call whose starting
    configuration fulfils no condition, with at least one condition and at
    least one segment recovered from disk and consistent condition values:
    all conditions are evaluated on all recovered segments; if a condition
    is true on them, [propagate] returns the recovered segments and the
    condition index at once, without [prepare_from_files] and without a new
    segment; otherwise the engine is re-attached by [prepare_from_files]
    and the loop is entered with the recovered segments and the step
    counter taken from the engine's [steps_done]. *)
Theorem continuation_returns_recovered_or_reattaches
    fuel self starting_configuration workdir deffnm :
  let engine := engine_cls (engine_kwargs self) in
  let trajs := get_all_traj_parts workdir deffnm engine in
  quiet (conditions self) starting_configuration →
  conditions self ≠ [] → trajs ≠ [] → consistent (conditions self) trajs →
  ((∃ c g, true_at (values_along (conditions self) trajs) c g) →
   ∃ c g,
     propagate get_all_traj_parts completion fuel self starting_configuration
       workdir deffnm true
     = Some (Return (trajs, c), [CallEngineCls; CallGetAllTrajParts])
     ∧ first_true_at (values_along (conditions self) trajs) c g)
  ∧ ((∀ c g, ¬ true_at (values_along (conditions self) trajs) c g) →
     propagate get_all_traj_parts completion fuel self starting_configuration
       workdir deffnm true
     = run_loop completion fuel self
         {| ls_engine := prepare_from_files workdir deffnm engine;
            ls_any_cond_fullfilled := false;
            ls_cond_vals := values_along (conditions self) trajs;
            ls_trajs := trajs;
            ls_step_counter := steps_done (prepare_from_files workdir deffnm engine);
            ls_calls := [CallEngineCls; CallGetAllTrajParts; CallPrepareFromFiles] |}).
Proof.
  intros engine trajs Hstart Hconds Htrajs Hcons. split.
  - intros Hex.
    destruct (continue_from_files_fulfilled get_all_traj_parts completion self
                workdir deffnm engine Hcons Hex) as (c & g & Hcont & Hfirst).
    exists c, g. split; [|done].
    rewrite propagate_quiet_start by done. unfold loop_entry. cbn [negb].
    fold engine. by rewrite Hcont.
  - intros Hnone. rewrite propagate_quiet_start by done. unfold loop_entry.
    cbn [negb]. fold engine.
    by rewrite (continue_from_files_quiet get_all_traj_parts completion self
                  workdir deffnm engine Hconds Htrajs Hcons Hnone).
Qed.

(** C8. For every list of synchronous and asynchronous conditions, the
    evaluator returns one list of results in the order of the conditions
    (the result at index i is the value of condition i) whatever the order
    in which the coroutines complete, and it calls the synchronous
    conditions in the order of the list. *)
Theorem evaluator_keeps_condition_order self (hint : list nat) (traj : Trajectory Frame) :
  ∃ evs,
    condition_vals_with_events (conditions self) (_condition_func_is_coroutine self)
      hint traj
    = Return (values_on (conditions self) traj, evs)
    ∧ _condition_vals_for_traj completion self traj
      = Return (values_on (conditions self) traj)
    ∧ (∀ i c, conditions self !! i = Some c →
         values_on (conditions self) traj !! i = Some (call c traj))
    ∧ sync_calls evs = sync_positions (conditions self)
    ∧ coro_completions evs ≡ₚ coro_positions (conditions self).
Proof.
  destruct (evaluator_spec (conditions self) hint traj) as (evs & Hevs & Hsync & Hcoro).
  exists evs. split_and!; [done | apply condition_vals_for_traj_values | | done | done].
  intros i c Hc. unfold values_on. by rewrite lookup_map, Hc.
Qed.

(** C9. For every construction of a propagator: if max_steps is given, the
    step budget is max_steps, also when max_frames is given; else if
    max_frames is given, the budget is max_frames times the output
    frequency derived from the engine configuration; else the budget is
    unbounded, and no step count exceeds it. *)
Theorem init_resolves_step_budget
    (conds : list (Condition Frame)) (kwargs : EngineKwargs MDConfig)
    (walltime : Hours) (max_steps_arg max_frames_arg : option Z) (mdconfig : MDConfig) :
  kw_mdconfig kwargs = Some mdconfig →
  let traj_type := default default_output_traj_type (kw_output_traj_type kwargs) in
  let nstout := nstout_from_mdconfig mdconfig traj_type in
  ∃ self,
    init nstout_from_mdconfig conds kwargs walltime max_steps_arg max_frames_arg
    = Return self
    ∧ conditions self = conds
    ∧ (∀ s, max_steps_arg = Some s → max_steps self = Steps s)
    ∧ (∀ f, max_steps_arg = None → max_frames_arg = Some f →
         max_steps self = Steps (f * nstout))
    ∧ (max_steps_arg = None → max_frames_arg = None →
         max_steps self = Infinity
         ∧ ∀ step_counter, within_budget step_counter (max_steps self) = true).
Proof.
  intros Hcfg traj_type nstout. unfold init. rewrite Hcfg. cbn [mbind result_bind bind].
  eexists. split; [reflexivity|]. cbn [conditions max_steps].
  split_and!; [done|..].
  - by intros s ->.
  - intros f -> ->. subst nstout traj_type. by destruct (kw_output_traj_type kwargs).
  - by intros -> ->.
Qed.
End PropagateClaims.

(** * The two-way construction of a transition *)

Section ConstructFacts.
Context {Frame : Type}.
Implicit Types (trajs : list (Trajectory Frame)) (f : Condition Frame).

Lemma foldl_min_spec (l : list nat) x :
  foldl Nat.min x l ∈ x :: l ∧ ∀ y, y ∈ x :: l → foldl Nat.min x l ≤ y.
Proof.
  revert x. induction l as [|z l IH]; intros x; cbn [foldl].
  - split; [by left|]. intros y Hy. apply list_elem_of_singleton in Hy as ->. done.
  - destruct (IH (Nat.min x z)) as [Hin Hle]. split.
    + apply elem_of_cons in Hin as [Heq|Hin]; [|by do 2 right].
      rewrite Heq. destruct (Nat.min_spec x z) as [[_ ->]|[_ ->]]; [by left|].
      right. by left.
    + intros y Hy. apply elem_of_cons in Hy as [->|Hy].
      * etrans; [apply Hle; by left|]. apply Nat.le_min_l.
      * apply elem_of_cons in Hy as [->|Hy].
        -- etrans; [apply Hle; by left|]. apply Nat.le_min_r.
        -- apply Hle. by right.
Qed.

Lemma min_where1 (row : list bool) g :
  first_in_state row g → Np.min (Np.where1 row) = Return g.
Proof.
  intros [Hg Hfirst]. unfold Np.where1.
  assert (g ∈ Np.where_from 0 row) as Hin by (apply elem_of_where_from; eauto).
  destruct (Np.where_from 0 row) as [|x l] eqn:Hw; [by apply elem_of_nil in Hin|].
  cbn [Np.min]. f_equal.
  destruct (foldl_min_spec l x) as [Hmem Hle]. rewrite <- Hw in Hmem.
  apply elem_of_where_from in Hmem as (i & Hi & Hrow). cbn in Hi.
  apply Nat.le_antisymm; [by apply Hle|]. rewrite Hi. by apply Hfirst.
Qed.

Lemma consistent_single f trajs :
  consistent [f] trajs → map length (map (call f) trajs) = map length trajs.
Proof.
  intros Hcons. rewrite map_map. apply map_ext_in. intros t Ht.
  apply Hcons; [by left | by apply list_elem_of_In].
Qed.

Lemma locate_state_Return trajs state (state_funcs : list (Condition Frame)) f g :
  state_funcs !! state = Some f →
  consistent [f] trajs →
  first_in_state (concat (map (call f) trajs)) g →
  ∃ seg last,
    locate_state trajs state state_funcs
    = Return (seg, Z.of_nat (g - sum_list (map length (take seg trajs))))
    ∧ trajs !! seg = Some last
    ∧ sum_list (map length (take seg trajs)) ≤ g
    ∧ g < sum_list (map length (take seg trajs)) + length last.
Proof.
  intros Hf Hcons Hfirst.
  assert (g < sum_list (map length trajs)) as Hbound.
  { destruct Hfirst as [Hg _]. apply lookup_lt_Some in Hg.
    by rewrite length_concat, consistent_single in Hg. }
  destruct (find_last_part_Return (map length trajs) g Hbound)
    as (seg & Hseg & Hlt & Hlow & Hup).
  rewrite length_map in Hlt.
  destruct (lookup_lt_is_Some_2 trajs seg Hlt) as [last Hlast].
  rewrite (sum_list_take_lookup (map length trajs) seg (length last)) in Hup
    by (by rewrite lookup_map, Hlast).
  rewrite take_map_length in Hlow, Hup.
  exists seg, last. split_and!; [|done..].
  unfold locate_state.
  rewrite (mapM_Return _ (call f)).
  2:{ intros t _. rewrite (getitem_Some _ _ _ Hf). done. }
  cbn [mbind result_bind bind]. rewrite consistent_single by done.
  assert (Np.concatenate0 (map (call f) trajs) = Return (concat (map (call f) trajs)))
    as ->.
  { destruct trajs; [cbn in Hbound; lia | done]. }
  cbn [mbind result_bind bind]. rewrite (min_where1 _ _ Hfirst).
  cbn [mbind result_bind bind]. rewrite Hseg. cbn [mbind result_bind bind].
  unfold frame_in_part. rewrite take_map_length. do 2 f_equal. lia.
Qed.

Lemma reverse_take_S trajs j last :
  trajs !! j = Some last →
  reverse (take (S j) trajs) = last :: reverse (take j trajs).
Proof. intros Hj. by rewrite (take_S_r _ _ _ Hj), reverse_snoc. Qed.

(** The reads on the minus chain are the frames up to the first frame in
    state, reversed. *)
Lemma minus_reads trajs j last m :
  trajs !! j = Some last → m < length last →
  concatenate (reverse (take (S j) trajs)) (minus_slices j (Z.of_nat m))
  = Return (reverse (take (sum_list (map length (take j trajs)) + S m) (concat trajs))).
Proof.
  intros Hj Hm. rewrite (reverse_take_S _ _ _ Hj). unfold minus_slices.
  rewrite (take_concat_at _ _ _ _ Hj Hm), reverse_app.
  apply concatenate_cons.
  - rewrite getslice_backward_from by lia. by rewrite Nat2Z.id.
  - rewrite <- concat_reverse.
    assert (length (reverse (take j trajs)) = j) as Hlen.
    { rewrite length_reverse. apply length_take_le. apply lookup_lt_Some in Hj. lia. }
    rewrite <- Hlen at 2. apply concatenate_full_reversed.
Qed.

Lemma take_S_plus trajs k' first last :
  trajs !! 0 = Some first → trajs !! S k' = Some last →
  take (S (S k')) trajs = first :: take k' (drop 1 trajs) ++ [last].
Proof.
  destruct trajs as [|t rest]; [done|]. intros [= ->] Hlast. cbn in Hlast.
  cbn [take drop]. f_equal. by apply take_S_r.
Qed.

(** The reads on the plus chain are the frames up to the first frame in
    state, without frame 0. *)
Lemma plus_reads trajs k last p :
  trajs !! k = Some last → p < length last →
  (∀ first, trajs !! 0 = Some first → first ≠ []) →
  concatenate (take (S k) trajs) (plus_slices k (Z.of_nat p))
  = Return (drop 1 (take (sum_list (map length (take k trajs)) + S p) (concat trajs))).
Proof.
  intros Hk Hp Hfirst. rewrite (take_concat_at _ _ _ _ Hk Hp).
  destruct k as [|k']; unfold plus_slices.
  - rewrite (take_S_r _ _ _ Hk). cbn [take app concat].
    rewrite <- (app_nil_r (drop 1 _)). apply concatenate_cons; [|done].
    rewrite getslice_forward_to by lia.
    replace (Z.to_nat (Z.of_nat p + 1)) with (S p) by lia. done.
  - destruct (lookup_lt_is_Some_2 trajs 0) as [first H0];
      [apply lookup_lt_Some in Hk; lia|].
    rewrite (take_S_plus _ _ _ _ H0 Hk).
    assert (take (S k') trajs = first :: take k' (drop 1 trajs)) as ->.
    { destruct trajs; [done|]. by injection H0 as ->. }
    cbn [concat]. rewrite <- app_assoc.
    rewrite drop_app_le.
    2:{ specialize (Hfirst first H0). destruct first; [done | cbn; lia]. }
    apply concatenate_cons; [by rewrite getslice_forward_all|].
    apply concatenate_app.
    + rewrite length_replicate. apply length_take_le. rewrite length_drop.
      apply lookup_lt_Some in Hk. lia.
    + assert (length (take k' (drop 1 trajs)) = k') as Hlen.
      { apply length_take_le. rewrite length_drop. apply lookup_lt_Some in Hk. lia. }
      rewrite <- Hlen at 2. apply concatenate_full.
    + rewrite <- (app_nil_r (take _ last)). apply concatenate_cons; [|done].
      rewrite getslice_forward_to by lia.
      replace (Z.to_nat (Z.of_nat p + 1)) with (S p) by lia. done.
Qed.

(** The segments and slices [construct_TP_plan] hands to the stitcher. *)
Lemma construct_TP_plan_shape minus_trajs minus_state plus_trajs plus_state
    (state_funcs : list (Condition Frame)) j m minus_j k p plus_k :
  locate_state minus_trajs minus_state state_funcs = Return (j, m) →
  minus_trajs !! j = Some minus_j →
  locate_state plus_trajs plus_state state_funcs = Return (k, p) →
  plus_trajs !! k = Some plus_k →
  construct_TP_plan minus_trajs minus_state plus_trajs plus_state state_funcs
  = Return (reverse (take (S j) minus_trajs) ++ take (S k) plus_trajs,
            minus_slices j m ++ plus_slices k p).
Proof.
  intros Hminus Hj Hplus Hk. unfold construct_TP_plan.
  rewrite Hminus. cbn [mbind result_bind bind].
  rewrite (getitem_Some _ _ _ Hj). cbn [mbind result_bind bind].
  rewrite mapM_getitem_reverse_seq by (apply lookup_lt_Some in Hj; lia).
  cbn [mbind result_bind bind]. rewrite Hplus. cbn [mbind result_bind bind].
  rewrite (reverse_take_S _ _ _ Hj). unfold minus_slices.
  destruct k as [|k']; cbn [Nat.ltb Nat.leb].
  - rewrite (getitem_Some _ _ _ Hk). cbn [mbind result_bind bind].
    rewrite (take_S_r _ _ _ Hk). cbn [take plus_slices app]. done.
  - destruct (lookup_lt_is_Some_2 plus_trajs 0) as [first H0];
      [apply lookup_lt_Some in Hk; lia|].
    rewrite (getitem_Some _ _ _ H0). cbn [mbind result_bind bind].
    rewrite Nat.sub_succ, Nat.sub_0_r.
    rewrite mapM_getitem_seq by (apply lookup_lt_Some in Hk; lia).
    cbn [mbind result_bind bind].
    rewrite (getitem_Some _ _ _ Hk). cbn [mbind result_bind bind].
    rewrite (take_S_plus _ _ _ _ H0 Hk). cbn [plus_slices].
    f_equal. f_equal; cbn [app]; rewrite <- ?app_assoc; done.
Qed.

(** C2. For every minus chain whose state is first reached at frame m of
    minus segment j and plus chain whose state is first reached at frame p
    of plus segment k, the construction builds a plan that reads minus
    segment j with stride -1 from frame m down to frame 0 and the earlier
    minus segments fully reversed, then the plus chain with stride +1:
    its segment 0 from frame 1 on, so that the shared starting
    configuration is read once, from the minus side; the segments between
    fully; the last segment through frame p inclusive. For a minus chain
    of 5 and 3 frames in its state from frame 2 and a plus chain of 4
    frames in its state from frame 1, the plan selects 4 frames. *)
Theorem transition_plan_joins_chains_at_shared_start
    minus_trajs minus_state plus_trajs plus_state
    (state_funcs : list (Condition Frame)) fm fp gm gp :
  state_funcs !! minus_state = Some fm →
  state_funcs !! plus_state = Some fp →
  consistent [fm] minus_trajs →
  consistent [fp] plus_trajs →
  first_in_state (concat (map (call fm) minus_trajs)) gm →
  first_in_state (concat (map (call fp) plus_trajs)) gp →
  ∃ j m minus_j k p plus_k,
    (minus_trajs !! j = Some minus_j ∧ m < length minus_j
     ∧ sum_list (map length (take j minus_trajs)) + m = gm)
    ∧ (plus_trajs !! k = Some plus_k ∧ p < length plus_k
       ∧ sum_list (map length (take k plus_trajs)) + p = gp)
    ∧ construct_TP_plan minus_trajs minus_state plus_trajs plus_state state_funcs
      = Return (reverse (take (S j) minus_trajs) ++ take (S k) plus_trajs,
                minus_slices j (Z.of_nat m) ++ plus_slices k (Z.of_nat p))
    ∧ concatenate (reverse (take (S j) minus_trajs)) (minus_slices j (Z.of_nat m))
      = Return (reverse (take (S gm) (concat minus_trajs)))
    ∧ ((∀ first, plus_trajs !! 0 = Some first → first ≠ []) →
       concatenate (take (S k) plus_trajs) (plus_slices k (Z.of_nat p))
       = Return (drop 1 (take (S gp) (concat plus_trajs)))
       ∧ construct_TP_from_plus_and_minus_traj_segments minus_trajs minus_state
           plus_trajs plus_state state_funcs
         = Return (reverse (take (S gm) (concat minus_trajs))
                   ++ drop 1 (take (S gp) (concat plus_trajs)))
       ∧ length (reverse (take (S gm) (concat minus_trajs))
                 ++ drop 1 (take (S gp) (concat plus_trajs)))
         = S gm + gp)
    ∧ (map length minus_trajs = [5; 3] → map length plus_trajs = [4] →
       gm = 2 → gp = 1 →
       ∃ frames,
         construct_TP_from_plus_and_minus_traj_segments minus_trajs minus_state
           plus_trajs plus_state state_funcs
         = Return frames
         ∧ length frames = 4).
Proof.
  intros Hfm Hfp Hcm Hcp Hgm Hgp.
  destruct (locate_state_Return _ _ _ _ _ Hfm Hcm Hgm)
    as (j & minus_j & Hminus & Hj & Hjlow & Hjup).
  destruct (locate_state_Return _ _ _ _ _ Hfp Hcp Hgp)
    as (k & plus_k & Hplus & Hk & Hklow & Hkup).
  set (m := gm - sum_list (map length (take j minus_trajs))) in *.
  set (p := gp - sum_list (map length (take k plus_trajs))) in *.
  assert (m < length minus_j) as Hm by lia.
  assert (p < length plus_k) as Hp by lia.
  pose proof (construct_TP_plan_shape _ _ _ _ _ _ _ _ _ _ _ Hminus Hj Hplus Hk) as Hplan.
  pose proof (minus_reads _ _ _ _ Hj Hm) as Hmr.
  replace (sum_list (map length (take j minus_trajs)) + S m) with (S gm) in Hmr by lia.
  assert (gm < length (concat minus_trajs)) as Hgm_lt.
  { destruct Hgm as [Hg _]. apply lookup_lt_Some in Hg.
    by rewrite length_concat, consistent_single, <- length_concat in Hg. }
  assert (gp < length (concat plus_trajs)) as Hgp_lt.
  { destruct Hgp as [Hg _]. apply lookup_lt_Some in Hg.
    by rewrite length_concat, consistent_single, <- length_concat in Hg. }
  assert ((∀ first, plus_trajs !! 0 = Some first → first ≠ []) →
          concatenate (take (S k) plus_trajs) (plus_slices k (Z.of_nat p))
          = Return (drop 1 (take (S gp) (concat plus_trajs)))
          ∧ construct_TP_from_plus_and_minus_traj_segments minus_trajs minus_state
              plus_trajs plus_state state_funcs
            = Return (reverse (take (S gm) (concat minus_trajs))
                      ++ drop 1 (take (S gp) (concat plus_trajs)))
          ∧ length (reverse (take (S gm) (concat minus_trajs))
                    ++ drop 1 (take (S gp) (concat plus_trajs)))
            = S gm + gp) as Hjoin.
  { intros Hfirst. pose proof (plus_reads _ _ _ _ Hk Hp Hfirst) as Hpr.
    replace (sum_list (map length (take k plus_trajs)) + S p) with (S gp) in Hpr by lia.
    split_and!; [done| |].
    - unfold construct_TP_from_plus_and_minus_traj_segments. rewrite Hplan.
      cbn [mbind result_bind bind]. apply concatenate_app; [|done..].
      unfold minus_slices. cbn [length].
      rewrite length_reverse, length_replicate. f_equal.
      apply length_take_le. apply lookup_lt_Some in Hj. lia.
    - rewrite length_app, length_reverse, length_drop, !length_take. lia. }
  exists j, m, minus_j, k, p, plus_k.
  split_and!; [done | done | lia | done | done | lia | done | done | done |].
  intros Hml Hpl -> ->. eexists. split; [apply Hjoin|].
  - intros first H0. intros ->.
    assert (map length plus_trajs !! 0 = Some 0) as Hlen0 by (by rewrite lookup_map, H0).
    rewrite Hpl in Hlen0. done.
  - rewrite length_app, length_reverse, length_drop, !length_take. lia.
Qed.
End ConstructFacts.

(** * The statements on the demo engine and on the two-way example *)

Lemma first_fullfilled_sound (m : Np.Matrix) c g :
  first_fullfilled m = Return (c, g) → first_true_at m c g.
Proof.
  intros Hret.
  destruct (Np.nonzero_from 0 m) as [|[c0 g0] nz] eqn:Hnz.
  { unfold first_fullfilled, Np.where2 in Hret. rewrite Hnz in Hret. done. }
  destruct (first_fullfilled_Return m) as (c' & g' & Hret' & Hspec).
  { exists c0, g0. apply elem_of_nonzero. rewrite Hnz. by left. }
  rewrite Hret in Hret'. by injection Hret' as <- <-.
Qed.

Lemma locator_selects_first_fulfilment_witness :
  (∃ c g seg local last,
     cut_locate Demo.completion Demo.committing Demo.parts = Return (c, g, seg, local)
     ∧ first_true_at (values_along (conditions Demo.committing) Demo.parts) c g
     ∧ Demo.parts !! seg = Some last
     ∧ (0 ≤ local < Z.of_nat (length last))%Z
     ∧ (Z.of_nat (sum_list (map length (take seg Demo.parts))) + local = Z.of_nat g)%Z)
  ∧ (∃ c g,
       propagate Demo.get_all_traj_parts Demo.completion 2 Demo.committing
         Demo.starting_configuration "wd" "run" false
       = Some (Return ([[1; 2; 3]; [4; 5; 6]], c),
               [CallEngineCls; CallPrepare; CallRunWalltime; CallRunWalltime])
       ∧ first_true_at (values_on (conditions Demo.committing) [4; 5; 6]) c g)
  ∧ (∃ front last g,
       [[1; 2; 3]; [4; 5; 6]] = front ++ [last]
       ∧ first_true_at (values_on (conditions Demo.committing) last) 1 g).
Proof.
  destruct (locator_selects_first_fulfilment (E := nat)
              Demo.get_all_traj_parts Demo.completion) as (H1 & H2 & H3).
  split_and!.
  - apply H1; [demo_consistent|]. exists 1, 4. eexists. split; reflexivity.
  - refine (H2 Demo.committing Demo.starting_configuration "wd"%string
              "run"%string false
              (fresh_start Demo.starting_configuration "wd" "run" 0
                 (values_on (conditions Demo.committing)
                    Demo.starting_configuration))
              1 0 _ _ _ _ _).
    + demo_quiet.
    + reflexivity.
    + intros [|[|i]] Hi; [reflexivity | reflexivity | lia].
    + intros [|i] Hi; [demo_quiet | lia].
    + split; [demo_consistent | reflexivity].
  - apply (H3 10 Demo.committing Demo.starting_configuration "wd"%string
             "run"%string false
             [[1; 2; 3]; [4; 5; 6]] 1
             [CallEngineCls; CallPrepare; CallRunWalltime; CallRunWalltime]).
    + vm_compute. reflexivity.
    + apply list_elem_of_further, list_elem_of_further, list_elem_of_here.
Defined.

Lemma cut_plan_takes_parts_up_to_address_witness :
  ∃ last,
    Demo.parts !! 1 = Some last
    ∧ take (1 + 1) Demo.parts = take 1 Demo.parts ++ [last]
    ∧ cut_and_concatenate_plan Demo.completion Demo.committing Demo.parts
      = Return (take (1 + 1) Demo.parts,
                replicate 1 (0%Z, None, 1%Z) ++ [(0%Z, Some (1 + 1)%Z, 1%Z)],
                1)
    ∧ concatenate (take (1 + 1) Demo.parts)
        (replicate 1 (0%Z, None, 1%Z) ++ [(0%Z, Some (1 + 1)%Z, 1%Z)])
      = Return (concat (take 1 Demo.parts) ++ take (S (Z.to_nat 1)) last).
Proof.
  apply (cut_plan_takes_parts_up_to_address Demo.completion Demo.committing
           Demo.parts 1 4 1 1%Z).
  vm_compute. reflexivity.
Defined.

Lemma single_segment_cut_has_k_plus_1_frames_witness :
  cut_and_concatenate_plan Demo.completion Demo.committing [[4; 5; 6]]
  = Return ([[4; 5; 6]], [(0%Z, Some (Z.of_nat 1 + 1)%Z, 1%Z)], 1)
  ∧ cut_and_concatenate Demo.completion Demo.committing [[4; 5; 6]]
    = Return (take 2 [4; 5; 6], 1)
  ∧ length (take 2 [4; 5; 6]) = 1 + 1.
Proof.
  apply (single_segment_cut_has_k_plus_1_frames Demo.completion Demo.committing
           [4; 5; 6] 1 1).
  - demo_consistent.
  - apply first_fullfilled_sound. reflexivity.
Defined.

Lemma cut_defined_iff_some_condition_true_witness :
  (∃ c g seg local last,
     cut_locate Demo.completion Demo.committing Demo.parts = Return (c, g, seg, local)
     ∧ true_at (values_along (conditions Demo.committing) Demo.parts) c g
     ∧ seg < length Demo.parts
     ∧ Demo.parts !! seg = Some last
     ∧ (0 ≤ local < Z.of_nat (length last))%Z
     ∧ cut_and_concatenate Demo.completion Demo.committing Demo.parts
       = Return (concat (take seg Demo.parts) ++ take (S (Z.to_nat local)) last, c))
  ∧ (first_fullfilled (values_along (conditions Demo.wandering) Demo.parts)
     = Raise ValueError
     ∧ ∃ e, cut_and_concatenate Demo.completion Demo.wandering Demo.parts = Raise e
            ∧ (conditions Demo.wandering ≠ [] → e = ValueError)).
Proof.
  split.
  - apply (cut_defined_iff_some_condition_true Demo.completion Demo.committing
             Demo.parts); [demo_consistent|].
    exists 1, 4. eexists. split; reflexivity.
  - apply (cut_defined_iff_some_condition_true Demo.completion Demo.wandering
             Demo.parts); [demo_consistent|].
    intros c g. apply any_false. reflexivity.
Defined.

Lemma propagate_raises_iff_budget_exceeded_first_witness :
  propagate Demo.get_all_traj_parts Demo.completion 2 Demo.wandering
    Demo.starting_configuration "wd" "run" false
  = Some (Raise (MaxStepsReachedError 200 (Steps 150)),
          [CallEngineCls; CallPrepare; CallRunWalltime; CallRunWalltime])
  ∧ ∃ c g,
      propagate Demo.get_all_traj_parts Demo.completion 2 Demo.committing
        Demo.starting_configuration "wd" "run" false
      = Some (Return ([[1; 2; 3]; [4; 5; 6]], c),
              [CallEngineCls; CallPrepare; CallRunWalltime; CallRunWalltime])
      ∧ first_true_at (values_on (conditions Demo.committing) [4; 5; 6]) c g.
Proof.
  split.
  - refine (proj1 (propagate_raises_iff_budget_exceeded_first
             Demo.get_all_traj_parts Demo.completion Demo.wandering
             Demo.starting_configuration "wd" "run" false
             (fresh_start Demo.starting_configuration "wd" "run" 0
                (values_on (conditions Demo.wandering) Demo.starting_configuration))
             2 0 _ _ _ _) 150%Z _ _).
    + demo_quiet.
    + reflexivity.
    + intros [|[|i]] Hi; [reflexivity | reflexivity | lia].
    + intros [|[|i]] Hi; [demo_quiet | demo_quiet | lia].
    + reflexivity.
    + vm_compute. reflexivity.
  - refine (proj2 (propagate_raises_iff_budget_exceeded_first
             Demo.get_all_traj_parts Demo.completion Demo.committing
             Demo.starting_configuration "wd" "run" false
             (fresh_start Demo.starting_configuration "wd" "run" 0
                (values_on (conditions Demo.committing) Demo.starting_configuration))
             1 0 _ _ _ _) _ _).
    + demo_quiet.
    + reflexivity.
    + intros [|i] Hi; [reflexivity | lia].
    + intros [|i] Hi; [demo_quiet | lia].
    + reflexivity.
    + split; [demo_consistent | reflexivity].
Defined.

Lemma propagate_returns_fulfilling_start_witness :
  ∃ c g,
    propagate Demo.get_all_traj_parts Demo.completion 0 Demo.committed
      Demo.starting_configuration "wd" "run" true
    = Some (Return ([Demo.starting_configuration], c), [])
    ∧ first_true_at (values_on (conditions Demo.committed) Demo.starting_configuration) c g.
Proof.
  apply (propagate_returns_fulfilling_start Demo.get_all_traj_parts Demo.completion
           0 Demo.committed Demo.starting_configuration "wd" "run" true).
  split; [demo_consistent | reflexivity].
Defined.

(** C7, as stated, fails on a continuation call whose starting
    configuration already fulfils a condition: the segments on disk are
    not recovered, and although a condition is true on them the call
    returns the starting configuration, not the recovered list. *)
Lemma continuation_on_fulfilling_start_skips_recovery :
  (∃ c g, true_at (values_along (conditions Demo.committed)
                     (Demo.get_all_traj_parts "wd" "run"
                        (engine_cls (engine_kwargs Demo.committed)))) c g)
  ∧ propagate Demo.get_all_traj_parts Demo.completion 10 Demo.committed
      Demo.starting_configuration "wd" "run" true
    = Some (Return ([Demo.starting_configuration], 1), [])
  ∧ [Demo.starting_configuration]
    ≠ Demo.get_all_traj_parts "wd" "run" (engine_cls (engine_kwargs Demo.committed))
  ∧ CallGetAllTrajParts ∉ @nil EngineCall.
Proof.
  split_and!.
  - exists 1, 0. eexists. split; reflexivity.
  - vm_compute. reflexivity.
  - discriminate.
  - apply not_elem_of_nil.
Qed.

Lemma continuation_returns_recovered_or_reattaches_witness :
  (∃ c g,
     propagate Demo.get_all_traj_parts Demo.completion 0 Demo.committing
       Demo.starting_configuration "wd" "run" true
     = Some (Return (Demo.parts, c), [CallEngineCls; CallGetAllTrajParts])
     ∧ first_true_at (values_along (conditions Demo.committing) Demo.parts) c g)
  ∧ propagate Demo.get_all_traj_parts Demo.completion 5 Demo.resuming
      Demo.starting_configuration "wd" "run" true
    = run_loop Demo.completion 5 Demo.resuming
        {| ls_engine := 2;
           ls_any_cond_fullfilled := false;
           ls_cond_vals := values_along (conditions Demo.resuming) Demo.parts;
           ls_trajs := Demo.parts;
           ls_step_counter := 200;
           ls_calls := [CallEngineCls; CallGetAllTrajParts; CallPrepareFromFiles] |}.
Proof.
  split.
  - apply (continuation_returns_recovered_or_reattaches Demo.get_all_traj_parts
             Demo.completion 0 Demo.committing Demo.starting_configuration "wd" "run");
      [demo_quiet | done | done | demo_consistent |].
    exists 1, 4. eexists. split; reflexivity.
  - refine (proj2 (continuation_returns_recovered_or_reattaches
                     Demo.get_all_traj_parts Demo.completion 5 Demo.resuming
                     Demo.starting_configuration "wd" "run" _ _ _ _) _);
      [demo_quiet | done | done | demo_consistent |].
    intros c g. apply any_false. reflexivity.
Defined.

Lemma evaluator_keeps_condition_order_witness :
  ∃ evs,
    condition_vals_with_events (conditions Demo.resuming)
      (_condition_func_is_coroutine Demo.resuming) [0] [7; 8; 9]
    = Return (values_on (conditions Demo.resuming) [7; 8; 9], evs)
    ∧ _condition_vals_for_traj Demo.completion Demo.resuming [7; 8; 9]
      = Return (values_on (conditions Demo.resuming) [7; 8; 9])
    ∧ (∀ i c, conditions Demo.resuming !! i = Some c →
         values_on (conditions Demo.resuming) [7; 8; 9] !! i = Some (call c [7; 8; 9]))
    ∧ sync_calls evs = sync_positions (conditions Demo.resuming)
    ∧ coro_completions evs ≡ₚ coro_positions (conditions Demo.resuming).
Proof.
  apply (evaluator_keeps_condition_order Demo.completion Demo.resuming [0] [7; 8; 9]).
Defined.

Lemma init_resolves_step_budget_witness :
  ∃ self,
    init Demo.nstout_from_mdconfig [Demo.reached 5] Demo.kwargs tt None (Some 7%Z)
    = Return self
    ∧ conditions self = [Demo.reached 5]
    ∧ (∀ s, @None Z = Some s → max_steps self = Steps s)
    ∧ (∀ f, @None Z = None → Some 7%Z = Some f →
         max_steps self = Steps (f * Demo.nstout_from_mdconfig tt "xtc"))
    ∧ (@None Z = None → Some 7%Z = None →
         max_steps self = Infinity
         ∧ ∀ step_counter, within_budget step_counter (max_steps self) = true).
Proof.
  apply (init_resolves_step_budget Demo.nstout_from_mdconfig [Demo.reached 5]
           Demo.kwargs tt None (Some 7%Z) tt).
  reflexivity.
Defined.

Lemma transition_plan_joins_chains_at_shared_start_witness :
  ∃ frames,
    construct_TP_from_plus_and_minus_traj_segments TwoWayExample.minus_trajs 0
      TwoWayExample.plus_trajs 1 [TwoWayExample.state_A; TwoWayExample.state_B]
    = Return frames
    ∧ length frames = 4.
Proof.
  destruct (transition_plan_joins_chains_at_shared_start
              TwoWayExample.minus_trajs 0 TwoWayExample.plus_trajs 1
              [TwoWayExample.state_A; TwoWayExample.state_B]
              TwoWayExample.state_A TwoWayExample.state_B 2 1)
    as (j & m & minus_j & k & p & plus_k & _ & _ & _ & _ & _ & Hexample).
  - reflexivity.
  - reflexivity.
  - demo_consistent.
  - demo_consistent.
  - split; [reflexivity|]. intros [|[|g']] Hg'; [discriminate.. | lia].
  - split; [reflexivity|]. intros [|g'] Hg'; [discriminate | lia].
  - apply Hexample; reflexivity.
Defined.

(** A continuation call for a run without segments on disk does not reach
    [prepare_from_files]: concatenating no arrays raises. *)
Example continuation_without_parts_raises :
  propagate (λ _ _ _, []) Demo.completion 5 Demo.resuming
    Demo.starting_configuration "wd" "run" true
  = Some (Raise ValueError, [CallEngineCls; CallGetAllTrajParts]).
Proof. vm_compute. reflexivity. Qed.

(** * Further properties of the propagation loop *)

Section LoopInversion.
Context {Frame MDConfig Hours E : Type} `{!MDEngine Frame MDConfig Hours E}.
Variable get_all_traj_parts : string → string → E → list (Trajectory Frame).
Variable completion : Trajectory Frame → list nat.
Implicit Types (self : @ConditionalTrajectoryPropagator Frame MDConfig Hours).
Implicit Types (s : @LoopState Frame E) (t : Trajectory Frame).
Implicit Types (trajs : list (Trajectory Frame)).

Lemma asarray_Raise (c : list (list bool)) e : Np.asarray c = Raise e → e = ValueError.
Proof. unfold Np.asarray. destruct (Np.rectangular c); [done | by intros [= <-]]. Qed.

Lemma asarray_Return (c m : Np.Matrix) :
  Np.asarray c = Return m → m = c ∧ Np.rectangular c = true.
Proof. unfold Np.asarray. destruct (Np.rectangular c); [by intros [= <-] | done]. Qed.

Lemma counter_after_shift self s s1 i :
  ls_engine s1 = engine_after self 1 (ls_engine s) →
  ls_step_counter s1 = steps_done (engine_after self 1 (ls_engine s)) →
  counter_after self s1 i = counter_after self s (S i).
Proof.
  intros He Hc. destruct i as [|i]; cbn [counter_after]; [done|].
  by rewrite He, engine_after_shift.
Qed.

(** What a run of the loop that ends in a state has done: [k] turns, each
    within the budget, each on a segment of well-shaped condition values,
    all but the last without a true condition. *)
Lemma stepping_account fuel self : ∀ s s',
  stepping completion fuel self s = Some (inl s') →
  ∃ k,
    k ≤ fuel
    ∧ ls_engine s' = engine_after self k (ls_engine s)
    ∧ ls_trajs s' = ls_trajs s ++ map (λ i, segment self i (ls_engine s)) (seq 0 k)
    ∧ ls_calls s' = ls_calls s ++ replicate k CallRunWalltime
    ∧ ls_step_counter s' = counter_after self s k
    ∧ (∀ i, i < k → within_budget (counter_after self s i) (max_steps self) = true)
    ∧ (∀ i, S i < k →
         Np.any (values_on (conditions self) (segment self i (ls_engine s))) = false)
    ∧ (∀ i, i < k →
         Np.rectangular (values_on (conditions self) (segment self i (ls_engine s))) = true)
    ∧ (0 < k → ls_any_cond_fullfilled s = false)
    ∧ match k with
      | O => s' = s
      | S k' =>
          ls_cond_vals s' = values_on (conditions self) (segment self k' (ls_engine s))
          ∧ ls_any_cond_fullfilled s'
            = Np.any (values_on (conditions self) (segment self k' (ls_engine s)))
      end
    ∧ (ls_any_cond_fullfilled s' = false →
       within_budget (ls_step_counter s') (max_steps self) = false).
Proof.
  induction fuel as [|fuel IH]; intros s s'; rewrite stepping_unfold;
    destruct (negb _ && _) eqn:Hgo; try done.
  1,3: intros [= <-]; exists 0; cbn [seq map replicate counter_after engine_after];
    rewrite !app_nil_r; split_and!; try done; try (intros; lia);
    intros Hany; rewrite Hany in Hgo; by cbn in Hgo.
  apply andb_prop in Hgo as [Hany Hwithin]. apply negb_true_iff in Hany.
  pose proof (eq_refl : segment self 0 (ls_engine s)
                        = (run_walltime (walltime_per_part self) (ls_engine s)).1) as Hseg.
  pose proof (eq_refl : engine_after self 1 (ls_engine s)
                        = (run_walltime (walltime_per_part self) (ls_engine s)).2) as Heng.
  destruct (run_walltime _ _) as [traj engine]. cbn [fst snd] in Hseg, Heng.
  subst traj engine.
  rewrite condition_vals_for_traj_values. cbn [mbind result_bind bind].
  destruct (Np.asarray _) as [cv|e] eqn:Hcv; [|done].
  apply asarray_Return in Hcv as [-> Hrect].
  intros Hstep. apply IH in Hstep
    as (k & Hk & He & Htrajs & Hcalls & Hcounter & Hwith & Hquiet & Hshape & Hpos
        & Hlast & Hexit).
  cbn [ls_engine ls_trajs ls_calls ls_step_counter ls_any_cond_fullfilled] in *.
  set (s1 := {| ls_engine := engine_after self 1 (ls_engine s) |}) in *.
  assert (∀ i, counter_after self s1 i = counter_after self s (S i)) as Hshift.
  { intros i. by apply counter_after_shift. }
  exists (S k). split_and!.
  - lia.
  - by rewrite He, engine_after_shift.
  - rewrite Htrajs, <- app_assoc. f_equal. cbn [seq map]. f_equal.
    rewrite <- seq_shift, map_map. apply map_ext. intros i. apply segment_shift.
  - rewrite Hcalls, <- app_assoc. done.
  - by rewrite Hcounter, Hshift.
  - intros [|i] Hi; [done|]. rewrite <- Hshift. apply Hwith. lia.
  - intros [|i] Hi.
    + apply Hpos. lia.
    + rewrite <- segment_shift. apply Hquiet. lia.
  - intros [|i] Hi; [done|]. rewrite <- segment_shift. apply Hshape. lia.
  - done.
  - destruct k as [|k']; [by subst s'|]. rewrite <- segment_shift. apply Hlast.
  - destruct k as [|k']; [by subst s'|]. rewrite <- segment_shift. apply Hlast.
  - done.
Qed.

(** A run of the loop that ends in an exception has requested at least one
    segment, and the exception is numpy's. *)
Lemma stepping_exception fuel self : ∀ s e calls,
  stepping completion fuel self s = Some (inr (e, calls)) →
  e = ValueError ∧ ∃ k, calls = ls_calls s ++ replicate (S k) CallRunWalltime.
Proof.
  induction fuel as [|fuel IH]; intros s e calls; rewrite stepping_unfold;
    destruct (negb _ && _) eqn:Hgo; try done.
  destruct (run_walltime _ _) as [traj engine].
  rewrite condition_vals_for_traj_values. cbn [mbind result_bind bind].
  destruct (Np.asarray _) as [cv|e'] eqn:Hcv.
  - intros (-> & k & ->)%IH. split; [done|]. exists (S k).
    cbn [ls_calls]. rewrite <- app_assoc. done.
  - intros [= <- <-]. split; [by eapply asarray_Raise|]. by exists 0.
Qed.
End LoopInversion.

(** ** Condition values along joined lists of segments *)

Section AlongFacts.
Context {Frame : Type}.
Implicit Types (conds : list (Condition Frame)) (A B trajs : list (Trajectory Frame)).

Lemma length_values_along conds trajs :
  length (values_along conds trajs) = length conds.
Proof. apply length_map. Qed.

Lemma true_at_row_bound (m : Np.Matrix) c g : true_at m c g → c < length m.
Proof. intros (row & Hrow & _). by eapply lookup_lt_Some. Qed.

Lemma true_at_along conds trajs c g :
  true_at (values_along conds trajs) c g
  ↔ ∃ cond, conds !! c = Some cond ∧ concat (map (call cond) trajs) !! g = Some true.
Proof.
  unfold true_at, values_along. split.
  - intros (row & Hrow & Hg). rewrite lookup_map in Hrow.
    destruct (conds !! c) as [cond|]; [|done]. injection Hrow as <-. eauto.
  - intros (cond & Hc & Hg). eexists. rewrite lookup_map, Hc. done.
Qed.

Lemma true_at_on conds (t : Trajectory Frame) c g :
  true_at (values_on conds t) c g
  ↔ ∃ cond, conds !! c = Some cond ∧ call cond t !! g = Some true.
Proof.
  unfold true_at, values_on. split.
  - intros (row & Hrow & Hg). rewrite lookup_map in Hrow.
    destruct (conds !! c) as [cond|]; [|done]. injection Hrow as <-. eauto.
  - intros (cond & Hc & Hg). eexists. rewrite lookup_map, Hc. done.
Qed.

Lemma length_joined_calls conds (cond : Condition Frame) trajs :
  well_behaved conds → cond ∈ conds →
  length (concat (map (call cond) trajs)) = length (concat trajs).
Proof.
  intros Hwb Hin. induction trajs as [|t trajs IH]; [done|].
  cbn. rewrite !length_app, IH, Hwb by done. done.
Qed.

Lemma well_behaved_consistent conds trajs : well_behaved conds → consistent conds trajs.
Proof. intros Hwb c t Hc _. by apply Hwb. Qed.

(** A true entry along [A ++ B] lies in [A], or past it in [B]. *)
Lemma true_at_along_app conds A B c g :
  well_behaved conds →
  true_at (values_along conds (A ++ B)) c g
  ↔ true_at (values_along conds A) c g
    ∨ (length (concat A) ≤ g
       ∧ true_at (values_along conds B) c (g - length (concat A))).
Proof.
  intros Hwb. rewrite !true_at_along. split.
  - intros (cond & Hc & Hg). rewrite map_app, concat_app in Hg.
    pose proof (length_joined_calls conds cond A Hwb
                  (list_elem_of_lookup_2 _ _ _ Hc)) as Hlen.
    apply lookup_app_Some in Hg as [Hg|[Hle Hg]].
    + left. eauto.
    + right. rewrite Hlen in Hle, Hg. split; [done|]. eauto.
  - intros [(cond & Hc & Hg)|(Hle & cond & Hc & Hg)]; exists cond; split; try done;
      rewrite map_app, concat_app; apply lookup_app_Some.
    + by left.
    + right. by rewrite (length_joined_calls conds cond A Hwb
                           (list_elem_of_lookup_2 _ _ _ Hc)).
Qed.

(** A true entry along a list of segments lies on one of them. *)
Lemma true_at_along_segment conds trajs c g :
  true_at (values_along conds trajs) c g →
  ∃ t g', t ∈ trajs ∧ true_at (values_on conds t) c g'.
Proof.
  rewrite true_at_along. intros (cond & Hc & Hg).
  revert g Hg. induction trajs as [|t trajs IH]; intros g Hg; [done|].
  cbn in Hg. apply lookup_app_Some in Hg as [Hg|[_ Hg]].
  - exists t, g. split; [by left|]. apply true_at_on. eauto.
  - destruct (IH _ Hg) as (t' & g' & Hin & Ht). exists t', g'. split; [by right | done].
Qed.

Lemma quiet_segments_along conds trajs :
  Forall (λ t, Np.any (values_on conds t) = false) trajs →
  ∀ c g, ¬ true_at (values_along conds trajs) c g.
Proof.
  intros Hall c g (t & g' & Hin & Ht)%true_at_along_segment.
  rewrite Forall_forall in Hall. eapply any_false; [|done]. by apply Hall.
Qed.

(** A segment on which a condition is true makes it true along the list. *)
Lemma true_at_segment_along conds trajs (t : Trajectory Frame) c g :
  t ∈ trajs → true_at (values_on conds t) c g →
  ∃ g', true_at (values_along conds trajs) c g'.
Proof.
  intros Hin (cond & Hc & Hg)%true_at_on.
  assert (∃ g', concat (map (call cond) trajs) !! g' = Some true) as [g' Hg'].
  { induction trajs as [|t' trajs IH]; [by apply elem_of_nil in Hin|].
    apply elem_of_cons in Hin as [->|Hin].
    - exists g. cbn. by apply lookup_app_l_Some.
    - destruct (IH Hin) as [g' Hg']. exists (length (call cond t') + g'). cbn.
      rewrite lookup_app_r by lia. rewrite <- Hg'. f_equal. lia. }
  exists g'. apply true_at_along. eauto.
Qed.

Lemma along_quiet_segments conds trajs :
  (∀ c g, ¬ true_at (values_along conds trajs) c g) →
  Forall (λ t, Np.any (values_on conds t) = false) trajs.
Proof.
  intros Hnone. apply Forall_forall. intros t Hin.
  destruct (Np.any (values_on conds t)) eqn:Hany; [|done].
  apply any_true_at in Hany as (c & g & Ht).
  destruct (true_at_segment_along conds trajs t c g Hin Ht) as [g' Hg'].
  by destruct (Hnone c g').
Qed.

Lemma first_true_at_app_l conds A B c g :
  well_behaved conds →
  first_true_at (values_along conds A) c g →
  first_true_at (values_along conds (A ++ B)) c g.
Proof.
  intros Hwb (Ht & Hmin & Hlow).
  assert (g < length (concat A)) as Hg.
  { rewrite length_concat. eapply true_at_along_bound; [|done].
    by apply well_behaved_consistent. }
  split_and!.
  - apply true_at_along_app; auto.
  - intros c' g' [Ht'|[Hle _]]%true_at_along_app; [eauto | lia | done].
  - intros c' [Ht'|[Hle _]]%true_at_along_app; [eauto | lia | done].
Qed.

Lemma first_true_at_app_r conds A B c g :
  well_behaved conds →
  (∀ c' g', ¬ true_at (values_along conds A) c' g') →
  first_true_at (values_along conds B) c g →
  first_true_at (values_along conds (A ++ B)) c (length (concat A) + g).
Proof.
  intros Hwb Hnone (Ht & Hmin & Hlow). split_and!.
  - apply true_at_along_app; [done|]. right. split; [lia|].
    by replace (length (concat A) + g - length (concat A)) with g by lia.
  - intros c' g' [Ht'|[Hle Ht']]%true_at_along_app; [by destruct (Hnone c' g')| |done].
    apply Hmin in Ht'. lia.
  - intros c' [Ht'|[Hle Ht']]%true_at_along_app;
      [by destruct (Hnone c' (length (concat A) + g))| |done].
    apply Hlow. by replace (length (concat A) + g - length (concat A)) with g in Ht' by lia.
Qed.

Lemma values_along_one conds (t : Trajectory Frame) :
  values_along conds [t] = values_on conds t.
Proof.
  unfold values_along, values_on. apply map_ext. intros c. cbn. apply app_nil_r.
Qed.
End AlongFacts.

(** ** What [propagate] has done when it returns or raises *)

Section PropagateInversion.
Context {Frame MDConfig Hours E : Type} `{!MDEngine Frame MDConfig Hours E}.
Variable get_all_traj_parts : string → string → E → list (Trajectory Frame).
Variable completion : Trajectory Frame → list nat.
Implicit Types (self : @ConditionalTrajectoryPropagator Frame MDConfig Hours).
Implicit Types (s : @LoopState Frame E) (t : Trajectory Frame).
Implicit Types (trajs : list (Trajectory Frame)).

Lemma mapM_Raise {A B} (f : A → Result B) (l : list A) e :
  mapM f l = Raise e → ∃ x, x ∈ l ∧ f x = Raise e.
Proof.
  induction l as [|x l IH]; [done|].
  change (mapM f (x :: l)) with (y ← f x; k ← mapM f l; mret (y :: k)).
  destruct (f x) as [y|e'] eqn:Hx.
  - cbn [mbind result_bind bind]. destruct (mapM f l) as [k|e'] eqn:Hl; [done|].
    intros [= ->]. destruct (IH eq_refl) as (x' & Hin & Hx'). exists x'.
    split; [by right | done].
  - intros [= ->]. exists x. split; [by left | done].
Qed.

Lemma mapM_asarray_inv (l arrays : list Np.Matrix) :
  mapM Np.asarray l = Return arrays → arrays = l.
Proof.
  revert arrays. induction l as [|c l IH]; intros arrays; [by intros [= <-]|].
  change (mapM Np.asarray (c :: l))
    with (y ← Np.asarray c; k ← mapM Np.asarray l; mret (y :: k)).
  intros (y & Hy & H)%bind_inv. apply bind_inv in H as (k & Hk & [= <-]).
  apply asarray_inv in Hy as ->. f_equal. by apply IH.
Qed.

Lemma concatenate1_Raise (arrays : list Np.Matrix) e :
  Np.concatenate1 arrays = Raise e → e = ValueError.
Proof.
  unfold Np.concatenate1. destruct arrays as [|a rest]; [by intros [= <-]|].
  destruct (_ && _); [done | by intros [= <-]].
Qed.

Lemma concatenate1_inv (conds : list (Condition Frame)) trajs m :
  Np.concatenate1 (map (values_on conds) trajs) = Return m →
  m = values_along conds trajs.
Proof.
  intros Hm. destruct trajs as [|t trajs]; [done|].
  destruct conds as [|c conds]; [done|].
  rewrite concatenate1_values in Hm by done. by injection Hm as <-.
Qed.

Lemma first_fullfilled_error (m : Np.Matrix) e :
  first_fullfilled m = Raise e → e = ValueError ∨ e = IndexError.
Proof.
  unfold first_fullfilled. destruct (Np.where2 m) as [cs fs].
  destruct (Np.argmin fs) as [i|e'] eqn:Hi.
  - cbn [mbind result_bind bind]. unfold getitem.
    destruct (cs !! i); cbn [mbind result_bind bind]; [|intros [= <-]; by right].
    destruct (fs !! i); cbn [mbind result_bind bind]; [done|intros [= <-]; by right].
  - intros [= ->]. destruct fs; [injection Hi as <-; by left | done].
Qed.

Lemma continue_from_files_unfold self workdir deffnm (engine : E) :
  let trajs := get_all_traj_parts workdir deffnm engine in
  continue_from_files get_all_traj_parts completion self workdir deffnm engine
  = (arrays ← mapM Np.asarray (map (values_on (conditions self)) trajs);
     cond_vals ← Np.concatenate1 arrays;
     if Np.any cond_vals then
       '(first_condition_fullfilled, _) ← first_fullfilled cond_vals;
       Return (inl (trajs, first_condition_fullfilled))
     else
       Return (inr {| ls_engine := prepare_from_files workdir deffnm engine;
                      ls_any_cond_fullfilled := Np.any cond_vals;
                      ls_cond_vals := cond_vals;
                      ls_trajs := trajs;
                      ls_step_counter :=
                        steps_done (prepare_from_files workdir deffnm engine);
                      ls_calls := [CallEngineCls; CallGetAllTrajParts;
                                   CallPrepareFromFiles] |})).
Proof.
  intros trajs. unfold continue_from_files. fold trajs.
  rewrite (mapM_Return _ (values_on (conditions self)))
    by (intros; apply condition_vals_for_traj_values).
  done.
Qed.

Lemma continue_from_files_early self workdir deffnm (engine : E) trajs c :
  continue_from_files get_all_traj_parts completion self workdir deffnm engine
  = Return (inl (trajs, c)) →
  trajs = get_all_traj_parts workdir deffnm engine
  ∧ ∃ g, first_true_at (values_along (conditions self) trajs) c g.
Proof.
  rewrite continue_from_files_unfold.
  intros (arrays & Harr & H)%bind_inv. apply bind_inv in H as (m & Hm & H).
  apply mapM_asarray_inv in Harr as ->. apply concatenate1_inv in Hm as ->.
  destruct (Np.any _); [|done].
  apply bind_inv in H as ([c' g] & Hfirst & [= <- <-]).
  split; [done|]. exists g. by apply first_fullfilled_sound.
Qed.

Lemma continue_from_files_loop self workdir deffnm (engine : E) s :
  continue_from_files get_all_traj_parts completion self workdir deffnm engine
  = Return (inr s) →
  let trajs := get_all_traj_parts workdir deffnm engine in
  ls_engine s = prepare_from_files workdir deffnm engine
  ∧ ls_trajs s = trajs
  ∧ ls_step_counter s = steps_done (prepare_from_files workdir deffnm engine)
  ∧ ls_calls s = [CallEngineCls; CallGetAllTrajParts; CallPrepareFromFiles]
  ∧ ∀ c g, ¬ true_at (values_along (conditions self) trajs) c g.
Proof.
  rewrite continue_from_files_unfold.
  intros (arrays & Harr & H)%bind_inv. apply bind_inv in H as (m & Hm & H).
  apply mapM_asarray_inv in Harr as ->. apply concatenate1_inv in Hm as ->.
  destruct (Np.any _) eqn:Hany.
  - apply bind_inv in H as ([c' g] & _ & H). done.
  - injection H as <-. cbn. split_and!; try done. intros c g. by apply any_false.
Qed.

Lemma continue_from_files_error self workdir deffnm (engine : E) e :
  continue_from_files get_all_traj_parts completion self workdir deffnm engine
  = Raise e →
  e = ValueError ∨ e = IndexError.
Proof.
  rewrite continue_from_files_unfold.
  destruct (mapM Np.asarray _) as [arrays|e'] eqn:Harr.
  2:{ intros [= ->]. apply mapM_Raise in Harr as (x & _ & Hx).
      left. by eapply asarray_Raise. }
  cbn [mbind result_bind bind].
  destruct (Np.concatenate1 arrays) as [m|e'] eqn:Hm.
  2:{ intros [= ->]. left. by eapply concatenate1_Raise. }
  cbn [mbind result_bind bind]. destruct (Np.any m); [|done].
  destruct (first_fullfilled m) as [[c g]|e'] eqn:Hfirst; [done|].
  intros [= ->]. by eapply first_fullfilled_error.
Qed.

(** The state in which the loop is entered. *)
Lemma loop_entry_state self t workdir deffnm continuation cond_vals s :
  loop_entry get_all_traj_parts completion self t workdir deffnm continuation cond_vals
  = Return (inr s) →
  let engine := engine_cls (engine_kwargs self) in
  ls_any_cond_fullfilled s = false
  ∧ if continuation then
      let trajs := get_all_traj_parts workdir deffnm engine in
      ls_engine s = prepare_from_files workdir deffnm engine
      ∧ ls_trajs s = trajs
      ∧ ls_step_counter s = steps_done (prepare_from_files workdir deffnm engine)
      ∧ ls_calls s = [CallEngineCls; CallGetAllTrajParts; CallPrepareFromFiles]
      ∧ ∀ c g, ¬ true_at (values_along (conditions self) trajs) c g
    else s = fresh_start t workdir deffnm engine cond_vals.
Proof.
  intros Hentry engine. split; [by eapply loop_entry_any|].
  unfold loop_entry in Hentry. destruct continuation; cbn [negb] in Hentry.
  - by apply continue_from_files_loop.
  - by injection Hentry as <-.
Qed.

(** The ways in which [propagate] returns. *)
Lemma propagate_Return_cases fuel self t workdir deffnm continuation trajs c calls :
  propagate get_all_traj_parts completion fuel self t workdir deffnm continuation
  = Some (Return (trajs, c), calls) →
  (calls = [] ∧ trajs = [t] ∧ ∃ g, first_true_at (values_on (conditions self) t) c g)
  ∨ (continuation = true
     ∧ calls = [CallEngineCls; CallGetAllTrajParts]
     ∧ trajs = get_all_traj_parts workdir deffnm (engine_cls (engine_kwargs self))
     ∧ ∃ g, first_true_at (values_along (conditions self) trajs) c g)
  ∨ ∃ s0 k g,
      loop_entry get_all_traj_parts completion self t workdir deffnm continuation
        (values_on (conditions self) t)
      = Return (inr s0)
      ∧ k < fuel
      ∧ Np.any (values_on (conditions self) t) = false
      ∧ trajs = ls_trajs s0 ++ map (λ i, segment self i (ls_engine s0)) (seq 0 (S k))
      ∧ calls = ls_calls s0 ++ replicate (S k) CallRunWalltime
      ∧ (∀ i, i ≤ k → within_budget (counter_after self s0 i) (max_steps self) = true)
      ∧ (∀ i, i < k →
           Np.any (values_on (conditions self) (segment self i (ls_engine s0))) = false)
      ∧ first_true_at (values_on (conditions self) (segment self k (ls_engine s0))) c g.
Proof.
  unfold propagate. rewrite condition_vals_for_traj_values.
  cbn [mbind result_bind bind].
  destruct (Np.asarray _) as [cv|e] eqn:Hcv; [|done].
  apply asarray_inv in Hcv as ->.
  destruct (Np.any (values_on (conditions self) t)) eqn:Hstart.
  { intros [= Hret <-]. left. split_and!; [done| |].
    - apply bind_inv in Hret as ([c' g] & _ & [= <- _]). done.
    - apply bind_inv in Hret as ([c' g] & Hfirst & [= _ <-]).
      exists g. by apply first_fullfilled_sound. }
  destruct (loop_entry _ _ _ _ _ _ _ _) as [[[trajs' c']|s0]|e] eqn:Hentry; [| |done].
  { intros [= <- <- <-]. right. left.
    unfold loop_entry in Hentry. destruct continuation; cbn [negb] in Hentry; [|done].
    apply continue_from_files_early in Hentry as [-> Hfirst]. done. }
  intros Hrun. right. right. unfold run_loop in Hrun.
  destruct (stepping completion fuel self s0) as [[s'|[e calls']]|] eqn:Hstep; [|done..].
  injection Hrun as Hafter <-.
  pose proof (loop_entry_any _ _ _ _ _ _ _ _ _ Hentry) as Hany0.
  apply stepping_account in Hstep
    as (k & Hk & He & Htrajs & Hcalls & Hcounter & Hwith & Hquiet & Hshape & Hpos
        & Hlast & Hexit).
  unfold after_loop in Hafter.
  destruct (ls_any_cond_fullfilled s') eqn:Hany'; [|done]. cbn [negb] in Hafter.
  apply bind_inv in Hafter as ([c' g] & Hfirst & [= Htr <-]).
  destruct k as [|k]; [subst s'; congruence|].
  destruct Hlast as [Hvals _]. rewrite Hvals in Hfirst.
  exists s0, k, g. split_and!; [done | lia | done | by rewrite <- Htr | done | | |].
  - intros i Hi. apply Hwith. lia.
  - intros i Hi. apply Hquiet. lia.
  - by apply first_fullfilled_sound.
Qed.

(** [propagate] raises MaxStepsReachedError only out of its loop. *)
Lemma propagate_MaxSteps_cases fuel self t workdir deffnm continuation n m calls :
  propagate get_all_traj_parts completion fuel self t workdir deffnm continuation
  = Some (Raise (MaxStepsReachedError n m), calls) →
  ∃ s0 k,
    loop_entry get_all_traj_parts completion self t workdir deffnm continuation
      (values_on (conditions self) t)
    = Return (inr s0)
    ∧ k ≤ fuel
    ∧ m = max_steps self
    ∧ n = counter_after self s0 k
    ∧ within_budget n m = false
    ∧ calls = ls_calls s0 ++ replicate k CallRunWalltime
    ∧ (∀ i, i < k → within_budget (counter_after self s0 i) (max_steps self) = true)
    ∧ (∀ i, i < k →
         Np.any (values_on (conditions self) (segment self i (ls_engine s0))) = false).
Proof.
  unfold propagate. rewrite condition_vals_for_traj_values.
  cbn [mbind result_bind bind].
  destruct (Np.asarray _) as [cv|e] eqn:Hcv.
  2:{ intros [= -> _]. by apply asarray_Raise in Hcv. }
  apply asarray_inv in Hcv as ->.
  destruct (Np.any (values_on (conditions self) t)) eqn:Hstart.
  { intros [= Hret _].
    destruct (first_fullfilled _) as [[c g]|e] eqn:Hfirst; [done|].
    injection Hret as ->. by apply first_fullfilled_error in Hfirst as [|]. }
  destruct (loop_entry _ _ _ _ _ _ _ _) as [[[trajs' c']|s0]|e] eqn:Hentry; [done| |].
  2:{ intros [= -> _]. unfold loop_entry in Hentry.
      destruct continuation; cbn [negb] in Hentry; [|done].
      by apply continue_from_files_error in Hentry as [|]. }
  unfold run_loop.
  destruct (stepping completion fuel self s0) as [[s'|[e calls']]|] eqn:Hstep; [| |done].
  2:{ intros [= -> _]. by apply stepping_exception in Hstep as [? _]. }
  intros [= Hafter <-].
  apply stepping_account in Hstep
    as (k & Hk & He & Htrajs & Hcalls & Hcounter & Hwith & Hquiet & Hshape & Hpos
        & Hlast & Hexit).
  unfold after_loop in Hafter.
  destruct (ls_any_cond_fullfilled s') eqn:Hany'.
  { cbn [negb] in Hafter. destruct (first_fullfilled _) as [[c g]|e] eqn:Hfirst; [done|].
    injection Hafter as ->. by apply first_fullfilled_error in Hfirst as [|]. }
  injection Hafter as <- <-.
  exists s0, k. split_and!; [done | done | done | done | | done | done |].
  - by apply Hexit.
  - intros i Hi. destruct (decide (S i < k)) as [Hlt|Hge]; [by apply Hquiet|].
    assert (k = S i) as -> by lia. destruct Hlast as [_ <-]. done.
Qed.

(** The calls [propagate] has made, however it ends. *)
Lemma propagate_calls_cases fuel self t workdir deffnm continuation r calls :
  propagate get_all_traj_parts completion fuel self t workdir deffnm continuation
  = Some (r, calls) →
  calls = []
  ∨ (continuation = true ∧ calls = [CallEngineCls; CallGetAllTrajParts])
  ∨ ∃ k,
      calls = (if continuation
               then [CallEngineCls; CallGetAllTrajParts; CallPrepareFromFiles]
               else [CallEngineCls; CallPrepare])
              ++ replicate k CallRunWalltime.
Proof.
  unfold propagate.
  destruct (_ ≫= Np.asarray) as [cv|e]; [|intros [= _ <-]; by left].
  destruct (Np.any cv); [intros [= _ <-]; by left|].
  destruct (loop_entry _ _ _ _ _ _ _ _) as [[early|s0]|e] eqn:Hentry.
  - intros [= _ <-]. right. left. split; [|done].
    unfold loop_entry in Hentry. by destruct continuation.
  - intros Hrun. right. right.
    assert (ls_calls s0 = if continuation
                          then [CallEngineCls; CallGetAllTrajParts; CallPrepareFromFiles]
                          else [CallEngineCls; CallPrepare]) as Hcalls0.
    { apply loop_entry_state in Hentry as [_ Hentry]. destruct continuation.
      - apply Hentry.
      - by rewrite Hentry. }
    unfold run_loop in Hrun.
    destruct (stepping completion fuel self s0) as [[s'|[e calls']]|] eqn:Hstep; [| |done].
    + injection Hrun as _ <-.
      apply stepping_account in Hstep as (k & _ & _ & _ & Hcalls & _).
      exists k. by rewrite Hcalls, Hcalls0.
    + injection Hrun as _ <-.
      apply stepping_exception in Hstep as (_ & k & ->). exists (S k). by rewrite Hcalls0.
  - intros [= _ <-]. right. left. split; [|done].
    unfold loop_entry in Hentry. by destruct continuation.
Qed.
End PropagateInversion.

(** * Further properties of [cut_and_concatenate] *)

Section CutFurther.
Context {Frame MDConfig Hours : Type}.
Variable completion : Trajectory Frame → list nat.
Implicit Types (self : @ConditionalTrajectoryPropagator Frame MDConfig Hours).
Implicit Types (trajs rest : list (Trajectory Frame)).

Lemma sum_list_take_le (l : list nat) a b :
  a ≤ b → sum_list (take a l) ≤ sum_list (take b l).
Proof.
  revert a b. induction l as [|x l IH]; intros a b Hab; [by rewrite !take_nil|].
  destruct a as [|a], b as [|b]; cbn; try lia.
  specialize (IH a b). lia.
Qed.

(** The trajectory [cut_and_concatenate] returns, from the first
    fulfilment along the segments. *)
Lemma cut_prefix self trajs c g :
  consistent (conditions self) trajs →
  first_true_at (values_along (conditions self) trajs) c g →
  cut_and_concatenate completion self trajs = Return (take (S g) (concat trajs), c)
  ∧ g < length (concat trajs).
Proof.
  intros Hcons Hfirst.
  destruct (cut_locate_Return completion self trajs Hcons)
    as (c' & g' & seg & Hloc & Hfirst' & Hseg & Hlow & Hup);
    [exists c, g; apply Hfirst|].
  destruct (first_true_at_unique _ _ _ _ _ Hfirst Hfirst') as [<- <-].
  destruct (lookup_lt_is_Some_2 trajs seg Hseg) as [last Hlast].
  rewrite (sum_list_take_lookup (map length trajs) seg (length last)) in Hup
    by (by rewrite lookup_map, Hlast).
  rewrite take_map_length in Hlow, Hup.
  split.
  - unfold cut_and_concatenate.
    rewrite (cut_plan_of_locate _ _ _ _ _ _ _ Hloc). cbn [mbind result_bind bind].
    rewrite (concatenate_cut_plan trajs seg last).
    + cbn [mbind result_bind bind]. do 2 f_equal.
      unfold frame_in_part. rewrite take_map_length.
      replace (Z.to_nat _) with (g - sum_list (map length (take seg trajs))) by lia.
      rewrite <- (take_concat_at trajs seg last) by (done || lia).
      f_equal. lia.
    + done.
    + unfold frame_in_part. rewrite take_map_length. lia.
  - rewrite length_concat. eapply true_at_along_bound; [done | apply Hfirst].
Qed.

Lemma cut_and_concatenate_plan_inv self trajs trajs' slices c :
  cut_and_concatenate_plan completion self trajs = Return (trajs', slices, c) →
  ∃ g seg local,
    cut_locate completion self trajs = Return (c, g, seg, local)
    ∧ seg < length trajs ∧ (0 ≤ local)%Z
    ∧ trajs' = take (seg + 1) trajs
    ∧ slices = replicate seg (0%Z, None, 1%Z) ++ [(0%Z, Some (local + 1)%Z, 1%Z)].
Proof.
  intros Hplan. pose proof Hplan as Hplan'. unfold cut_and_concatenate_plan in Hplan'.
  apply bind_inv in Hplan' as ([[[c' g] seg] local] & Hloc & _).
  rewrite (cut_plan_of_locate _ _ _ _ _ _ _ Hloc) in Hplan.
  injection Hplan as <- <- <-.
  destruct (cut_locate_inv _ _ _ _ _ _ _ Hloc) as [Hseg Hlocal].
  exists g, seg, local. done.
Qed.

Lemma cut_locate_first self trajs c g seg local :
  cut_locate completion self trajs = Return (c, g, seg, local) →
  first_true_at (values_along (conditions self) trajs) c g.
Proof.
  unfold cut_locate.
  rewrite (mapM_Return _ (values_on (conditions self)))
    by (intros; apply condition_vals_for_traj_values).
  cbn [mbind result_bind bind].
  intros (part_lens & _ & H)%bind_inv. apply bind_inv in H as (arrays & Harr & H).
  apply bind_inv in H as (m & Hm & H).
  apply mapM_asarray_inv in Harr as ->. apply concatenate1_inv in Hm as ->.
  apply bind_inv in H as ([c' g'] & Hfirst & H).
  apply bind_inv in H as (i & _ & [= <- <- _ _]).
  by apply first_fullfilled_sound.
Qed.
End CutFurther.

(** X1. The walk over the part lengths returns the one segment whose frame
    range holds the frame, and raises IndexError exactly when the frame
    lies past the last segment (an empty list of parts included). *)
Theorem find_last_part_finds_the_owner (part_lens : list nat) (first_frame : nat) :
  (first_frame < sum_list part_lens →
   ∃ i, find_last_part part_lens first_frame = Return i
        ∧ i < length part_lens
        ∧ sum_list (take i part_lens) ≤ first_frame
        ∧ first_frame < sum_list (take (S i) part_lens)
        ∧ ∀ i', sum_list (take i' part_lens) ≤ first_frame →
                first_frame < sum_list (take (S i') part_lens) → i' = i)
  ∧ (sum_list part_lens ≤ first_frame →
     find_last_part part_lens first_frame = Raise IndexError).
Proof.
  split; [|apply find_last_part_Raise].
  intros Hlt. destruct (find_last_part_Return part_lens first_frame Hlt)
    as (i & Hi & Hlen & Hlow & Hup).
  exists i. split_and!; [done..|].
  intros i' Hlow' Hup'.
  destruct (Nat.lt_trichotomy i' i) as [Hlt'|[->|Hgt]]; [|done|].
  - pose proof (sum_list_take_le part_lens (S i') i). lia.
  - pose proof (sum_list_take_le part_lens (S i) i'). lia.
Qed.

Lemma find_last_part_finds_the_owner_witness :
  (∃ i, find_last_part [5; 0; 3] 6 = Return i
        ∧ i < length [5; 0; 3]
        ∧ sum_list (take i [5; 0; 3]) ≤ 6
        ∧ 6 < sum_list (take (S i) [5; 0; 3])
        ∧ ∀ i', sum_list (take i' [5; 0; 3]) ≤ 6 →
                6 < sum_list (take (S i') [5; 0; 3]) → i' = i)
  ∧ find_last_part [5; 0; 3] 8 = Raise IndexError.
Proof.
  split.
  - apply (find_last_part_finds_the_owner [5; 0; 3] 6). cbn. lia.
  - apply (find_last_part_finds_the_owner [5; 0; 3] 8). cbn. lia.
Defined.

Section CutExtras.
Context {Frame MDConfig Hours : Type}.
Variable completion : Trajectory Frame → list nat.
Implicit Types (self : @ConditionalTrajectoryPropagator Frame MDConfig Hours).
Implicit Types (trajs rest : list (Trajectory Frame)).

(** X2. When the condition values are consistent and frame g is the first
    frame along the segments on which a condition is true, lowest
    condition c, [cut_and_concatenate] returns c and the first g + 1
    frames of the segments joined in order: the trajectory is a prefix of
    the joined segments and ends with the first frame in a condition. *)
Theorem cut_and_concatenate_returns_prefix self trajs c g :
  consistent (conditions self) trajs →
  first_true_at (values_along (conditions self) trajs) c g →
  cut_and_concatenate completion self trajs = Return (take (S g) (concat trajs), c)
  ∧ length (take (S g) (concat trajs)) = S g
  ∧ take (S g) (concat trajs) `prefix_of` concat trajs.
Proof.
  intros Hcons Hfirst.
  destruct (cut_prefix completion self trajs c g Hcons Hfirst) as [Hcut Hg].
  split_and!; [done | rewrite length_take; lia |].
  exists (drop (S g) (concat trajs)). by rewrite take_drop.
Qed.

(** X3. Segments after the one that holds the first frame in a condition
    are ignored: appending any segments to a list on which some condition
    is true changes neither the trajectory nor the condition index
    [cut_and_concatenate] returns. *)
Theorem cut_and_concatenate_ignores_the_rest self trajs rest :
  well_behaved (conditions self) →
  (∃ c g, true_at (values_along (conditions self) trajs) c g) →
  cut_and_concatenate completion self (trajs ++ rest)
  = cut_and_concatenate completion self trajs
  ∧ ∃ full c, cut_and_concatenate completion self trajs = Return (full, c).
Proof.
  intros Hwb Hex.
  destruct (first_fullfilled_Return _ Hex) as (c & g & _ & Hfirst).
  destruct (cut_prefix completion self trajs c g) as [Hcut Hg];
    [by apply well_behaved_consistent | done |].
  destruct (cut_prefix completion self (trajs ++ rest) c g) as [Hcut' _];
    [by apply well_behaved_consistent | by apply first_true_at_app_l |].
  split; [|eauto].
  rewrite Hcut, Hcut'. do 2 f_equal. rewrite concat_app. apply take_app_le. lia.
Qed.

(** X4. Every plan [cut_and_concatenate] builds is well formed: it hands
    the concatenator a non-empty prefix of the given segments with one
    slice per segment, every slice forward from frame 0, only the last
    one bounded, and the condition index it returns is an index into the
    conditions. *)
Theorem cut_plan_is_well_formed self trajs trajs' slices c :
  cut_and_concatenate_plan completion self trajs = Return (trajs', slices, c) →
  length trajs' = length slices
  ∧ trajs' ≠ []
  ∧ trajs' `prefix_of` trajs
  ∧ (∃ full stop, slices = full ++ [(0%Z, Some stop, 1%Z)]
                  ∧ Forall (λ sl, sl = (0%Z, None, 1%Z)) full ∧ (1 ≤ stop)%Z)
  ∧ c < length (conditions self).
Proof.
  intros (g & seg & local & Hloc & Hseg & Hlocal & -> & ->)%cut_and_concatenate_plan_inv.
  split_and!.
  - rewrite length_take, length_app, length_replicate. cbn. lia.
  - destruct trajs; [cbn in Hseg; lia|]. by rewrite Nat.add_1_r.
  - exists (drop (seg + 1) trajs). by rewrite take_drop.
  - exists (replicate seg (0%Z, None, 1%Z)), (local + 1)%Z. split_and!; [done| |lia].
    apply Forall_forall. intros sl Hsl%elem_of_replicate. apply Hsl.
  - apply cut_locate_first in Hloc as [Ht _].
    apply true_at_row_bound in Ht. by rewrite length_values_along in Ht.
Qed.
End CutExtras.

Lemma cut_and_concatenate_returns_prefix_witness :
  cut_and_concatenate Demo.completion Demo.committing Demo.parts
  = Return (take 5 (concat Demo.parts), 1)
  ∧ length (take 5 (concat Demo.parts)) = 5
  ∧ take 5 (concat Demo.parts) `prefix_of` concat Demo.parts.
Proof.
  apply (cut_and_concatenate_returns_prefix Demo.completion Demo.committing
           Demo.parts 1 4).
  - demo_consistent.
  - apply first_fullfilled_sound. reflexivity.
Defined.

Lemma demo_well_behaved (l : list (Condition nat)) :
  Forall (λ c, ∃ f, call c = map f) l → well_behaved l.
Proof.
  intros Hall c t Hc. rewrite Forall_forall in Hall.
  destruct (Hall c Hc) as [f ->]. apply length_map.
Qed.

Ltac demo_behaved :=
  apply demo_well_behaved; repeat (constructor; [eexists; reflexivity|]); constructor.

Lemma cut_and_concatenate_ignores_the_rest_witness :
  cut_and_concatenate Demo.completion Demo.committing (Demo.parts ++ [[7; 8; 9]])
  = cut_and_concatenate Demo.completion Demo.committing Demo.parts
  ∧ ∃ full c, cut_and_concatenate Demo.completion Demo.committing Demo.parts
              = Return (full, c).
Proof.
  apply (cut_and_concatenate_ignores_the_rest Demo.completion Demo.committing
           Demo.parts [[7; 8; 9]]).
  - demo_behaved.
  - exists 1, 4. eexists. split; reflexivity.
Defined.

Lemma cut_plan_is_well_formed_witness :
  length (take 2 Demo.parts) = length [(0%Z, @None Z, 1%Z); (0%Z, Some 2%Z, 1%Z)]
  ∧ take 2 Demo.parts ≠ []
  ∧ take 2 Demo.parts `prefix_of` Demo.parts
  ∧ (∃ full stop, [(0%Z, @None Z, 1%Z); (0%Z, Some 2%Z, 1%Z)]
                  = full ++ [(0%Z, Some stop, 1%Z)]
                  ∧ Forall (λ sl, sl = (0%Z, None, 1%Z)) full ∧ (1 ≤ stop)%Z)
  ∧ 1 < length (conditions Demo.committing).
Proof.
  apply (cut_plan_is_well_formed Demo.completion Demo.committing Demo.parts).
  vm_compute. reflexivity.
Defined.

(** * Further properties of [propagate] and [propagate_and_concatenate] *)

Section PropagateExtras.
Context {Frame MDConfig Hours E : Type} `{!MDEngine Frame MDConfig Hours E}.
Variable get_all_traj_parts : string → string → E → list (Trajectory Frame).
Variable completion : Trajectory Frame → list nat.
Implicit Types (self : @ConditionalTrajectoryPropagator Frame MDConfig Hours).
Implicit Types (s : @LoopState Frame E) (t : Trajectory Frame).
Implicit Types (trajs : list (Trajectory Frame)).

Lemma segments_requested_runs (calls : list EngineCall) k :
  segments_requested (calls ++ replicate k CallRunWalltime)
  = segments_requested calls + k.
Proof.
  induction calls as [|call calls IH].
  - induction k as [|k IHk]; [done|]. cbn in *. by rewrite IHk.
  - destruct call; cbn; rewrite IH; done.
Qed.

Lemma run_in_runs (calls : list EngineCall) k :
  CallRunWalltime ∈ calls ++ replicate (S k) CallRunWalltime.
Proof. apply elem_of_app. right. by left. Qed.

Lemma entry_trajs self t workdir deffnm continuation cond_vals s0 :
  loop_entry get_all_traj_parts completion self t workdir deffnm continuation cond_vals
  = Return (inr s0) →
  ls_trajs s0
  = (if continuation
     then get_all_traj_parts workdir deffnm (engine_cls (engine_kwargs self))
     else [])
  ∧ ls_calls s0
    = (if continuation
       then [CallEngineCls; CallGetAllTrajParts; CallPrepareFromFiles]
       else [CallEngineCls; CallPrepare])
  ∧ Forall (λ t, Np.any (values_on (conditions self) t) = false) (ls_trajs s0).
Proof.
  intros [_ Hentry]%loop_entry_state. destruct continuation.
  - destruct Hentry as (_ & Htrajs & _ & Hcalls & Hnone). split_and!; [done..|].
    rewrite Htrajs. by apply along_quiet_segments.
  - subst s0. cbn. split_and!; [done..|]. constructor.
Qed.

(** The segments [propagate] returns after stepping: all but the last are
    free of conditions, on the last the condition returned is the first
    fulfilled. *)
Lemma propagate_stepped_segments fuel self t workdir deffnm continuation trajs c calls :
  propagate get_all_traj_parts completion fuel self t workdir deffnm continuation
  = Some (Return (trajs, c), calls) →
  CallRunWalltime ∈ calls →
  ∃ front last g,
    trajs = front ++ [last]
    ∧ Forall (λ t, Np.any (values_on (conditions self) t) = false) front
    ∧ first_true_at (values_on (conditions self) last) c g.
Proof.
  intros [(-> & _)|[(_ & -> & _)|(s0 & k & g & Hentry & _ & _ & -> & -> & _ & Hquiet & Hfirst)]]
    %propagate_Return_cases Hrun.
  - by apply elem_of_nil in Hrun.
  - repeat (apply elem_of_cons in Hrun as [Hrun|Hrun]; [done|]).
    by apply elem_of_nil in Hrun.
  - destruct (entry_trajs _ _ _ _ _ _ _ Hentry) as (_ & _ & Hquiet0).
    exists (ls_trajs s0 ++ map (λ i, segment self i (ls_engine s0)) (seq 0 k)),
      (segment self k (ls_engine s0)), g.
    split_and!; [|apply Forall_app; split; [done|]|done].
    + rewrite seq_S, map_app, app_assoc. done.
    + apply Forall_forall. intros t' (i & -> & Hi%elem_of_seq)%list_elem_of_fmap.
      apply Hquiet. lia.
Qed.

(** The condition [propagate] returns is the first fulfilled along the
    segments it returns. *)
Lemma propagate_Return_first_along fuel self t workdir deffnm continuation trajs c calls :
  well_behaved (conditions self) →
  propagate get_all_traj_parts completion fuel self t workdir deffnm continuation
  = Some (Return (trajs, c), calls) →
  ∃ g, first_true_at (values_along (conditions self) trajs) c g.
Proof.
  intros Hwb Hprop. pose proof Hprop as Hcases.
  apply propagate_Return_cases in Hcases
    as [(_ & -> & g & Hg)|[(_ & _ & _ & Hg)|(s0 & k & g & _ & _ & _ & _ & Hcalls & _)]].
  - exists g. by rewrite values_along_one.
  - done.
  - destruct (propagate_stepped_segments _ _ _ _ _ _ _ _ _ Hprop)
      as (front & last & g' & -> & Hfront & Hlast).
    { rewrite Hcalls. apply run_in_runs. }
    exists (length (concat front) + g'). apply first_true_at_app_r; [done| |].
    + by apply quiet_segments_along.
    + by rewrite values_along_one.
Qed.

(** X5. Whenever [propagate] returns after creating the engine, the list
    it returns is the segments recovered from disk (none without
    continuation) followed by the segments the engine produced, one per
    call of [run_walltime], in order. *)
Theorem propagate_returns_recovered_then_produced
    fuel self t workdir deffnm continuation trajs c calls :
  propagate get_all_traj_parts completion fuel self t workdir deffnm continuation
  = Some (Return (trajs, c), calls) →
  calls ≠ [] →
  ∃ produced,
    trajs = (if continuation
             then get_all_traj_parts workdir deffnm (engine_cls (engine_kwargs self))
             else [])
            ++ produced
    ∧ length produced = segments_requested calls
    ∧ ∀ i, i < length produced →
           produced !! i
           = Some (segment self i
                     (if continuation
                      then prepare_from_files workdir deffnm
                             (engine_cls (engine_kwargs self))
                      else prepare t workdir deffnm (engine_cls (engine_kwargs self)))).
Proof.
  intros [(-> & _)|[(-> & -> & -> & _)|(s0 & k & g & Hentry & _ & _ & -> & -> & _)]]
    %propagate_Return_cases Hcalls; [done| |].
  - exists []. rewrite app_nil_r. split_and!; [done | done |].
    intros i Hi. cbn in Hi. lia.
  - destruct (entry_trajs _ _ _ _ _ _ _ Hentry) as (-> & -> & _).
    exists (map (λ i, segment self i (ls_engine s0)) (seq 0 (S k))).
    split_and!; [done| |].
    + rewrite segments_requested_runs, length_map, length_seq. by destruct continuation.
    + intros i Hi. rewrite length_map, length_seq in Hi.
      rewrite lookup_map, lookup_seq_lt by done. cbn. do 2 f_equal.
      apply loop_entry_state in Hentry as [_ Hentry]. destruct continuation.
      * apply Hentry.
      * by rewrite Hentry.
Qed.

(** X6. Whenever [propagate] returns after requesting a segment, the last
    segment of the list is the one on which a condition is fulfilled: no
    condition is true on any frame of the segments before it, recovered
    ones included, and the index returned is the first fulfilled on the
    last segment. *)
Theorem propagate_fulfils_on_last_segment_only
    fuel self t workdir deffnm continuation trajs c calls :
  propagate get_all_traj_parts completion fuel self t workdir deffnm continuation
  = Some (Return (trajs, c), calls) →
  CallRunWalltime ∈ calls →
  ∃ front last g,
    trajs = front ++ [last]
    ∧ Forall (λ t, Np.any (values_on (conditions self) t) = false) front
    ∧ Np.any (values_on (conditions self) last) = true
    ∧ first_true_at (values_on (conditions self) last) c g.
Proof.
  intros Hprop Hrun.
  destruct (propagate_stepped_segments _ _ _ _ _ _ _ _ _ Hprop Hrun)
    as (front & last & g & -> & Hfront & Hlast).
  exists front, last, g. split_and!; [done..| |done].
  apply any_true_at. exists c, g. apply Hlast.
Qed.

(** X7. Whenever [propagate] returns, the list of segments is not empty and
    the condition index is an index into the conditions. *)
Theorem propagate_returns_index_in_range
    fuel self t workdir deffnm continuation trajs c calls :
  propagate get_all_traj_parts completion fuel self t workdir deffnm continuation
  = Some (Return (trajs, c), calls) →
  trajs ≠ [] ∧ c < length (conditions self).
Proof.
  intros [(_ & -> & g & Hg)|[(_ & _ & _ & g & Hg)|(s0 & k & g & _ & _ & _ & -> & _ & _ & _ & Hg)]]
    %propagate_Return_cases.
  - split; [done|]. destruct Hg as [Ht _]. apply true_at_row_bound in Ht.
    by rewrite length_values_on in Ht.
  - destruct Hg as [Ht _]. split.
    + apply true_at_along_segment in Ht as (t' & _ & Hin & _). intros ->.
      by apply elem_of_nil in Hin.
    + apply true_at_row_bound in Ht. by rewrite length_values_along in Ht.
  - split.
    + rewrite seq_S, map_app, app_assoc. by intros ?%app_eq_nil%proj2.
    + destruct Hg as [Ht _]. apply true_at_row_bound in Ht.
      by rewrite length_values_on in Ht.
Qed.

(** X8. MaxStepsReachedError is raised only against a finite budget, which
    it reports together with a step count strictly above it, and only
    after the engine was created; with the unbounded budget [propagate]
    never raises it. *)
Theorem max_steps_error_reports_exceeded_finite_budget
    fuel self t workdir deffnm continuation n m calls :
  propagate get_all_traj_parts completion fuel self t workdir deffnm continuation
  = Some (Raise (MaxStepsReachedError n m), calls) →
  ∃ N, max_steps self = Steps N ∧ m = Steps N ∧ (N < n)%Z
       ∧ max_steps self ≠ Infinity
       ∧ CallEngineCls ∈ calls.
Proof.
  intros (s0 & k & Hentry & _ & -> & -> & Hexceeds & -> & _)%propagate_MaxSteps_cases.
  destruct (max_steps self) as [N|] eqn:Hmax; [|done].
  exists N. split_and!; [done | done | by apply Z.leb_gt in Hexceeds | done |].
  destruct (entry_trajs _ _ _ _ _ _ _ Hentry) as (_ & -> & _).
  apply elem_of_app. left. destruct continuation; by left.
Qed.

(** X9. The calls [propagate] makes on the engine side, however it ends:
    none; or, on continuation, the engine and the recovery of the segments
    and nothing else; or the engine, its preparation ([prepare] without
    continuation, the recovery and [prepare_from_files] with it) and then
    only calls of [run_walltime]. A fresh run never looks for segments on
    disk and a continuation never calls [prepare]. *)
Theorem propagate_call_discipline fuel self t workdir deffnm continuation r calls :
  propagate get_all_traj_parts completion fuel self t workdir deffnm continuation
  = Some (r, calls) →
  (calls = []
   ∨ (continuation = true ∧ calls = [CallEngineCls; CallGetAllTrajParts])
   ∨ ∃ k,
       calls = (if continuation
                then [CallEngineCls; CallGetAllTrajParts; CallPrepareFromFiles]
                else [CallEngineCls; CallPrepare])
               ++ replicate k CallRunWalltime)
  ∧ (continuation = false →
     (CallGetAllTrajParts ∉ calls) ∧ (CallPrepareFromFiles ∉ calls))
  ∧ (continuation = true → CallPrepare ∉ calls).
Proof.
  intros Hcases%propagate_calls_cases. split; [done|].
  split; intros ->.
  - destruct Hcases as [->|[[? _]|[k ->]]]; [|done|].
    + split; apply not_elem_of_nil.
    + split; (intros [Hin|[Heq _]%elem_of_replicate]%elem_of_app; [|done]);
        repeat (apply elem_of_cons in Hin as [Hin|Hin]; [done|]);
        by apply elem_of_nil in Hin.
  - destruct Hcases as [->|[[_ ->]|[k ->]]].
    + apply not_elem_of_nil.
    + intros Hin. repeat (apply elem_of_cons in Hin as [Hin|Hin]; [done|]).
      by apply elem_of_nil in Hin.
    + intros [Hin|[Heq _]%elem_of_replicate]%elem_of_app; [|done].
      repeat (apply elem_of_cons in Hin as [Hin|Hin]; [done|]).
      by apply elem_of_nil in Hin.
Qed.

(** X10. A fresh run from a starting configuration without a true
    condition: with a negative max_steps [propagate] raises
    MaxStepsReachedError with 0 steps before any segment is requested;
    with any other budget, max_steps = 0 included, it requests at least
    one segment before it ends. *)
Theorem fresh_run_requests_a_segment_unless_budget_negative
    fuel self t workdir deffnm :
  quiet (conditions self) t →
  (∀ N, max_steps self = Steps N → (N < 0)%Z →
     propagate get_all_traj_parts completion fuel self t workdir deffnm false
     = Some (Raise (MaxStepsReachedError 0 (Steps N)), [CallEngineCls; CallPrepare]))
  ∧ (within_budget 0 (max_steps self) = true →
     ∀ r calls,
       propagate get_all_traj_parts completion fuel self t workdir deffnm false
       = Some (r, calls) →
       CallRunWalltime ∈ calls).
Proof.
  intros Hquiet. split.
  - intros N HN Hneg. rewrite propagate_quiet_start by done. unfold loop_entry.
    cbn [negb]. rewrite <- HN.
    rewrite (run_loop_exceeds completion self _ 0 fuel); try done; try (intros; lia).
    cbn. rewrite HN. cbn. by apply Z.leb_gt.
  - intros Hwithin r calls. rewrite propagate_quiet_start by done. unfold loop_entry.
    cbn [negb]. unfold run_loop.
    destruct (stepping _ _ _ _) as [[s'|[e calls']]|] eqn:Hstep; [| |done].
    + intros [= _ <-].
      apply stepping_account in Hstep
        as (k & _ & _ & _ & Hcalls & _ & _ & _ & _ & _ & Hlast & Hexit).
      destruct k as [|k].
      * subst s'. cbn in Hexit. rewrite Hexit in Hwithin; done.
      * rewrite Hcalls. apply run_in_runs.
    + intros [= _ <-]. apply stepping_exception in Hstep as (_ & k & ->).
      apply run_in_runs.
Qed.

(** X11. With conditions that give one value per frame, whenever
    [propagate] returns segments and a condition index,
    [propagate_and_concatenate] returns the same condition index, after
    the same calls, and the frames of those segments joined in order up to
    and including the first frame on which a condition is true. *)
Theorem propagate_and_concatenate_agrees_with_propagate
    fuel self t workdir deffnm continuation trajs c calls :
  well_behaved (conditions self) →
  propagate get_all_traj_parts completion fuel self t workdir deffnm continuation
  = Some (Return (trajs, c), calls) →
  ∃ g,
    propagate_and_concatenate get_all_traj_parts completion fuel self t workdir
      deffnm continuation
    = Some (Return (take (S g) (concat trajs), c), calls)
    ∧ first_true_at (values_along (conditions self) trajs) c g
    ∧ length (take (S g) (concat trajs)) = S g.
Proof.
  intros Hwb Hprop.
  destruct (propagate_Return_first_along _ _ _ _ _ _ _ _ _ Hwb Hprop) as [g Hfirst].
  destruct (cut_prefix completion self trajs c g) as [Hcut Hg];
    [by apply well_behaved_consistent | done |].
  exists g. split_and!; [|done|rewrite length_take; lia].
  unfold propagate_and_concatenate. rewrite Hprop, Hcut. done.
Qed.
End PropagateExtras.

Lemma propagate_returns_recovered_then_produced_witness :
  ∃ produced,
    [[1; 2; 3]; [4; 5; 6]; [7; 8; 9]]
    = Demo.get_all_traj_parts "wd" "run" (engine_cls (engine_kwargs Demo.resuming))
      ++ produced
    ∧ length produced
      = segments_requested
          [CallEngineCls; CallGetAllTrajParts; CallPrepareFromFiles; CallRunWalltime]
    ∧ ∀ i, i < length produced →
           produced !! i
           = Some (segment Demo.resuming i
                     (prepare_from_files "wd" "run"
                        (engine_cls (engine_kwargs Demo.resuming)))).
Proof.
  apply (propagate_returns_recovered_then_produced Demo.get_all_traj_parts
           Demo.completion 10 Demo.resuming Demo.starting_configuration "wd" "run"
           true [[1; 2; 3]; [4; 5; 6]; [7; 8; 9]] 1
           [CallEngineCls; CallGetAllTrajParts; CallPrepareFromFiles; CallRunWalltime]).
  - vm_compute. reflexivity.
  - discriminate.
Defined.

Lemma propagate_fulfils_on_last_segment_only_witness :
  ∃ front last g,
    [[1; 2; 3]; [4; 5; 6]] = front ++ [last]
    ∧ Forall (λ t, Np.any (values_on (conditions Demo.committing) t) = false) front
    ∧ Np.any (values_on (conditions Demo.committing) last) = true
    ∧ first_true_at (values_on (conditions Demo.committing) last) 1 g.
Proof.
  apply (propagate_fulfils_on_last_segment_only Demo.get_all_traj_parts
           Demo.completion 10 Demo.committing Demo.starting_configuration "wd" "run"
           false [[1; 2; 3]; [4; 5; 6]] 1
           [CallEngineCls; CallPrepare; CallRunWalltime; CallRunWalltime]).
  - vm_compute. reflexivity.
  - apply list_elem_of_further, list_elem_of_further, list_elem_of_here.
Defined.

Lemma propagate_returns_index_in_range_witness :
  [[1; 2; 3]; [4; 5; 6]] ≠ [] ∧ 1 < length (conditions Demo.committing).
Proof.
  apply (propagate_returns_index_in_range Demo.get_all_traj_parts
           Demo.completion 10 Demo.committing Demo.starting_configuration "wd" "run"
           true [[1; 2; 3]; [4; 5; 6]] 1 [CallEngineCls; CallGetAllTrajParts]).
  vm_compute. reflexivity.
Defined.

Lemma max_steps_error_reports_exceeded_finite_budget_witness :
  ∃ N, max_steps Demo.wandering = Steps N ∧ Steps 150 = Steps N ∧ (N < 200)%Z
       ∧ max_steps Demo.wandering ≠ Infinity
       ∧ CallEngineCls ∈ [CallEngineCls; CallPrepare; CallRunWalltime; CallRunWalltime].
Proof.
  apply (max_steps_error_reports_exceeded_finite_budget Demo.get_all_traj_parts
           Demo.completion 10 Demo.wandering Demo.starting_configuration "wd" "run"
           false 200%Z (Steps 150)
           [CallEngineCls; CallPrepare; CallRunWalltime; CallRunWalltime]).
  vm_compute. reflexivity.
Defined.

Lemma propagate_call_discipline_witness :
  ([CallEngineCls; CallGetAllTrajParts; CallPrepareFromFiles; CallRunWalltime] = []
   ∨ (true = true
      ∧ [CallEngineCls; CallGetAllTrajParts; CallPrepareFromFiles; CallRunWalltime]
        = [CallEngineCls; CallGetAllTrajParts])
   ∨ ∃ k,
       [CallEngineCls; CallGetAllTrajParts; CallPrepareFromFiles; CallRunWalltime]
       = [CallEngineCls; CallGetAllTrajParts; CallPrepareFromFiles]
         ++ replicate k CallRunWalltime)
  ∧ (true = false →
     (CallGetAllTrajParts
      ∉ [CallEngineCls; CallGetAllTrajParts; CallPrepareFromFiles; CallRunWalltime])
     ∧ (CallPrepareFromFiles
        ∉ [CallEngineCls; CallGetAllTrajParts; CallPrepareFromFiles; CallRunWalltime]))
  ∧ (true = true →
     CallPrepare
     ∉ [CallEngineCls; CallGetAllTrajParts; CallPrepareFromFiles; CallRunWalltime]).
Proof.
  apply (propagate_call_discipline Demo.get_all_traj_parts
           Demo.completion 10 Demo.resuming Demo.starting_configuration "wd" "run"
           true (Return ([[1; 2; 3]; [4; 5; 6]; [7; 8; 9]], 1))).
  vm_compute. reflexivity.
Defined.

Lemma fresh_run_requests_a_segment_unless_budget_negative_witness :
  propagate Demo.get_all_traj_parts Demo.completion 0
    (Demo.propagator [Demo.reached 5] (Steps (-1))) Demo.starting_configuration
    "wd" "run" false
  = Some (Raise (MaxStepsReachedError 0 (Steps (-1))), [CallEngineCls; CallPrepare])
  ∧ CallRunWalltime ∈ [CallEngineCls; CallPrepare; CallRunWalltime].
Proof.
  split.
  - refine (proj1 (fresh_run_requests_a_segment_unless_budget_negative
                     Demo.get_all_traj_parts Demo.completion 0
                     (Demo.propagator [Demo.reached 5] (Steps (-1)))
                     Demo.starting_configuration "wd" "run" _) (-1)%Z _ _).
    + demo_quiet.
    + reflexivity.
    + lia.
  - refine (proj2 (fresh_run_requests_a_segment_unless_budget_negative
                     Demo.get_all_traj_parts Demo.completion 1
                     (Demo.propagator [Demo.reached 5] (Steps 0))
                     Demo.starting_configuration "wd" "run" _) _
                  (Raise (MaxStepsReachedError 100 (Steps 0))) _ _).
    + demo_quiet.
    + reflexivity.
    + vm_compute. reflexivity.
Defined.

Lemma propagate_and_concatenate_agrees_with_propagate_witness :
  ∃ g,
    propagate_and_concatenate Demo.get_all_traj_parts Demo.completion 10
      Demo.committing Demo.starting_configuration "wd" "run" false
    = Some (Return (take (S g) (concat [[1; 2; 3]; [4; 5; 6]]), 1),
            [CallEngineCls; CallPrepare; CallRunWalltime; CallRunWalltime])
    ∧ first_true_at (values_along (conditions Demo.committing) [[1; 2; 3]; [4; 5; 6]]) 1 g
    ∧ length (take (S g) (concat [[1; 2; 3]; [4; 5; 6]])) = S g.
Proof.
  apply (propagate_and_concatenate_agrees_with_propagate Demo.get_all_traj_parts
           Demo.completion 10 Demo.committing Demo.starting_configuration "wd" "run"
           false [[1; 2; 3]; [4; 5; 6]] 1).
  - demo_behaved.
  - vm_compute. reflexivity.
Defined.

(** * Further properties of the two-way construction *)

Section ConstructExtras.
Context {Frame : Type}.
Implicit Types (trajs minus_trajs plus_trajs : list (Trajectory Frame)).
Implicit Types (state_funcs : list (Condition Frame)) (f fm fp : Condition Frame).

Lemma locate_state_inv trajs state state_funcs seg (local : Z) :
  locate_state trajs state state_funcs = Return (seg, local) →
  seg < length trajs ∧ (0 ≤ local)%Z.
Proof.
  unfold locate_state.
  intros (vals & Hvals & H)%bind_inv. apply bind_inv in H as (row & _ & H).
  apply bind_inv in H as (g & _ & H). apply bind_inv in H as (i & Hi & [= <- <-]).
  apply find_last_part_inv in Hi as (Hlt & Hlow & _).
  apply mapM_Result_length in Hvals. rewrite length_map in Hlt.
  split; [lia|]. unfold frame_in_part. lia.
Qed.

Lemma where1_nil (row : list bool) :
  (∀ g, row !! g ≠ Some true) → Np.where1 row = [].
Proof.
  intros Hnone. unfold Np.where1.
  destruct (Np.where_from 0 row) as [|x l] eqn:Hw; [done|].
  assert (x ∈ Np.where_from 0 row) as Hin by (rewrite Hw; by left).
  apply elem_of_where_from in Hin as (i & _ & Hi). by destruct (Hnone i).
Qed.

Lemma locate_state_unreached trajs state state_funcs f :
  state_funcs !! state = Some f →
  (∀ g, concat (map (call f) trajs) !! g ≠ Some true) →
  locate_state trajs state state_funcs = Raise ValueError.
Proof.
  intros Hf Hnone. unfold locate_state.
  rewrite (mapM_Return _ (call f)).
  2:{ intros t _. by rewrite (getitem_Some _ _ _ Hf). }
  cbn [mbind result_bind bind].
  destruct trajs as [|t trajs]; [done|].
  change (Np.concatenate0 (map (call f) (t :: trajs)))
    with (Return (A := list bool) (concat (map (call f) (t :: trajs)))).
  cbn [mbind result_bind bind]. by rewrite where1_nil.
Qed.

Lemma construct_TP_plan_inv minus_trajs minus_state plus_trajs plus_state
    state_funcs trajs slices :
  construct_TP_plan minus_trajs minus_state plus_trajs plus_state state_funcs
  = Return (trajs, slices) →
  ∃ j m k p,
    j < length minus_trajs ∧ (0 ≤ m)%Z ∧ k < length plus_trajs ∧ (0 ≤ p)%Z
    ∧ trajs = reverse (take (S j) minus_trajs) ++ take (S k) plus_trajs
    ∧ slices = minus_slices j m ++ plus_slices k p.
Proof.
  intros Hplan. pose proof Hplan as H. unfold construct_TP_plan in H.
  apply bind_inv in H as ([j m] & Hminus & H).
  destruct (locate_state_inv _ _ _ _ _ Hminus) as [Hj Hm].
  destruct (lookup_lt_is_Some_2 minus_trajs j Hj) as [minus_j Hjl].
  rewrite (getitem_Some _ _ _ Hjl) in H. cbn [mbind result_bind bind] in H.
  rewrite mapM_getitem_reverse_seq in H by lia. cbn [mbind result_bind bind] in H.
  apply bind_inv in H as ([k p] & Hplus & _).
  destruct (locate_state_inv _ _ _ _ _ Hplus) as [Hk Hp].
  destruct (lookup_lt_is_Some_2 plus_trajs k Hk) as [plus_k Hkl].
  rewrite (construct_TP_plan_shape _ _ _ _ _ _ _ _ _ _ _ Hminus Hjl Hplus Hkl) in Hplan.
  injection Hplan as <- <-. exists j, m, k, p. done.
Qed.


(** X12. Every plan the two-way construction builds is well formed: it
    reads a non-empty prefix of the minus chain in reverse order, every
    segment with stride -1, and then a non-empty prefix of the plus chain
    in order, every segment with stride +1, with one slice per segment. *)
Theorem construct_TP_plan_is_well_formed
    minus_trajs minus_state plus_trajs plus_state state_funcs trajs slices :
  construct_TP_plan minus_trajs minus_state plus_trajs plus_state state_funcs
  = Return (trajs, slices) →
  ∃ j m k p,
    j < length minus_trajs ∧ (0 ≤ m)%Z ∧ k < length plus_trajs ∧ (0 ≤ p)%Z
    ∧ trajs = reverse (take (S j) minus_trajs) ++ take (S k) plus_trajs
    ∧ slices = minus_slices j m ++ plus_slices k p
    ∧ Forall (λ sl : Slice, sl.2 = (-1)%Z) (minus_slices j m)
    ∧ Forall (λ sl : Slice, sl.2 = 1%Z) (plus_slices k p)
    ∧ length (minus_slices j m) = S j
    ∧ length (plus_slices k p) = S k
    ∧ length trajs = length slices.
Proof.
  intros (j & m & k & p & Hj & Hm & Hk & Hp & -> & ->)%construct_TP_plan_inv.
  exists j, m, k, p.
  assert (length (minus_slices j m) = S j) as Hlm.
  { unfold minus_slices. cbn. by rewrite length_replicate. }
  assert (length (plus_slices k p) = S k) as Hlp.
  { destruct k as [|k']; cbn; [done|]. rewrite length_app, length_replicate. cbn. lia. }
  split_and!; try done.
  - unfold minus_slices. constructor; [done|].
    apply Forall_forall. intros sl Hsl%elem_of_replicate. by rewrite (proj1 Hsl).
  - destruct k as [|k']; cbn; [by repeat constructor|]. constructor; [done|].
    apply Forall_app. split; [|by repeat constructor].
    apply Forall_forall. intros sl Hsl%elem_of_replicate. by rewrite (proj1 Hsl).
  - rewrite !length_app, length_reverse, !length_take, Hlm, Hlp. lia.
Qed.

(** X13. The two-way construction raises ValueError, and builds nothing,
    when the minus chain never reaches the minus state (an empty minus
    chain included), and also when the minus chain reaches its state but
    the plus chain never reaches the plus state. *)
Theorem construct_TP_raises_when_state_not_reached
    minus_trajs minus_state plus_trajs plus_state state_funcs fm :
  state_funcs !! minus_state = Some fm →
  ((∀ g, concat (map (call fm) minus_trajs) !! g ≠ Some true) →
   construct_TP_from_plus_and_minus_traj_segments minus_trajs minus_state
     plus_trajs plus_state state_funcs
   = Raise ValueError)
  ∧ (∀ fp gm,
       consistent [fm] minus_trajs →
       first_in_state (concat (map (call fm) minus_trajs)) gm →
       state_funcs !! plus_state = Some fp →
       (∀ g, concat (map (call fp) plus_trajs) !! g ≠ Some true) →
       construct_TP_from_plus_and_minus_traj_segments minus_trajs minus_state
         plus_trajs plus_state state_funcs
       = Raise ValueError).
Proof.
  intros Hfm. split.
  - intros Hnone. unfold construct_TP_from_plus_and_minus_traj_segments, construct_TP_plan.
    by rewrite (locate_state_unreached _ _ _ _ Hfm Hnone).
  - intros fp gm Hcm Hgm Hfp Hnone.
    destruct (locate_state_Return _ _ _ _ _ Hfm Hcm Hgm)
      as (j & minus_j & Hminus & Hj & _).
    unfold construct_TP_from_plus_and_minus_traj_segments, construct_TP_plan.
    rewrite Hminus. cbn [mbind result_bind bind].
    rewrite (getitem_Some _ _ _ Hj). cbn [mbind result_bind bind].
    rewrite mapM_getitem_reverse_seq by (apply lookup_lt_Some in Hj; lia).
    cbn [mbind result_bind bind].
    by rewrite (locate_state_unreached _ _ _ _ Hfp Hnone).
Qed.

End ConstructExtras.

Lemma construct_TP_plan_is_well_formed_witness :
  ∃ j m k p,
    j < length TwoWayExample.minus_trajs ∧ (0 ≤ m)%Z
    ∧ k < length TwoWayExample.plus_trajs ∧ (0 ≤ p)%Z
    ∧ [[0; 1; 2; 3; 4]; [0; 101; 102; 103]]
      = reverse (take (S j) TwoWayExample.minus_trajs)
        ++ take (S k) TwoWayExample.plus_trajs
    ∧ [(2%Z, None, (-1)%Z); (1%Z, Some 2%Z, 1%Z)]
      = minus_slices j m ++ plus_slices k p
    ∧ Forall (λ sl : Slice, sl.2 = (-1)%Z) (minus_slices j m)
    ∧ Forall (λ sl : Slice, sl.2 = 1%Z) (plus_slices k p)
    ∧ length (minus_slices j m) = S j
    ∧ length (plus_slices k p) = S k
    ∧ length [[0; 1; 2; 3; 4]; [0; 101; 102; 103]]
      = length [(2%Z, @None Z, (-1)%Z); (1%Z, Some 2%Z, 1%Z)].
Proof.
  apply (construct_TP_plan_is_well_formed TwoWayExample.minus_trajs 0
           TwoWayExample.plus_trajs 1 [TwoWayExample.state_A; TwoWayExample.state_B]).
  reflexivity.
Defined.

Lemma construct_TP_raises_when_state_not_reached_witness :
  construct_TP_from_plus_and_minus_traj_segments [[0; 1]] 0
    TwoWayExample.plus_trajs 1 [TwoWayExample.state_A; TwoWayExample.state_B]
  = Raise ValueError
  ∧ construct_TP_from_plus_and_minus_traj_segments TwoWayExample.minus_trajs 0
      [[0; 50]] 1 [TwoWayExample.state_A; TwoWayExample.state_B]
    = Raise ValueError.
Proof.
  split.
  - refine (proj1 (construct_TP_raises_when_state_not_reached [[0; 1]] 0
                     TwoWayExample.plus_trajs 1
                     [TwoWayExample.state_A; TwoWayExample.state_B]
                     TwoWayExample.state_A _) _).
    + reflexivity.
    + intros [|[|g]]; discriminate.
  - refine (proj2 (construct_TP_raises_when_state_not_reached
                     TwoWayExample.minus_trajs 0 [[0; 50]] 1
                     [TwoWayExample.state_A; TwoWayExample.state_B]
                     TwoWayExample.state_A _) TwoWayExample.state_B 2 _ _ _ _).
    + reflexivity.
    + demo_consistent.
    + split; [reflexivity|]. intros [|[|g']] Hg'; [discriminate.. | lia].
    + reflexivity.
    + intros [|[|g]]; discriminate.
Defined.


(** * Further properties of the condition evaluator *)

Section EvaluatorExtras.
Context {Frame : Type}.
Implicit Types (conds : list (Condition Frame)) (traj : Trajectory Frame).

Lemma omap_CoroDone {A} (l : list A) (f : A → nat) (order : list nat) :
  omap (λ k, (λ x, CoroDone (f x)) <$> l !! k) order
  = map CoroDone (omap (λ k, f <$> l !! k) order).
Proof.
  induction order as [|k order IH]; [done|]. csimpl.
  destruct (l !! k); csimpl; [by rewrite IH | done].
Qed.

Lemma where_from_NoDup j (row : list bool) : NoDup (Np.where_from j row).
Proof.
  revert j. induction row as [|b row IH]; intros j; cbn; [constructor|].
  destruct b; cbn; [|done]. constructor; [|done].
  intros Hin%where_from_lower. lia.
Qed.

Lemma where_from_split j (flags : list bool) :
  length (Np.where_from j flags) + length (Np.where_from j (map negb flags))
  = length flags.
Proof.
  revert j. induction flags as [|[|] flags IH]; intros j; cbn; [done|..];
    specialize (IH (S j)); lia.
Qed.

Lemma evaluator_events conds hint traj :
  ∃ done,
    condition_vals_with_events conds (map is_coroutine conds) hint traj
    = Return (values_on conds traj,
              map CoroDone done ++ map SyncCall (sync_positions conds))
    ∧ done ≡ₚ coro_positions conds.
Proof.
  unfold condition_vals_with_events, sync_positions, coro_positions, Np.where1.
  destruct (forallb id (map is_coroutine conds)) eqn:Hall.
  { destruct (Asyncio.gather hint _) as [res order] eqn:Hg.
    pose proof (gather_results hint (map (λ c, call c traj) conds)) as Hres.
    pose proof (gather_order hint (map (λ c, call c traj) conds)) as Hord.
    rewrite Hg in Hres, Hord. simpl in Hres, Hord. subst res.
    exists order. split.
    - rewrite where_from_none, app_nil_r; [done|].
      rewrite <- (forallb_existsb_negb _ Hall), map_map. done.
    - rewrite where_from_all by done. by rewrite !length_map in *. }
  destruct (existsb id (map is_coroutine conds)) eqn:Hany; cbn [negb].
  2:{ exists []. split; [|by rewrite where_from_none].
      cbn [map app]. rewrite where_from_all.
      - by rewrite length_map.
      - rewrite <- (existsb_forallb_negb _ Hany), map_map. done. }
  set (zipped := zip (seq 0 (length conds)) (zip conds (map is_coroutine conds))).
  set (coros := filter _ zipped).
  destruct (Asyncio.gather hint _) as [res order] eqn:Hg.
  pose proof (gather_results hint (map (λ icf, call icf.2.1 traj) coros)) as Hres.
  pose proof (gather_order hint (map (λ icf, call icf.2.1 traj) coros)) as Hord.
  rewrite Hg in Hres, Hord. simpl in Hres, Hord. subst res.
  subst coros. rewrite piece_together_spec. cbn [mbind result_bind bind].
  exists (omap (λ k, fst <$> filter (λ icf, icf.2.2 = true) zipped !! k) order).
  split.
  - f_equal. f_equal; [apply zipped_values|].
    f_equal; [apply (omap_CoroDone _ fst)|].
    rewrite <- zipped_sync, map_map. done.
  - rewrite <- zipped_coro. fold zipped.
    rewrite <- (omap_lookup_seq fst (filter _ zipped)).
    rewrite length_map in Hord. rewrite <- Hord.
    clear. induction order as [|k order IH]; [done|]. csimpl.
    destruct (_ !! k); csimpl; [|done]. by f_equiv.
Qed.

(** X15. When every condition returns its values on the trajectory, as the
    conditions of a [Condition] list do, the evaluator returns the values
    of all conditions, in the order of the list, and has evaluated every
    condition exactly once: first all coroutines, gathered, each completing
    once in whatever order, then the synchronous conditions, in the order
    of the list. The evaluator adds no failure of its own to such
    conditions: [coro_res.pop(0)] finds a result for every coroutine. A
    condition that raises is not covered: lines 564-583 have no handler
    for it. *)
Theorem evaluator_runs_coroutines_first_and_each_condition_once conds hint traj :
  ∃ done evs,
    condition_vals_with_events conds (map is_coroutine conds) hint traj
    = Return (values_on conds traj, evs)
    ∧ evs = map CoroDone done ++ map SyncCall (sync_positions conds)
    ∧ done ≡ₚ coro_positions conds
    ∧ length evs = length conds
    ∧ done ++ sync_positions conds ≡ₚ seq 0 (length conds).
Proof.
  destruct (evaluator_events conds hint traj) as (done & Hevs & Hperm).
  exists done, (map CoroDone done ++ map SyncCall (sync_positions conds)).
  assert (length done + length (sync_positions conds) = length conds) as Hlen.
  { rewrite Hperm. unfold coro_positions, sync_positions, Np.where1.
    pose proof (where_from_split 0 (map is_coroutine conds)) as Hsplit.
    rewrite map_map, length_map in Hsplit. done. }
  split_and!; [done | done | done | by rewrite length_app, !length_map |].
  apply NoDup_Permutation.
  - apply NoDup_app. split_and!.
    + rewrite Hperm. unfold coro_positions, Np.where1. apply where_from_NoDup.
    + intros i Hi Hs. rewrite Hperm in Hi.
      apply elem_of_where_from in Hi as (a & -> & Ha).
      apply elem_of_where_from in Hs as (b & Hab & Hb). cbn in Hab. subst b.
      rewrite lookup_map in Ha, Hb.
      destruct (conds !! a) as [c|]; [|done]. cbn in *.
      destruct (is_coroutine c); cbn in *; congruence.
    + apply where_from_NoDup.
  - apply NoDup_seq.
  - intros i. rewrite elem_of_app, elem_of_seq, Hperm.
    unfold coro_positions, sync_positions, Np.where1.
    rewrite !elem_of_where_from. split.
    + intros [(a & -> & Ha)|(a & -> & Ha)]; apply lookup_lt_Some in Ha;
        rewrite length_map in Ha; lia.
    + intros [_ Hi]. cbn in Hi.
      destruct (lookup_lt_is_Some_2 conds i Hi) as [c Hc].
      destruct (is_coroutine c) eqn:Hco.
      * left. exists i. split; [done|]. by rewrite lookup_map, Hc; cbn; rewrite Hco.
      * right. exists i. split; [done|]. by rewrite lookup_map, Hc; cbn; rewrite Hco.
Qed.
End EvaluatorExtras.

Lemma evaluator_runs_coroutines_first_and_each_condition_once_witness :
  ∃ done evs,
    condition_vals_with_events [Demo.exactly 8; Demo.reached 7; Demo.reached 9]
      (map is_coroutine [Demo.exactly 8; Demo.reached 7; Demo.reached 9])
      [1; 0] [7; 8; 9]
    = Return (values_on [Demo.exactly 8; Demo.reached 7; Demo.reached 9] [7; 8; 9],
              evs)
    ∧ evs = map CoroDone done
            ++ map SyncCall
                 (sync_positions [Demo.exactly 8; Demo.reached 7; Demo.reached 9])
    ∧ done ≡ₚ coro_positions [Demo.exactly 8; Demo.reached 7; Demo.reached 9]
    ∧ length evs = length [Demo.exactly 8; Demo.reached 7; Demo.reached 9]
    ∧ done ++ sync_positions [Demo.exactly 8; Demo.reached 7; Demo.reached 9]
      ≡ₚ seq 0 (length [Demo.exactly 8; Demo.reached 7; Demo.reached 9]).
Proof.
  apply (evaluator_runs_coroutines_first_and_each_condition_once
           [Demo.exactly 8; Demo.reached 7; Demo.reached 9] [1; 0] [7; 8; 9]).
Defined.

Example evaluator_events_on_mixed_conditions :
  condition_vals_with_events [Demo.exactly 8; Demo.reached 7; Demo.reached 9]
    [false; true; true] [1; 0] [7; 8; 9]
  = Return ([[false; true; false]; [true; true; true]; [false; false; true]],
            [CoroDone 2; CoroDone 1; SyncCall 0]).
Proof. vm_compute. reflexivity. Qed.
